(** * lead-gen-system: the waterfall enrichment core

  A shallow embedding of the enrichment core of the lead generation
  system and the proofs of its specified properties:

  - [app/ai/lead_finder.py]: [AILeadFinder] (token accounting and the cost
    estimate) and [EnrichmentPipeline] ([enrich_lead], the waterfall over
    AI Ark, LinkedIn and the AI finder, and [enrich_leads_batch]);
  - [app/scrapers/base.py]: [RateLimiter] under concurrent callers,
    [ScraperResult], [ScraperStats] and [BaseScraper._make_request] under
    its retry decorator;
  - [app/scrapers/ai_ark.py]: [AIArkScraper.scrape] and [enrich_company],
    as far as they build the results the waterfall reads.

  - further: the cleaning helpers and [LeadData] of [base.py]; the
    requests, the parsing and the title heuristics of
    [app/scrapers/ai_ark.py] and [app/scrapers/linkedin.py], with the
    polling of a LinkedIn snapshot; the unwrapping of a reply in
    [AILeadFinder._call_claude]; and the endpoint of [app/api/routes.py]
    that enriches one lead.

  Python objects that are mutated in place (the lead dictionaries, the
  pipeline's [stats]) live in an explicit store; exceptions are values of
  an error monad whose handler catches what [except Exception] catches. *)

From Stdlib Require Import ZArith QArith Lqa Ascii String Floats.SpecFloat.
From stdpp Require Import base option list gmap strings.

Local Open Scope Z_scope.
Set Warnings "-register-all".


(** ** Python values, exceptions and floats *)

Module Py.

(** *** Exceptions

    The classes the code distinguishes: the two the retry decorator names,
    every other subclass of [Exception], and the exceptions that derive
    from [BaseException] only ([asyncio.CancelledError], [KeyboardInterrupt],
    [SystemExit]), which an [except Exception] clause lets through. *)
Inductive exn_class :=
| HTTPError            (* httpx.HTTPError and its subclasses *)
| AsyncTimeoutError    (* asyncio.TimeoutError *)
| OtherException       (* ValueError, TypeError, RuntimeError, ... *)
| RetryError           (* tenacity.RetryError *)
| BaseOnly.            (* BaseException outside Exception *)

Record exn := Exn { exn_cls : exn_class; exn_msg : string }.

(** [isinstance(e, Exception)] *)
Definition is_Exception (e : exn) : bool :=
  match exn_cls e with BaseOnly => false | _ => true end.

Definition ValueError (msg : string) : exn := Exn OtherException msg.
Definition TypeError (msg : string) : exn := Exn OtherException msg.
Definition AttributeError (msg : string) : exn := Exn OtherException msg.

(** [str(e)] *)
Definition str_of_exn (e : exn) : string := exn_msg e.

(** The outcome of a call: a value, or a raised exception. *)
Inductive result (A : Type) :=
| Ok (a : A)
| Raise (e : exn).
Arguments Ok {A} a.
Arguments Raise {A} e.

(** *** Floats

    A Python [float] is an IEEE 754 binary64 number. *)
Definition prec : Z := 53.
Definition emax : Z := 1024.
Abbreviation float := spec_float.

Definition fadd : float → float → float := SFadd prec emax.
Definition fmul : float → float → float := SFmul prec emax.

(** The float with value [m * 2^e], rounded to nearest even. *)
Definition float_of (m e : Z) : float := binary_normalize prec emax m e false.

(** [float(z)] for an [int] *)
Definition float_of_int (z : Z) : float := float_of z 0.

Definition fzero : float := S754_zero false.

(** An integer as an exact, not yet rounded, mantissa. *)
Definition exact (sign : bool) (z : Z) : float :=
  match z with
  | Z0 => S754_zero sign
  | Zpos p => S754_finite sign p 0
  | Zneg p => S754_finite (negb sign) p 0
  end.

(** [a / b] on two [int]s: the correctly rounded quotient ([b] is a
    non-zero constant at every use). *)
Definition int_truediv (a b : Z) : float :=
  SFdiv prec emax (exact false a) (exact false b).

Definition round_half_even (num den : Z) : Z :=
  let q := num / den in
  match (2 * (num mod den)) ?= den with
  | Lt => q
  | Gt => q + 1
  | Eq => if Z.even q then q else q + 1
  end.

(** [round(x, ndigits)] for [0 <= ndigits]: CPython rounds the exact binary
    value of [x] to [ndigits] decimals, ties to even, and converts that
    decimal back to the nearest float; infinities and nans round to
    themselves. *)
Definition round (x : float) (ndigits : Z) : float :=
  match x with
  | S754_finite s m e =>
      let n := if 0 <=? e then Zpos m * 2 ^ e * 10 ^ ndigits
               else round_half_even (Zpos m * 10 ^ ndigits) (2 ^ (- e)) in
      SFdiv prec emax (exact s n) (exact false (10 ^ ndigits))
  | _ => x
  end.

Definition float_is_zero (x : float) : bool :=
  match x with S754_zero _ => true | _ => false end.

(** *** Strings *)

Definition lower_ascii (c : ascii) : ascii :=
  let n := nat_of_ascii c in
  if (Nat.leb 65 n && Nat.leb n 90)%bool then ascii_of_nat (n + 32) else c.

(** [s.lower()], on the ASCII strings that model identifiers are *)
Fixpoint lower (s : string) : string :=
  match s with
  | EmptyString => EmptyString
  | String c rest => String (lower_ascii c) (lower rest)
  end.

(** [needle in hay] *)
Fixpoint contains (needle hay : string) : bool :=
  (String.prefix needle hay ||
   match hay with
   | EmptyString => false
   | String _ rest => contains needle rest
   end)%bool.

(** *** Values

    What a record field can hold: the JSON-shaped values the leads are
    made of. They are immutable trees; only dictionaries that the code
    writes to are objects in the store (see [Pipeline]). *)
Inductive value :=
| VNone
| VBool (b : bool)
| VInt (z : Z)
| VFloat (x : float)
| VStr (s : string)
| VList (items : list value)
| VObj (fields : list (string * value)).

(** Truth value testing, as in [if x] and [x or y]. *)
Definition truthy (v : value) : bool :=
  match v with
  | VNone => false
  | VBool b => b
  | VInt z => negb (z =? 0)
  | VFloat x => negb (float_is_zero x)
  | VStr s => negb (String.eqb s "")
  | VList items => match items with [] => false | _ => true end
  | VObj fields => match fields with [] => false | _ => true end
  end.

(** [x or y] *)
Definition py_or (x y : value) : value := if truthy x then x else y.

End Py.

Export Py.

(** ** [AILeadFinder]: token accounting and the cost estimate *)

Module AILeadFinder.

(** The fields of an [AILeadFinder] instance. [api_key] is [None] when
    neither the argument nor the settings give one. *)
Record t := Finder {
  api_key : option string;
  model : string;
  total_input_tokens : Z;
  total_output_tokens : Z;
}.

(** [AILeadFinder(api_key, model)] *)
Definition new (api_key : option string) (model : string) : t :=
  Finder api_key model 0 0.

(** What [self.client.messages.create(...)] and the reading of its
    message come to in one call of [_call_claude]. *)
Inductive create_outcome :=
| CreateRaises (e : exn)
    (* the API call raised *)
| Message (input_tokens output_tokens : Z) (body : exn + value).
    (* the API answered with this usage; then [message.content[0].text]
       raised, or the text was read and decoded to this data (the
       [parse_error] dictionary when it is not JSON) *)

(** The dictionary [_call_claude] returns. *)
Record call_result := CallResult {
  data : value;
  input_tokens : Z;
  output_tokens : Z;
  result_model : string;
}.

Definition has_key (f : t) : bool :=
  match api_key f with
  | Some k => negb (String.eqb k "")
  | None => false
  end.

(** [_call_claude]: the handler logs and re-raises, so every exception
    leaves the call; the usage is added to the totals as soon as the API
    has answered. *)
Definition _call_claude (f : t) (api : create_outcome) : result call_result * t :=
  if negb (has_key f) then
    (Raise (ValueError "Anthropic API key is required"), f)
  else
    match api with
    | CreateRaises e => (Raise e, f)
    | Message i o body =>
        let f' := Finder (api_key f) (model f)
                         (total_input_tokens f + i) (total_output_tokens f + o) in
        match body with
        | inl e => (Raise e, f')
        | inr d => (Ok (CallResult d i o (model f)), f')
        end
    end.

(** [_estimate_cost] *)
Definition estimate_cost (model : string) (input_tokens output_tokens : Z) : float :=
  let '(input_cost, output_cost) :=
    if contains "haiku" (lower model) then
      (fmul (int_truediv input_tokens 1000000) (float_of 1 (-2)),
       fmul (int_truediv output_tokens 1000000) (float_of 5 (-2)))
    else
      (fmul (int_truediv input_tokens 1000000) (float_of_int 3),
       fmul (int_truediv output_tokens 1000000) (float_of_int 15)) in
  round (fadd input_cost output_cost) 6.

Definition _estimate_cost (f : t) (input_tokens output_tokens : Z) : float :=
  estimate_cost (model f) input_tokens output_tokens.

(** [get_total_cost] *)
Definition get_total_cost (f : t) : float :=
  _estimate_cost f (total_input_tokens f) (total_output_tokens f).

(** The instance after a sequence of calls, whatever each one returned. *)
Definition run_calls (f : t) (calls : list create_outcome) : t :=
  foldl (λ f api, snd (_call_claude f api)) f calls.

(** The usage one call adds to the totals. *)
Definition tracked (f : t) (api : create_outcome) : Z * Z :=
  match api with
  | Message i o _ => if has_key f then (i, o) else (0, 0)
  | CreateRaises _ => (0, 0)
  end.

Definition sum_input (f : t) (calls : list create_outcome) : Z :=
  foldr (λ api acc, fst (tracked f api) + acc) 0 calls.

Definition sum_output (f : t) (calls : list create_outcome) : Z :=
  foldr (λ api acc, snd (tracked f api) + acc) 0 calls.

(** The cost [_estimate_cost] reports for one call, as the public methods
    put it under ["cost_usd"]. *)
Definition call_cost (f : t) (api : create_outcome) : float :=
  _estimate_cost f (fst (tracked f api)) (snd (tracked f api)).

End AILeadFinder.

(** ** [app/scrapers/base.py]: the rate limiter *)

Module RateLimiter.

(** A moment of a run: what [time.time()] returns then, and the time on
    a monotonic clock, which the code never reads (it is there for the
    statements only). Seconds are rationals: the arithmetic of the
    limiter, a division and two subtractions of floats, is taken as
    exact. *)
Record instant := Instant { wall : Q; mono : Q }.

(** The call that holds the lock. It holds it across one [await] only,
    that of [asyncio.sleep]: its task, the seconds it asked for, and the
    moment it read the clock. *)
Record sleeper := Sleeper { task : nat; asked : Q; since : instant }.

(** [RateLimiter]; [_lock] is the call that holds the lock, if one does. *)
Record t := Limiter {
  requests_per_minute : Z;
  interval : Q;
  last_request_time : Q;
  _lock : option sleeper;
}.

(** [RateLimiter(requests_per_minute)] *)
Definition new (requests_per_minute : Z) : result t :=
  if requests_per_minute =? 0
  then Raise (Exn OtherException "float division by zero")
  else Ok (Limiter requests_per_minute (60 / inject_Z requests_per_minute) 0 None).

(** The seconds [acquire] sleeps for when it reads the clock at [now],
    if it sleeps. *)
Definition time_to_wait (l : t) (now : instant) : option Q :=
  let time_since_last := (wall now - last_request_time l)%Q in
  if Qlt_le_dec time_since_last (interval l)
  then Some (interval l - time_since_last)%Q
  else None.

(** What the event loop runs next: a task that is at
    [async with self._lock], the end of the sleep of a task, or the
    cancellation of a task. *)
Inductive event :=
| Call (task : nat)
| Wake (task : nat)
| Cancel (task : nat).

(** A run of the callers of one limiter: the limiter, the number of
    clock readings made, and (for the statements only) the calls that have
    returned, with the moment [last_request_time] was set, and the sleeps
    that have ended, each with the seconds asked for, its start and its
    end. *)
Record run_state := Run {
  limiter : t;
  reads : nat;
  grants : list (nat * instant);
  sleeps : list (Q * instant * instant);
}.

Definition set_lock (l : t) (holder : option sleeper) : t :=
  Limiter (requests_per_minute l) (interval l) (last_request_time l) holder.

(** [self.last_request_time = time.time()], and the lock is released. *)
Definition grant (l : t) (now : instant) : t :=
  Limiter (requests_per_minute l) (interval l) (wall now) None.

(** [acquire] run by [task] from [async with self._lock], the lock being
    free, up to its [await], or to its end when it need not sleep.
    [clock n] is the moment of the clock reading number [n]. *)
Definition acquire_enter (clock : nat → instant) (task : nat) (st : run_state)
  : run_state :=
  let l := limiter st in
  let now := clock (reads st) in
  match time_to_wait l now with
  | Some seconds =>
      Run (set_lock l (Some (Sleeper task seconds now))) (S (reads st))
          (grants st) (sleeps st)
  | None =>
      let later := clock (S (reads st)) in
      Run (grant l later) (S (S (reads st))) (grants st ++ [(task, later)]) (sleeps st)
  end.

(** [acquire] from the end of its sleep on. *)
Definition acquire_resume (clock : nat → instant) (holder : sleeper) (st : run_state)
  : run_state :=
  let now := clock (reads st) in
  Run (grant (limiter st) now) (S (reads st)) (grants st ++ [(task holder, now)])
      (sleeps st ++ [(asked holder, since holder, now)]).

(** [acquire] cancelled in its sleep: [async with] releases the lock and
    [last_request_time] stays as it was. *)
Definition acquire_cancelled (st : run_state) : run_state :=
  Run (set_lock (limiter st) None) (reads st) (grants st) (sleeps st).

(** One step of the event loop. A task that finds the lock taken waits
    for it, and nothing changes when a waiting task is cancelled. Which of
    the waiting tasks gets the lock next is left to the schedule. *)
Definition step (clock : nat → instant) (st : run_state) (ev : event) : run_state :=
  match ev, _lock (limiter st) with
  | Call task, None => acquire_enter clock task st
  | Wake task, Some holder =>
      if Nat.eqb task (RateLimiter.task holder) then acquire_resume clock holder st else st
  | Cancel task, Some holder =>
      if Nat.eqb task (RateLimiter.task holder) then acquire_cancelled st else st
  | _, _ => st
  end.

Definition run (clock : nat → instant) (schedule : list event) (st : run_state)
  : run_state :=
  foldl (step clock) st schedule.

(** A limiter that has just been built, before any call. *)
Definition start (l : t) : run_state := Run l 0 [] [].








End RateLimiter.

(** ** [app/scrapers/base.py]: results, session statistics, the request wrapper *)

Module Scraper.

(** [ScraperResult] *)
Record ScraperResult := Result {
  success : bool;
  data : option (gmap string value);
  error : option string;
  source_url : option string;
  raw_response : option (gmap string value);
  duration_ms : Z;
}.

(** [ScraperStats]; the two datetimes are kept as timestamps. *)
Record ScraperStats := Stats {
  total_requests : Z;
  successful_requests : Z;
  failed_requests : Z;
  total_items_found : Z;
  start_time : option Z;
  end_time : option Z;
  errors : list string;
}.

(** [ScraperStats()] *)
Definition new_stats : ScraperStats := Stats 0 0 0 0 None None [].

(** [success_rate] *)
Definition success_rate (s : ScraperStats) : float :=
  if total_requests s =? 0 then fzero
  else SFdiv prec emax (float_of_int (successful_requests s))
                       (float_of_int (total_requests s)).

(** An [httpx.Response], as far as the wrapper is concerned. *)
Record response := Response { status_code : Z; text : string }.

(** What [await self.rate_limiter.acquire()] can raise. It awaits the
    lock and [asyncio.sleep] and sends nothing: either the task is
    cancelled while it waits (or the interpreter is interrupted), which is
    outside [Exception], or the lock refuses the running event loop with a
    [RuntimeError]. Neither is an [httpx.HTTPError] or an
    [asyncio.TimeoutError]. *)
Inductive acquire_error :=
| AcquireInterrupted (msg : string)   (* asyncio.CancelledError, KeyboardInterrupt *)
| LockError (msg : string).           (* RuntimeError *)

Definition exn_of_acquire (a : acquire_error) : exn :=
  match a with
  | AcquireInterrupted msg => Exn BaseOnly msg
  | LockError msg => Exn OtherException msg
  end.

(** What one attempt comes to: [acquire] raised before the request was
    counted; or the limiter let the attempt through and the [try] block
    gave a response ([self.client.request] and [raise_for_status]
    returned), or one of them (or the [client] property) raised. *)
Inductive request_outcome :=
| AcquireRaises (a : acquire_error)
| Responded (r : response)
| RequestRaises (e : exn).

(** The body of [_make_request], one attempt. An exception of
    [rate_limiter.acquire()] leaves the body before [total_requests] is
    incremented and outside the [try]; otherwise [acquire] only delays the
    caller. *)
Definition make_request_once (out : request_outcome) (s : ScraperStats)
  : result response * ScraperStats :=
  match out with
  | AcquireRaises a => (Raise (exn_of_acquire a), s)
  | Responded r =>
      (Ok r, Stats (total_requests s + 1) (successful_requests s + 1) (failed_requests s)
                   (total_items_found s) (start_time s) (end_time s) (errors s))
  | RequestRaises e =>
      if is_Exception e then
        (Raise e, Stats (total_requests s + 1) (successful_requests s)
                        (failed_requests s + 1)
                        (total_items_found s) (start_time s) (end_time s)
                        (errors s ++ [str_of_exn e]))
      else
        (Raise e, Stats (total_requests s + 1) (successful_requests s)
                        (failed_requests s)
                        (total_items_found s) (start_time s) (end_time s) (errors s))
  end.

(** [retry_if_exception_type((httpx.HTTPError, asyncio.TimeoutError))] *)
Definition retryable (e : exn) : bool :=
  match exn_cls e with
  | HTTPError | AsyncTimeoutError => true
  | _ => false
  end.

(** [stop_after_attempt(3)] *)
Definition max_attempt_number : nat := 3.

(** [wait_exponential(multiplier=1, min=2, max=30)]: the seconds slept
    after the attempt with this number. *)
Definition wait_exponential (attempt_number : nat) : Z :=
  Z.max (Z.max 0 2) (Z.min (1 * 2 ^ (Z.of_nat attempt_number - 1)) 30).

(** What a decorated call did: its outcome, the statistics, the number
    of attempts made and the waits between them. *)
Record call_trace := Trace {
  outcome : result response;
  stats_after : ScraperStats;
  attempts_made : nat;
  waits : list Z;
}.

(** The retry loop of the decorator around the body: [left] more
    attempts are allowed after the one numbered [attempt_number]. An
    exception the predicate rejects is re-raised as it is; after the last
    allowed attempt the decorator raises its own [RetryError]. *)
Fixpoint retrying (left attempt_number : nat) (outs : nat → request_outcome)
    (s : ScraperStats) (slept : list Z) : call_trace :=
  let '(r, s') := make_request_once (outs attempt_number) s in
  match r with
  | Ok resp => Trace (Ok resp) s' attempt_number slept
  | Raise e =>
      if retryable e then
        match left with
        | O => Trace (Raise (Exn RetryError "RetryError")) s' attempt_number slept
        | S left' =>
            retrying left' (S attempt_number) outs s'
                     (slept ++ [wait_exponential attempt_number])
        end
      else Trace (Raise e) s' attempt_number slept
  end.

(** [_make_request] as callers see it, decorator included; [outs n] is
    what attempt number [n] (from 1) comes to. *)
Definition _make_request (outs : nat → request_outcome) (s : ScraperStats) : call_trace :=
  retrying (max_attempt_number - 1) 1 outs s [].

(** The relation the counters of a session keep. *)
Definition stats_consistent (s : ScraperStats) : Prop :=
  total_requests s = successful_requests s + failed_requests s ∧
  Z.of_nat (length (errors s)) = failed_requests s.

(** An attempt cut short while its request is in flight: the [try]
    block raised outside [Exception] (the task is cancelled), so that the
    handler did not run. *)
Definition interrupted (out : request_outcome) : bool :=
  match out with
  | RequestRaises e => negb (is_Exception e)
  | _ => false
  end.

(** The attempt got as far as [self.stats.total_requests += 1]. *)
Definition counted (out : request_outcome) : bool :=
  match out with
  | AcquireRaises _ => false
  | _ => true
  end.


(** A transport error the decorator retries on. *)
Definition transient (out : request_outcome) : Prop :=
  match out with
  | RequestRaises e => retryable e = true
  | _ => False
  end.

Definition failure_message (out : request_outcome) : string :=
  match out with
  | RequestRaises e => str_of_exn e
  | _ => ""
  end.

(** Outcomes by attempt number, from a list. *)
Definition script (outs : list request_outcome) (n : nat) : request_outcome :=
  default (RequestRaises (Exn AsyncTimeoutError "timeout")) (outs !! (n - 1)%nat).

End Scraper.

(** ** [app/scrapers/ai_ark.py]: the results of a search *)

Module AIArk.
Import Scraper.

(** One entry of the response: the raw record, and what
    [self.parse_result(lead_data)] followed by [lead.to_dict()] gives. *)
Record raw_lead := RawLead {
  raw : gmap string value;
  linkedin_url : option string;
  parsed : exn + gmap string value;
}.

(** What the POST of [scrape] and the reading of its body come to. *)
Inductive search_outcome :=
| PostRaises (e : exn)
    (* [self.post], [response.json()] or the reading of the list raised *)
| PostLeads (leads : list raw_lead).

(** The loop over the leads: a lead that does not parse is logged and
    skipped. The loop gives the results appended so far and the exception
    that left it, if one did. *)
Fixpoint collect (leads : list raw_lead) (results : list ScraperResult)
  : list ScraperResult * option exn :=
  match leads with
  | [] => (results, None)
  | l :: rest =>
      match parsed l with
      | inr d =>
          collect rest (results ++ [Result true (Some d) None (linkedin_url l)
                                           (Some (raw l)) 0])
      | inl e => if is_Exception e then collect rest results else (results, Some e)
      end
  end.

Definition key_present (api_key : option string) : bool :=
  match api_key with
  | Some k => negb (String.eqb k "")
  | None => false
  end.

(** [scrape]: the outer handler turns an exception of the search into one
    unsuccessful result appended to [results]. *)
Definition scrape (api_key : option string) (search : search_outcome)
  : result (list ScraperResult) :=
  if negb (key_present api_key) then Raise (ValueError "AI Ark API key is required")
  else
    let '(results, escaped) :=
      match search with
      | PostRaises e => ([], Some e)
      | PostLeads leads => collect leads []
      end in
    match escaped with
    | None => Ok results
    | Some e =>
        if is_Exception e
        then Ok (results ++ [Result false None (Some (str_of_exn e)) None None 0])
        else Raise e
    end.

(** [enrich_company] *)
Definition enrich_company (api_key : option string) (domain company_name : value)
    (leads_count : Z) (search : search_outcome) : result (list ScraperResult) :=
  if (negb (truthy domain) && negb (truthy company_name))%bool
  then Raise (ValueError "Either domain or company_name is required")
  else scrape api_key search.

End AIArk.

(** ** [EnrichmentPipeline]: the waterfall *)

Module Pipeline.
Import Scraper.

(** A record: a Python dictionary with string keys. *)
Abbreviation dict := (gmap string value).

(** Dictionaries that are passed around and written to are objects in a
    store; a [loc] is the identity of one. *)
Abbreviation loc := positive.

(** [self.stats] *)
Record PipelineStats := PStats {
  total_enriched : Z;
  ai_ark_hits : Z;
  linkedin_hits : Z;
  ai_finder_hits : Z;
  failed : Z;
  total_cost : float;
}.

(** [EnrichmentPipeline().stats] *)
Definition initial_stats : PipelineStats := PStats 0 0 0 0 0 fzero.

Inductive source_id := AI_ARK | LINKEDIN | AI_FINDER.

(** What a call of [enrich_lead] can read and change: the store, the
    counters of the pipeline, and (for the statements only) the log of the
    sources invoked so far, oldest first. *)
Record world := World {
  heap : gmap loc dict;
  stats : PipelineStats;
  calls : list source_id;
}.

(** The argument of [dict.update]: a mapping, or a value [update] rejects
    with a [TypeError] or [ValueError], after it has inserted the pairs it
    could read ([None] and numbers insert nothing). *)
Inductive payload :=
| PDict (d : dict)
| PInvalid (is_truthy : bool) (merged : dict).

Definition payload_truthy (p : payload) : bool :=
  match p with
  | PDict d => negb (bool_decide (d = ∅))
  | PInvalid b _ => b
  end.

(** [ScraperResult.data] as an argument of [update] *)
Definition payload_of (data : option dict) : payload :=
  match data with
  | Some d => PDict d
  | None => PInvalid false ∅
  end.

(** The dictionary [AILeadFinder.enrich_lead] returns, as far as the
    waterfall reads it. *)
Record ai_enrichment := AIEnrichment {
  enriched_data : payload;
  alternate_emails : value;
  alternate_companies : value;
  summary : value;
  cost_usd : float;
}.

(** What the sources answer for one record. *)
Record ark_env := ArkEnv {
  ark_open : option exn;       (* [AIArkScraper()] or [__aenter__] raised *)
  ark_api_key : option string;
  ark_search : AIArk.search_outcome;
  ark_close : option exn;      (* [__aexit__] raised *)
}.

Record linkedin_env := LinkedInEnv {
  li_open : option exn;
  li_profile : result (option ScraperResult);  (* [scrape_profile(url)] *)
  li_close : option exn;
}.

Record oracle := Oracle {
  ark : ark_env;
  linkedin : linkedin_env;
  ai : result ai_enrichment;                   (* [ai_finder.enrich_lead(...)] *)
}.

(** *** The monad of the body: state and exceptions

    The state of a running call is the world and the two local variables
    that the [try] blocks assign. *)
Record frame := Frame {
  fworld : world;
  source : option string;
  cost : float;
}.

Definition M (A : Type) : Type := frame → result A * frame.

#[global] Instance M_ret : MRet M := λ A a s, (Ok a, s).
#[global] Instance M_bind : MBind M := λ A B k m s,
  match m s with
  | (Ok a, s') => k a s'
  | (Raise e, s') => (Raise e, s')
  end.

Definition raise {A} (e : exn) : M A := λ s, (Raise e, s).

Definition lift {A} (r : result A) : M A := λ s, (r, s).

Definition get_world : M world := λ s, (Ok (fworld s), s).

Definition set_world (w : world) : M unit :=
  λ s, (Ok tt, Frame w (source s) (cost s)).

Definition get_source : M (option string) := λ s, (Ok (source s), s).

Definition set_source (name : string) : M unit :=
  λ s, (Ok tt, Frame (fworld s) (Some name) (cost s)).

Definition get_cost : M float := λ s, (Ok (cost s), s).

Definition set_cost (c : float) : M unit :=
  λ s, (Ok tt, Frame (fworld s) (source s) c).

(** [try: body except Exception as e: logger.warning(...)] *)
Definition try_except (body : M unit) : M unit := λ s,
  match body s with
  | (Raise e, s') => if is_Exception e then (Ok tt, s') else (Raise e, s')
  | r => r
  end.

(** [async with Scraper() as scraper: body], for a context manager whose
    [__aexit__] returns [None]. *)
Definition async_with {A} (open close : option exn) (body : M A) : M A :=
  match open with
  | Some e => raise e
  | None => λ s,
      let '(r, s') := body s in
      match close with
      | Some e' => (Raise e', s')
      | None => (r, s')
      end
  end.

Definition when (b : bool) (body : M unit) : M unit :=
  if b then body else mret tt.

(** *** Dictionaries in the store *)

Definition set_heap (w : world) (h : gmap loc dict) : world :=
  World h (stats w) (calls w).

Definition set_stats (w : world) (st : PipelineStats) : world :=
  World (heap w) st (calls w).

(** [d.copy()]: a new object with the same items. *)
Definition dict_copy (l : loc) : M loc :=
  w ← get_world;
  match heap w !! l with
  | None => raise (AttributeError "object has no attribute 'copy'")
  | Some d =>
      let l' := fresh (dom (heap w)) in
      set_world (set_heap w (<[l' := d]> (heap w)));; mret l'
  end.

(** [d.get(key)] *)
Definition dict_get (l : loc) (key : string) : M value :=
  w ← get_world;
  match heap w !! l with
  | None => raise (AttributeError "object has no attribute 'get'")
  | Some d => mret (default VNone (d !! key))
  end.

Definition write (l : loc) (f : dict → dict) : M unit :=
  w ← get_world; set_world (set_heap w (alter f l (heap w))).

(** [d[key] = v] *)
Definition dict_setitem (l : loc) (key : string) (v : value) : M unit :=
  write l (insert key v).

(** [d.update(p)]: the items of [p] replace those of [d]. *)
Definition dict_update (l : loc) (p : payload) : M unit :=
  match p with
  | PDict d => write l (λ old, d ∪ old)
  | PInvalid _ merged =>
      write l (λ old, merged ∪ old);;
      raise (TypeError "dictionary update sequence is not a mapping")
  end.

Definition update_stats (f : PipelineStats → PipelineStats) : M unit :=
  w ← get_world; set_world (set_stats w (f (stats w))).

Definition incr_total_enriched (s : PipelineStats) : PipelineStats :=
  PStats (total_enriched s + 1) (ai_ark_hits s) (linkedin_hits s) (ai_finder_hits s)
         (failed s) (total_cost s).

Definition incr_ai_ark_hits (s : PipelineStats) : PipelineStats :=
  PStats (total_enriched s) (ai_ark_hits s + 1) (linkedin_hits s) (ai_finder_hits s)
         (failed s) (total_cost s).

Definition incr_linkedin_hits (s : PipelineStats) : PipelineStats :=
  PStats (total_enriched s) (ai_ark_hits s) (linkedin_hits s + 1) (ai_finder_hits s)
         (failed s) (total_cost s).

Definition incr_ai_finder_hits (s : PipelineStats) : PipelineStats :=
  PStats (total_enriched s) (ai_ark_hits s) (linkedin_hits s) (ai_finder_hits s + 1)
         (failed s) (total_cost s).

Definition incr_failed (s : PipelineStats) : PipelineStats :=
  PStats (total_enriched s) (ai_ark_hits s) (linkedin_hits s) (ai_finder_hits s)
         (failed s + 1) (total_cost s).

Definition add_total_cost (c : float) (s : PipelineStats) : PipelineStats :=
  PStats (total_enriched s) (ai_ark_hits s) (linkedin_hits s) (ai_finder_hits s)
         (failed s) (fadd (total_cost s) c).

(** The source is constructed and called. *)
Definition invoke (src : source_id) : M unit :=
  w ← get_world; set_world (World (heap w) (stats w) (calls w ++ [src])).

(** *** [enrich_lead] *)

Definition source_unset : M bool :=
  s ← get_source; mret (bool_decide (s = None)).

(** Step 1: try AI Ark. *)
Definition try_ai_ark (use_ai_ark : bool) (enriched : loc)
    (company_name company_domain : value) (a : ark_env) : M unit :=
  when (use_ai_ark && truthy (py_or company_name company_domain)) (
    try_except (
      invoke AI_ARK;;
      async_with (ark_open a) (ark_close a) (
        results ← lift (AIArk.enrich_company (ark_api_key a) company_domain
                                             company_name 1 (ark_search a));
        match results with
        | r :: _ =>
            when (success r) (
              dict_update enriched (payload_of (data r));;
              set_source "ai_ark";;
              update_stats incr_ai_ark_hits)
        | [] => mret tt
        end))).

(** Step 2: try LinkedIn, when the record has a profile URL. *)
Definition try_linkedin (use_linkedin : bool) (lead_data enriched : loc)
    (li : linkedin_env) : M unit :=
  unset ← source_unset;
  when (unset && use_linkedin) (
    try_except (
      linkedin_url ← dict_get lead_data "linkedin_url";
      when (truthy linkedin_url) (
        invoke LINKEDIN;;
        async_with (li_open li) (li_close li) (
          result ← lift (li_profile li);
          match result with
          | Some r =>
              when (success r) (
                dict_update enriched (payload_of (data r));;
                set_source "linkedin";;
                update_stats incr_linkedin_hits)
          | None => mret tt
          end)))).

(** Step 3: the AI finder as last resort. *)
Definition try_ai_finder (use_ai_finder : bool) (enriched : loc)
    (answer : result ai_enrichment) : M unit :=
  unset ← source_unset;
  when (unset && use_ai_finder) (
    try_except (
      invoke AI_FINDER;;
      result ← lift answer;
      when (payload_truthy (enriched_data result)) (
        dict_update enriched (enriched_data result);;
        dict_setitem enriched "alternate_emails" (alternate_emails result);;
        dict_setitem enriched "alternate_companies" (alternate_companies result);;
        dict_setitem enriched "ai_reasoning" (summary result);;
        set_source "ai_enriched";;
        set_cost (cost_usd result);;
        update_stats incr_ai_finder_hits;;
        update_stats (add_total_cost (cost_usd result))))).

(** The results are tracked. *)
Definition track_results (enriched : loc) : M unit :=
  s ← get_source;
  match s with
  | Some name =>
      update_stats incr_total_enriched;;
      dict_setitem enriched "enrichment_source" (VStr name);;
      c ← get_cost;
      dict_setitem enriched "enrichment_cost" (VFloat c)
  | None =>
      update_stats incr_failed;;
      dict_setitem enriched "enrichment_source" VNone
  end.

(** The body of [enrich_lead]. *)
Definition enrich_lead_body (lead_data : loc)
    (use_ai_ark use_linkedin use_ai_finder : bool) (o : oracle) : M loc :=
  enriched ← dict_copy lead_data;
  company_name ← dict_get lead_data "company_name";
  company_domain ← dict_get lead_data "company_domain";
  try_ai_ark use_ai_ark enriched company_name company_domain (ark o);;
  try_linkedin use_linkedin lead_data enriched (linkedin o);;
  try_ai_finder use_ai_finder enriched (ai o);;
  track_results enriched;;
  mret enriched.

(** [enrich_lead]: [source = None] and [cost = 0.0] at entry; the result
    is the new dictionary. *)
Definition enrich_lead (lead_data : loc)
    (use_ai_ark use_linkedin use_ai_finder : bool) (o : oracle) (w : world)
  : result loc * world :=
  let '(r, s) := enrich_lead_body lead_data use_ai_ark use_linkedin use_ai_finder o
                                  (Frame w None fzero) in
  (r, fworld s).

End Pipeline.

(** ** [enrich_leads_batch]: the orchestrations under the semaphore *)

Module Batch.
Import Pipeline.

(** A job: the record to enrich and what the sources answer for it. *)
Abbreviation job := (loc * oracle)%type.

(** The task [enrich_with_semaphore(lead)] of one record. *)
Inductive task :=
| Waiting          (* created; not yet past [async with semaphore] *)
| Running          (* holds a permit; inside [self.enrich_lead(lead)] *)
| Done (l : loc)   (* returned this dictionary; permit released *)
| Failed (e : exn).  (* raised; permit released *)

(** The event loop's view of one batch: the value of the semaphore, the
    tasks in the order of [leads], the shared pipeline state, and the first
    exception a task raised. [asyncio.gather] without [return_exceptions]
    hands that exception to its caller at once and does not cancel the
    other tasks. *)
Record pool := Pool {
  permits : Z;
  tasks : list task;
  pworld : world;
  raised : option exn;
}.

(** [asyncio.Semaphore(concurrency)] and the list of tasks. *)
Definition start (jobs : list job) (concurrency : Z) (w : world) : result pool :=
  if concurrency <? 0
  then Raise (ValueError "Semaphore initial value must be >= 0")
  else Ok (Pool concurrency (replicate (length jobs) Waiting) w None).


(** The event loop advances task [i]: it takes a permit, or it runs its
    orchestration to the end and gives the permit back. The orchestration
    is one step: what the orchestrations share are the counters, which they
    only increment, and each one returns an object of its own. *)
Definition advance (jobs : list job) (i : nat) (p : pool) : pool :=
  match tasks p !! i, jobs !! i with
  | Some Waiting, _ =>
      if 0 <? permits p
      then Pool (permits p - 1) (<[i := Running]> (tasks p)) (pworld p) (raised p)
      else p
  | Some Running, Some (lead, o) =>
      let '(r, w') := enrich_lead lead true true true o (pworld p) in
      match r with
      | Ok l => Pool (permits p + 1) (<[i := Done l]> (tasks p)) w' (raised p)
      | Raise e =>
          Pool (permits p + 1) (<[i := Failed e]> (tasks p)) w'
               (match raised p with Some e0 => Some e0 | None => Some e end)
      end
  | _, _ => p
  end.

(** A schedule: the tasks the event loop advances, in order. *)
Definition run (jobs : list job) (schedule : list nat) (p : pool) : pool :=
  foldl (λ p i, advance jobs i p) p schedule.

Definition returned (t : task) : option loc :=
  match t with Done l => Some l | _ => None end.

(** The results of the tasks in the order of the tasks, once all have
    returned. *)
Definition results (ts : list task) : option (list loc) :=
  mapM returned ts.

(** What awaiting [asyncio.gather] of the tasks has given the caller so far:
    nothing yet, the first exception, or the list of all results. *)
Definition gathered (p : pool) : option (result (list loc)) :=
  match raised p with
  | Some e => Some (Raise e)
  | None => Ok <$> results (tasks p)
  end.

(** [enrich_leads_batch] under a schedule of the event loop: what the
    caller has received when the schedule is through, and the pipeline
    state. [None]: the call has not returned. *)
Definition enrich_leads_batch (jobs : list job) (concurrency : Z)
    (schedule : list nat) (w : world) : option (result (list loc)) * world :=
  match start jobs concurrency w with
  | Raise e => (Some (Raise e), w)
  | Ok p => let p' := run jobs schedule p in (gathered p', pworld p')
  end.

(** The work left: two steps for a waiting task, one for a running one. *)
Definition weight (t : task) : nat :=
  match t with Waiting => 2 | Running => 1 | _ => 0 end.

Definition total (w : task → nat) (ts : list task) : nat :=
  foldr (λ t n, (w t + n)%nat) 0%nat ts.

Definition remaining (ts : list task) : nat := total weight ts.




End Batch.

(** ** The waterfall as the design states it

    Sources in a fixed priority order; a source is called only if it is
    enabled and its hint is present; the first source whose answer is a
    success wins and no further source is called; a call that raises is a
    miss. These definitions follow that wording, not the code; the code is
    compared with them below. *)

Module Waterfall.
Import Scraper Pipeline.

(** The verdict on one source call: a success with its payload, or a
    miss. A miss can leave behind the pairs a rejected payload had merged
    before [update] raised. *)
Inductive verdict :=
| Win (p : dict)
| Miss (residue : dict).

Definition scraper_verdict (r : ScraperResult) : verdict :=
  if success r then
    match data r with
    | Some p => Win p
    | None => Miss ∅
    end
  else Miss ∅.

Definition ark_verdict (company_name company_domain : value) (a : ark_env) : verdict :=
  match ark_open a with
  | Some _ => Miss ∅
  | None =>
      match AIArk.enrich_company (ark_api_key a) company_domain company_name 1
                                 (ark_search a) with
      | Ok (r :: _) => scraper_verdict r
      | _ => Miss ∅
      end
  end.

Definition linkedin_verdict (li : linkedin_env) : verdict :=
  match li_open li with
  | Some _ => Miss ∅
  | None =>
      match li_profile li with
      | Ok (Some r) => scraper_verdict r
      | _ => Miss ∅
      end
  end.

Definition ai_verdict (answer : result ai_enrichment) : verdict :=
  match answer with
  | Ok res =>
      if payload_truthy (enriched_data res) then
        match enriched_data res with
        | PDict p => Win p
        | PInvalid _ merged => Miss merged
        end
      else Miss ∅
  | Raise _ => Miss ∅
  end.

(** One place in the priority order. *)
Record stage := Stage {
  stage_source : source_id;
  stage_eligible : bool;     (* enabled for this run, and its hint present *)
  stage_verdict : verdict;
}.

Definition field (d : dict) (key : string) : value := default VNone (d !! key).

(** The priority order for one record. *)
Definition stages (d : dict) (use_ai_ark use_linkedin use_ai_finder : bool)
    (o : oracle) : list stage :=
  [ Stage AI_ARK
          (use_ai_ark && truthy (py_or (field d "company_name") (field d "company_domain")))
          (ark_verdict (field d "company_name") (field d "company_domain") (ark o));
    Stage LINKEDIN
          (use_linkedin && truthy (field d "linkedin_url"))
          (linkedin_verdict (linkedin o));
    Stage AI_FINDER use_ai_finder (ai_verdict (ai o)) ].

(** The sources called: every eligible one, up to the first win. *)
Fixpoint plan (ss : list stage) : list source_id :=
  match ss with
  | [] => []
  | s :: rest =>
      if stage_eligible s then
        stage_source s :: match stage_verdict s with
                          | Win _ => []
                          | Miss _ => plan rest
                          end
      else plan rest
  end.

(** The winner, and the record with what the calls merged into it. *)
Fixpoint settle (ss : list stage) (x : dict) : option source_id * dict :=
  match ss with
  | [] => (None, x)
  | s :: rest =>
      if stage_eligible s then
        match stage_verdict s with
        | Win p => (Some (stage_source s), p ∪ x)
        | Miss residue => settle rest (residue ∪ x)
        end
      else settle rest x
  end.

Definition source_name (s : source_id) : string :=
  match s with
  | AI_ARK => "ai_ark"
  | LINKEDIN => "linkedin"
  | AI_FINDER => "ai_enriched"
  end.

(** What a win of the AI finder adds to the record, and its cost. *)
Definition extras (o : oracle) (s : source_id) (x : dict) : dict * float :=
  match s, ai o with
  | AI_FINDER, Ok res =>
      (<["ai_reasoning" := summary res]>
         (<["alternate_companies" := alternate_companies res]>
            (<["alternate_emails" := alternate_emails res]> x)),
       cost_usd res)
  | _, _ => (x, fzero)
  end.

(** The enrichment outcome for record [d]. *)
Definition outcome (d : dict) (use_ai_ark use_linkedin use_ai_finder : bool)
    (o : oracle) : dict :=
  match settle (stages d use_ai_ark use_linkedin use_ai_finder o) d with
  | (Some s, x) =>
      let '(x', c) := extras o s x in
      <["enrichment_cost" := VFloat c]> (<["enrichment_source" := VStr (source_name s)]> x')
  | (None, x) => <["enrichment_source" := VNone]> x
  end.

(** The counters after the record. *)
Definition count (d : dict) (use_ai_ark use_linkedin use_ai_finder : bool)
    (o : oracle) (st : PipelineStats) : PipelineStats :=
  match fst (settle (stages d use_ai_ark use_linkedin use_ai_finder o) d) with
  | Some AI_ARK => incr_total_enriched (incr_ai_ark_hits st)
  | Some LINKEDIN => incr_total_enriched (incr_linkedin_hits st)
  | Some AI_FINDER =>
      incr_total_enriched
        (add_total_cost (snd (extras o AI_FINDER ∅)) (incr_ai_finder_hits st))
  | None => incr_failed st
  end.

(** What a miss left in the record. *)
Definition residue_of (v : verdict) : dict :=
  match v with
  | Miss residue => residue
  | Win _ => ∅
  end.

(** Every eligible source misses. *)
Definition all_miss (ss : list stage) : Prop :=
  Forall (λ s, stage_eligible s = true → ∃ residue, stage_verdict s = Miss residue) ss.

(** *** Exceptions an [except Exception] clause catches

    A source is calm when nothing it raises is outside [Exception]: no
    cancellation, no interpreter exit. *)
Definition catchable (raised : option exn) : bool :=
  match raised with
  | Some e => is_Exception e
  | None => true
  end.

Definition calm_search (s : AIArk.search_outcome) : bool :=
  match s with
  | AIArk.PostRaises e => is_Exception e
  | AIArk.PostLeads leads =>
      forallb (λ l, match AIArk.parsed l with
                    | inl e => is_Exception e
                    | inr _ => true
                    end) leads
  end.

Definition calm_ark (a : ark_env) : bool :=
  catchable (ark_open a) && calm_search (ark_search a) && catchable (ark_close a).

Definition calm_linkedin (li : linkedin_env) : bool :=
  catchable (li_open li) &&
  match li_profile li with Raise e => is_Exception e | Ok _ => true end &&
  catchable (li_close li).

Definition calm_ai (answer : result ai_enrichment) : bool :=
  match answer with Raise e => is_Exception e | Ok _ => true end.

Definition calm_source (o : oracle) (s : source_id) : bool :=
  match s with
  | AI_ARK => calm_ark (ark o)
  | LINKEDIN => calm_linkedin (linkedin o)
  | AI_FINDER => calm_ai (ai o)
  end.

Definition calm (o : oracle) : bool :=
  calm_ark (ark o) && calm_linkedin (linkedin o) && calm_ai (ai o).





(** *** The running call, seen from the design

    While [enrich_lead] runs, the store is the caller's store [h] plus the
    copy [e], whose content is [x]. *)
Definition running (h : gmap loc dict) (e : loc) (x : dict) (st : PipelineStats)
    (cs : list source_id) (src : option string) (c : float) : frame :=
  Frame (World (<[e := x]> h) st cs) src c.

(** The running call after source [s] was called, by its verdict. *)
Definition after (h : gmap loc dict) (e : loc) (v : verdict) (s : source_id)
    (hit : PipelineStats → PipelineStats) (x : dict) (st : PipelineStats)
    (cs : list source_id) (c : float) : frame :=
  match v with
  | Win p => running h e (p ∪ x) (hit st) (cs ++ [s]) (Some (source_name s)) c
  | Miss residue => running h e (residue ∪ x) st (cs ++ [s]) None c
  end.

(** A computation of the body keeps the caller's store [h0]: every
    object of [h0] is in the store afterwards, with the content it had. *)
Definition keeps (h0 : gmap loc dict) {A} (m : M A) : Prop :=
  ∀ s, h0 ⊆ heap (fworld s) → h0 ⊆ heap (fworld (snd (m s))).


(** A cost of zero under ["enrichment_cost"]. *)
Definition zero_cost (v : option value) : Prop :=
  v = Some (VFloat fzero) ∨ v = Some (VInt 0).

(** A result as an adapter builds it on success: with its payload. *)
Definition built (r : ScraperResult) : Prop := success r = true ∧ is_Some (data r).

End Waterfall.

(** ** The batch as the event loop runs it: what stays true *)

Module BatchInv.
Import Pipeline Waterfall Batch.

Definition holds_permit (t : task) : nat :=
  match t with Running => 1 | _ => 0 end.

(** The tasks inside [async with semaphore]. *)
Definition running_tasks (ts : list task) : nat := total holds_permit ts.

(** Every record of the batch is a dictionary of the caller's store, and
    no source raises outside [Exception]. *)
Definition well_posed (h0 : gmap loc dict) (jobs : list job) : Prop :=
  Forall (λ j : job, is_Some (h0 !! j.1) ∧ calm j.2 = true) jobs.

(** The state of task [i] is in order: it has not raised, and if it has
    returned, it returned the outcome of its own record. *)
Definition task_ok (h0 : gmap loc dict) (jobs : list job) (p : pool)
    (i : nat) (t : task) : Prop :=
  match t with
  | Failed _ => False
  | Done l =>
      ∃ lead o d, jobs !! i = Some (lead, o) ∧ h0 !! lead = Some d ∧
                  heap (pworld p) !! l = Some (outcome d true true true o)
  | _ => True
  end.

Definition pool_ok (h0 : gmap loc dict) (jobs : list job) (c : Z) (p : pool) : Prop :=
  length (tasks p) = length jobs ∧
  permits p + Z.of_nat (running_tasks (tasks p)) = c ∧
  h0 ⊆ heap (pworld p) ∧
  raised p = None ∧
  ∀ i t, tasks p !! i = Some t → task_ok h0 jobs p i t.


End BatchInv.

(** ** Sample records and answers *)

Module Sample.
Import Scraper Pipeline Waterfall Batch.

Definition acme : dict :=
  <["company_name" := VStr "Acme Corp"]> (<["company_domain" := VStr "acme.com"]> ∅).

Definition jane : dict := <["email" := VStr "jane@acme.com"]> ∅.

(** The caller's store: one record. *)
Definition store : world := World (<[1%positive := acme]> ∅) initial_stats [].

Definition connection_error : exn := Exn HTTPError "connection refused".
Definition cancelled : exn := Exn BaseOnly "CancelledError".

Definition no_linkedin : linkedin_env :=
  LinkedInEnv None (Raise (ValueError "Bright Data credentials are required")) None.

Definition no_ai : result ai_enrichment :=
  Raise (ValueError "Anthropic API key is required").

(** AI Ark finds Jane. *)
Definition primary_hit : oracle :=
  Oracle (ArkEnv None (Some "key")
                 (AIArk.PostLeads [AIArk.RawLead jane None (inr jane)]) None)
         no_linkedin no_ai.

(** Every source fails. *)
Definition all_down : oracle :=
  Oracle (ArkEnv None (Some "key") (AIArk.PostRaises connection_error) None)
         no_linkedin no_ai.

(** AI Ark is unreachable, the record has no profile URL, the AI finder
    answers for 200 input and 100 output tokens. *)
Definition ai_fallback : oracle :=
  Oracle (ArkEnv None (Some "key") (AIArk.PostRaises connection_error) None)
         no_linkedin
         (Ok (AIEnrichment (PDict (<["email" := VStr "j@acme.com"]> ∅)) (VList []) (VList [])
                           (VStr "found on the company site")
                           (AILeadFinder.estimate_cost "claude-3-sonnet-20240229" 200 100))).


Definition failing_then_ok : nat → request_outcome :=
  script [RequestRaises (Exn HTTPError "503 Service Unavailable");
          RequestRaises (Exn AsyncTimeoutError "");
          Responded (Response 200 "{}")].



Definition haiku : AILeadFinder.t := AILeadFinder.new (Some "sk-test") "claude-3-Haiku-20240307".

Definition one_token : AILeadFinder.create_outcome := AILeadFinder.Message 1 0 (inr VNone).

End Sample.

(** ** What the adapters and the waterfall let a caller observe *)

Module Observed.
Import Scraper AIArk Pipeline.

(** The result [scrape] appends for a lead, if the lead parses. *)
Definition built_from (l : raw_lead) : option ScraperResult :=
  match parsed l with
  | inr d => Some (Result true (Some d) None (linkedin_url l) (Some (raw l)) 0)
  | inl _ => None
  end.

(** The sources a run may call, in priority order: those switched on. *)
Definition enabled_sources (use_ai_ark use_linkedin use_ai_finder : bool)
  : list source_id :=
  (if use_ai_ark then [AI_ARK] else []) ++
  (if use_linkedin then [LINKEDIN] else []) ++
  (if use_ai_finder then [AI_FINDER] else []).

(** A computation of the body calls only sources of [allowed], each at
    most once and in the order of [allowed]. *)
Definition calls_within (allowed : list source_id) {A} (m : M A) : Prop :=
  ∀ s, ∃ called,
    calls (fworld (snd (m s))) = calls (fworld s) ++ called ∧ sublist called allowed.

(** The counters of the three sources add up to [total_enriched]. *)
Definition hits (s : PipelineStats) : Z :=
  ai_ark_hits s + linkedin_hits s + ai_finder_hits s.

(** A task of a batch that has returned its record. *)
Definition finished (t : Batch.task) : nat :=
  match t with
  | Batch.Done _ => 1
  | _ => 0
  end.

(** The counters of the pipeline have accounted for [n] more records
    than the counters [s0]. *)
Definition accounted (s0 s : PipelineStats) (n : nat) : Prop :=
  total_enriched s + failed s = total_enriched s0 + failed s0 + Z.of_nat n ∧
  hits s - total_enriched s = hits s0 - total_enriched s0.

End Observed.

(** ** Text

    [str] methods the adapters use, on ASCII text: a string stands for the
    Python string with the same characters, all below 128 (see
    [is_ascii]). *)

Module Text.

Definition is_ascii_char (c : ascii) : bool := Nat.ltb (nat_of_ascii c) 128.

Fixpoint is_ascii (s : string) : bool :=
  match s with
  | EmptyString => true
  | String c rest => is_ascii_char c && is_ascii rest
  end.

(** [c.isspace()]: tab, line feed, vertical tab, form feed, carriage
    return, the four separators 28 to 31, and the space. *)
Definition isspace (c : ascii) : bool :=
  let n := nat_of_ascii c in
  (Nat.leb 9 n && Nat.leb n 13) || (Nat.leb 28 n && Nat.leb n 32).

(** A character the pattern [\d] matches. *)
Definition isdigit (c : ascii) : bool :=
  let n := nat_of_ascii c in Nat.leb 48 n && Nat.leb n 57.

(** [s.lstrip()] *)
Fixpoint lstrip (s : string) : string :=
  match s with
  | EmptyString => EmptyString
  | String c rest => if isspace c then lstrip rest else s
  end.

(** [s.rstrip()] *)
Fixpoint rstrip (s : string) : string :=
  match s with
  | EmptyString => EmptyString
  | String c rest =>
      match rstrip rest with
      | EmptyString => if isspace c then EmptyString else String c EmptyString
      | r => String c r
      end
  end.

(** [s.strip()] *)
Definition strip (s : string) : string := rstrip (lstrip s).

(** The characters of [s] that satisfy [keep], in order. *)
Fixpoint filter_chars (keep : ascii → bool) (s : string) : string :=
  match s with
  | EmptyString => EmptyString
  | String c rest =>
      if keep c then String c (filter_chars keep rest) else filter_chars keep rest
  end.

Fixpoint all_chars (p : ascii → bool) (s : string) : bool :=
  match s with
  | EmptyString => true
  | String c rest => p c && all_chars p rest
  end.

(** [s.split(sep)] for a separator that is not empty: the fields between
    the occurrences of [sep], found from the left and not overlapping.
    [skip] characters of a separator just found are still to be passed. *)
Fixpoint split_from (sep : string) (skip : nat) (s : string) : list string :=
  match s with
  | EmptyString => [EmptyString]
  | String c rest =>
      match skip with
      | S k => split_from sep k rest
      | O =>
          if String.prefix sep s
          then EmptyString :: split_from sep (String.length sep - 1) rest
          else match split_from sep 0 rest with
               | field :: fields => String c field :: fields
               | [] => [String c EmptyString]
               end
      end
  end.

Definition split (sep s : string) : list string := split_from sep 0 s.

(** [any(x in text for x in keywords)] *)
Definition any_in (keywords : list string) (text : string) : bool :=
  existsb (λ x, contains x text) keywords.

End Text.

(** ** [app/scrapers/base.py]: cleaning a phone number and an e-mail address *)

Module BaseHelpers.
Import Text.

(** The characters [re.sub(r"[^\d+]", "", phone)] keeps. *)
Definition phone_char (c : ascii) : bool := isdigit c || Ascii.eqb c "+".

(** [BaseScraper._clean_phone], for a phone that is [None] or a string. *)
Definition _clean_phone (phone : option string) : option string :=
  match phone with
  | None => None
  | Some p =>
      if String.eqb p "" then None
      else
        let cleaned := filter_chars phone_char p in
        if Nat.leb 10 (String.length cleaned) then Some cleaned else None
  end.

(** [BaseScraper._clean_email], for an address that is [None] or a string. *)
Definition _clean_email (email : option string) : option string :=
  match email with
  | None => None
  | Some e =>
      if String.eqb e "" then None
      else
        let email := lower (strip e) in
        if contains "@" email && contains "." (List.last (split "@" email) "")
        then Some email
        else None
  end.

End BaseHelpers.

(** ** Job titles in [app/scrapers/ai_ark.py] *)

Module AIArkTitles.
Import Text.

(** [AIArkScraper._infer_seniority], for a title that is a string. *)
Definition _infer_seniority (job_title : string) : option string :=
  if String.eqb job_title "" then None
  else
    let title_lower := lower job_title in
    if any_in ["ceo"; "cto"; "cfo"; "coo"; "cmo"; "chief"] title_lower
    then Some "C-Level"
    else if any_in ["vp"; "vice president"; "evp"; "svp"] title_lower
    then Some "VP"
    else if contains "director" title_lower
    then Some "Director"
    else if contains "manager" title_lower || contains "head of" title_lower
    then Some "Manager"
    else if any_in ["senior"; "sr."; "lead"; "principal"] title_lower
    then Some "Senior"
    else if any_in ["junior"; "jr."; "associate"; "intern"] title_lower
    then Some "Entry"
    else Some "Individual Contributor".

(** The table of [_infer_department], in the order the dictionary is
    written, which is the order the loop visits it in. *)
Definition departments : list (string * list string) :=
  [ ("Engineering", ["engineer"; "developer"; "software"; "devops"; "sre"; "architect"]);
    ("Marketing", ["marketing"; "brand"; "content"; "seo"; "growth"]);
    ("Sales", ["sales"; "account executive"; "business development"; "ae "; "sdr"; "bdr"]);
    ("Product", ["product manager"; "product owner"; "pm"]);
    ("Design", ["design"; "ux"; "ui"; "creative"]);
    ("Finance", ["finance"; "accounting"; "controller"; "cfo"]);
    ("HR", ["hr"; "human resources"; "people"; "talent"; "recruiting"]);
    ("Operations", ["operations"; "ops"; "supply chain"; "logistics"]);
    ("Legal", ["legal"; "counsel"; "attorney"; "lawyer"]);
    ("IT", ["it "; "information technology"; "system admin"; "helpdesk"]);
    ("Customer Success", ["customer success"; "cs "; "client success"]);
    ("Support", ["support"; "customer service"; "help desk"]) ].

(** The loop over the table: the first department one of whose keywords
    occurs in the title. *)
Fixpoint first_department (table : list (string * list string)) (title_lower : string)
  : option string :=
  match table with
  | [] => None
  | (dept, keywords) :: rest =>
      if any_in keywords title_lower then Some dept
      else first_department rest title_lower
  end.

(** [AIArkScraper._infer_department] *)
Definition _infer_department (job_title : string) : option string :=
  if String.eqb job_title "" then None
  else first_department departments (lower job_title).

End AIArkTitles.

(** ** Job titles in [app/scrapers/linkedin.py] *)

Module LinkedInTitles.
Import Text.

(** [LinkedInScraper._infer_seniority], for a title that is a string. *)
Definition _infer_seniority (job_title : string) : option string :=
  if String.eqb job_title "" then None
  else
    let title_lower := lower job_title in
    if any_in ["ceo"; "cto"; "cfo"; "coo"; "cmo"; "chief"; "founder"; "owner"] title_lower
    then Some "C-Level"
    else if any_in ["vp"; "vice president"; "evp"; "svp"] title_lower
    then Some "VP"
    else if contains "director" title_lower
    then Some "Director"
    else if contains "manager" title_lower || contains "head of" title_lower
    then Some "Manager"
    else if any_in ["senior"; "sr."; "lead"; "principal"; "staff"] title_lower
    then Some "Senior"
    else if any_in ["junior"; "jr."; "associate"; "intern"; "entry"] title_lower
    then Some "Entry"
    else Some "Individual Contributor".

End LinkedInTitles.

(** ** [LeadData] and [AIArkScraper.parse_result]

    A raw record is a JSON object: its items in order, with distinct
    keys. Python does not check the annotations, so every field can hold
    any value; a method of [str] called on another value raises. *)

Module Lead.
Import Text Pipeline.

(** [LeadData] *)
Record LeadData := Build {
  email : value;
  first_name : value;
  last_name : value;
  full_name : value;
  job_title : value;
  department : value;
  seniority_level : value;
  phone : value;
  linkedin_url : value;
  company_name : value;
  company_domain : value;
  confidence_score : value;
  source_url : value;
  raw_data : value;
}.

Section format.
(** [str(x)] for a value that is not a string, as an f-string renders it. *)
Variable str_of : value → string.

Definition format (v : value) : string :=
  match v with
  | VStr s => s
  | _ => str_of v
  end.

(** [LeadData(...)]: the name is put together from its parts when it is
    missing. *)
Definition new (email first_name last_name full_name job_title department
    seniority_level phone linkedin_url company_name company_domain confidence_score
    source_url raw_data : value) : LeadData :=
  Build email first_name last_name
        (py_or full_name
               (VStr (strip (format (py_or first_name (VStr "")) +:+ " "
                             +:+ format (py_or last_name (VStr ""))))))
        job_title department seniority_level phone linkedin_url company_name
        company_domain confidence_score source_url
        (py_or raw_data (VObj [])).

End format.

Definition keys : list string :=
  ["email"; "first_name"; "last_name"; "full_name"; "job_title"; "department";
   "seniority_level"; "phone"; "linkedin_url"; "company_name"; "company_domain";
   "confidence_score"; "source_url"; "raw_data"].

(** [LeadData.to_dict] *)
Definition to_dict (l : LeadData) : dict :=
  list_to_map
    [ ("email", email l); ("first_name", first_name l); ("last_name", last_name l);
      ("full_name", full_name l); ("job_title", job_title l);
      ("department", department l); ("seniority_level", seniority_level l);
      ("phone", phone l); ("linkedin_url", linkedin_url l);
      ("company_name", company_name l); ("company_domain", company_domain l);
      ("confidence_score", confidence_score l); ("source_url", source_url l);
      ("raw_data", raw_data l) ].

End Lead.

Module AIArkParse.
Import Text Pipeline.

Definition type_name (v : value) : string :=
  match v with
  | VNone => "NoneType"
  | VBool _ => "bool"
  | VInt _ => "int"
  | VFloat _ => "float"
  | VStr _ => "str"
  | VList _ => "list"
  | VObj _ => "dict"
  end.

(** The error of [v.name] for a value without that attribute. *)
Definition no_attribute (v : value) (name : string) : exn :=
  AttributeError ("'" +:+ type_name v +:+ "' object has no attribute '" +:+ name +:+ "'").

(** [d.get(key, default)] *)
Definition get (d : list (string * value)) (key : string) (default : value) : value :=
  match List.find (λ kv, String.eqb kv.1 key) d with
  | Some kv => kv.2
  | None => default
  end.

Definition optional (o : option string) : value :=
  match o with
  | Some s => VStr s
  | None => VNone
  end.

Definition and_then {A B} (r : result A) (k : A → result B) : result B :=
  match r with
  | Ok a => k a
  | Raise e => Raise e
  end.

(** [_infer_seniority], [_infer_department], [_clean_email] and
    [_clean_phone] on any value: a falsy one gives [None], a string is
    treated as above, anything else has no [lower] or [strip], and is
    rejected by [re.sub]. *)
Definition _infer_seniority (job_title : value) : result value :=
  if negb (truthy job_title) then Ok VNone
  else match job_title with
       | VStr s => Ok (optional (AIArkTitles._infer_seniority s))
       | v => Raise (no_attribute v "lower")
       end.

Definition _infer_department (job_title : value) : result value :=
  if negb (truthy job_title) then Ok VNone
  else match job_title with
       | VStr s => Ok (optional (AIArkTitles._infer_department s))
       | v => Raise (no_attribute v "lower")
       end.

Definition _clean_email (email : value) : result value :=
  if negb (truthy email) then Ok VNone
  else match email with
       | VStr s => Ok (optional (BaseHelpers._clean_email (Some s)))
       | v => Raise (no_attribute v "strip")
       end.

Definition _clean_phone (phone : value) : result value :=
  if negb (truthy phone) then Ok VNone
  else match phone with
       | VStr s => Ok (optional (BaseHelpers._clean_phone (Some s)))
       | v => Raise (TypeError ("expected string or bytes-like object, got '"
                                +:+ type_name v +:+ "'"))
       end.

(** The company of a raw record: a name, or an object with a name and a
    domain; the record's own fields are the defaults. *)
Definition company_of (raw_data : list (string * value)) : result (value * value) :=
  match get raw_data "company" (VObj []) with
  | VStr s => Ok (VStr s, VNone)
  | VObj company =>
      Ok (get company "name" (get raw_data "company_name" VNone),
          get company "domain" (get raw_data "company_domain" VNone))
  | v => Raise (no_attribute v "get")
  end.

(** [AIArkScraper.parse_result]; [0.8] is the float nearest to it. *)
Definition parse_result (str_of : value → string) (raw_data : list (string * value))
  : result Lead.LeadData :=
  and_then (company_of raw_data) (λ '(company_name, company_domain),
  let job_title := get raw_data "job_title" (get raw_data "title" (VStr "")) in
  and_then (_infer_seniority job_title) (λ seniority,
  and_then (_infer_department job_title) (λ department,
  and_then (_clean_email (get raw_data "email" (get raw_data "work_email" VNone))) (λ email,
  and_then (_clean_phone (get raw_data "phone" (get raw_data "direct_phone" VNone))) (λ phone,
  Ok (Lead.new str_of email
        (get raw_data "first_name" VNone)
        (get raw_data "last_name" VNone)
        (get raw_data "full_name" (get raw_data "name" VNone))
        job_title department seniority phone
        (get raw_data "linkedin_url" (get raw_data "linkedin" VNone))
        company_name company_domain
        (get raw_data "confidence"
             (get raw_data "score" (VFloat (float_of 3602879701896397 (-52)))))
        VNone
        (VObj raw_data))))))).

(** What the loop of [scrape] gets for a raw record: the dictionary of
    the parsed lead, or the exception of [parse_result]. *)
Definition parsed_of (str_of : value → string) (raw_data : list (string * value))
  : exn + dict :=
  match parse_result str_of raw_data with
  | Ok lead => inr (Lead.to_dict lead)
  | Raise e => inl e
  end.

(** A value a method of [str] can be called on, or that is not looked at. *)
Definition text_or_falsy (v : value) : bool :=
  negb (truthy v) || match v with VStr _ => true | _ => false end.

End AIArkParse.

(** ** The search requests of the adapters

    How [enrich_company] and [scrape_company_employees] reach [scrape]:
    through a dictionary of keyword arguments. An item binds the parameter
    of its name; an item with any other name ends up in [**kwargs], which
    [scrape] never reads. *)

Module AIArkRequest.
Import Pipeline.

(** The arguments of [AIArkScraper.scrape] after the call is bound. *)
Record scrape_args := ScrapeArgs {
  company_domains : value;
  company_names : value;
  job_titles : value;
  industries : value;
  employee_range : value;
  locations : value;
  leads_per_company : value;
  kwargs : dict;
}.

Definition parameters : list string :=
  ["company_domains"; "company_names"; "job_titles"; "industries";
   "employee_range"; "locations"; "leads_per_company"].

(** [self.scrape] called with [**params] *)
Definition bind (params : dict) : scrape_args :=
  ScrapeArgs (default VNone (params !! "company_domains"))
             (default VNone (params !! "company_names"))
             (default VNone (params !! "job_titles"))
             (default VNone (params !! "industries"))
             (default VNone (params !! "employee_range"))
             (default VNone (params !! "locations"))
             (default (VInt 3) (params !! "leads_per_company"))
             (filter (λ kv, kv.1 ∉ parameters) params).

Definition set_if (key : string) (v : value) (d : dict) : dict :=
  if truthy v then <[key := v]> d else d.

(** The [search_params] that [scrape] posts as the body of the request. *)
Definition search_params (a : scrape_args) : dict :=
  set_if "locations" (locations a)
    (set_if "employee_range" (employee_range a)
       (set_if "industries" (industries a)
          (set_if "job_titles" (job_titles a)
             (set_if "company_names" (company_names a)
                (set_if "domains" (company_domains a)
                   (<["leads_per_company" := leads_per_company a]> ∅)))))).

(** The [params] that [enrich_company] builds, once past its check. *)
Definition enrich_company_params (domain company_name : value) (leads_count : Z) : dict :=
  let params := <["leads_per_company" := VInt leads_count]> ∅ in
  if truthy domain then <["domains" := VList [domain]]> params
  else <["company_names" := VList [company_name]]> params.

(** The body of the request [enrich_company] ends in. *)
Definition enrich_company_request (domain company_name : value) (leads_count : Z) : dict :=
  search_params (bind (enrich_company_params domain company_name leads_count)).

End AIArkRequest.

Module LinkedInRequest.
Import Pipeline.

(** The arguments of [LinkedInScraper.scrape] after the call is bound. *)
Record scrape_args := ScrapeArgs {
  job_titles : value;
  company_names : value;
  industries : value;
  locations : value;
  seniority_levels : value;
  keywords : value;
  max_results : value;
  kwargs : dict;
}.

Definition parameters : list string :=
  ["job_titles"; "company_names"; "industries"; "locations";
   "seniority_levels"; "keywords"; "max_results"].

(** [self.scrape] called with [**search_params] *)
Definition bind (params : dict) : scrape_args :=
  ScrapeArgs (default VNone (params !! "job_titles"))
             (default VNone (params !! "company_names"))
             (default VNone (params !! "industries"))
             (default VNone (params !! "locations"))
             (default VNone (params !! "seniority_levels"))
             (default VNone (params !! "keywords"))
             (default (VInt 100) (params !! "max_results"))
             (filter (λ kv, kv.1 ∉ parameters) params).

Definition set_if (key : string) (v : value) (d : dict) : dict :=
  if truthy v then <[key := v]> d else d.

(** The [search_criteria] that [scrape] posts as the input of the job. *)
Definition search_criteria (a : scrape_args) : dict :=
  set_if "keywords" (keywords a)
    (set_if "seniority" (seniority_levels a)
       (set_if "locations" (locations a)
          (set_if "industries" (industries a)
             (set_if "companies" (company_names a)
                (set_if "job_titles" (job_titles a)
                   (<["max_results" := max_results a]> ∅)))))).

(** The [search_params] that [scrape_company_employees] builds, once past
    its check. *)
Definition company_employees_params (company_url company_name job_titles : value)
    (max_results : Z) : dict :=
  let params := <["max_results" := VInt max_results]> ∅ in
  let params := if truthy company_url then <["company_url" := company_url]> params
                else <["companies" := VList [company_name]]> params in
  if truthy job_titles then <["job_titles" := job_titles]> params else params.

(** [scrape_company_employees]: the check, then the input of the job that
    [scrape] starts. *)
Definition scrape_company_employees (company_url company_name job_titles : value)
    (max_results : Z) : result dict :=
  if negb (truthy company_url) && negb (truthy company_name)
  then Raise (ValueError "Either company_url or company_name is required")
  else Ok (search_criteria
             (bind (company_employees_params company_url company_name job_titles
                                             max_results))).

End LinkedInRequest.

(** ** [LinkedInScraper._poll_for_results]: waiting for a snapshot *)

Module LinkedInPoll.
Import Scraper.

(** One profile of a snapshot: the raw record, its URL, and what
    [parse_result] followed by [to_dict] gives for it. *)
Record profile := Profile {
  raw : gmap string value;
  url : option string;
  parsed : exn + gmap string value;
}.

(** What one round of the loop comes to, up to the [sleep]. *)
Inductive round :=
| PollRaises (e : exn)
    (* [self.get], [response.json()] or the reading of the answer raised *)
| Ready (profiles : list profile)
| JobFailed (error : option string)
    (* status "failed", with [data.get("error", "Unknown error")] *)
| Processing.
    (* any other status *)

(** A round is one call of [self.get], which is [_make_request] under
    its retry decorator, and the reading of the response it returns. *)
Definition round_of (call : call_trace) (read : response → round) : round :=
  match Scraper.outcome call with
  | Raise e => PollRaises e
  | Ok response => read response
  end.

(** The loop over the profiles of a snapshot that is ready: a profile
    that does not parse is logged and skipped. *)
Fixpoint collect (profiles : list profile) (results : list ScraperResult)
  : result (list ScraperResult) :=
  match profiles with
  | [] => Ok results
  | p :: rest =>
      match parsed p with
      | inr d => collect rest (results ++ [Result true (Some d) None (url p) (Some (raw p)) 0])
      | inl e => if is_Exception e then collect rest results else Raise e
      end
  end.

(** The seconds a list of waits adds up to. *)
Definition seconds (waits : list Z) : Z := foldr Z.add 0 waits.

(** What a call did: its outcome, the statistics of the session, the
    calls of [self.get] made, the seconds the retry decorator waited
    between the attempts of those calls, and the seconds slept between the
    rounds. The delays of the rate limiter are not counted. *)
Record trace := Trace {
  outcome : result (list ScraperResult);
  stats_then : ScraperStats;
  gets : nat;
  waited : Z;
  slept : Z;
}.

(** The loop: [left] rounds are still allowed, the next one is number
    [attempt] (from 0). [answers n k] is what attempt [k] (from 1) of the
    request of round [n] comes to, [read] what the reading of a response
    gives, and [cancelled n] tells whether the task is cancelled during
    the sleep that follows round [n]: [asyncio.sleep] raises nothing
    else. *)
Fixpoint polling (left attempt : nat) (poll_interval : Z)
    (answers : nat → nat → request_outcome) (read : response → round)
    (cancelled : nat → bool) (s : ScraperStats) (gets : nat) (waited slept : Z) : trace :=
  match left with
  | O => Trace (Ok [Result false None (Some "Polling timeout") None None 0])
               s gets waited slept
  | S left' =>
      let call := _make_request (answers attempt) s in
      let s' := stats_after call in
      let waited' := waited + seconds (waits call) in
      let sleep_then_go_on :=
        if cancelled attempt
        then Trace (Raise (Exn BaseOnly "CancelledError")) s' (S gets) waited' slept
        else polling left' (S attempt) poll_interval answers read cancelled
                     s' (S gets) waited' (slept + poll_interval) in
      match round_of call read with
      | PollRaises e =>
          if is_Exception e then sleep_then_go_on
          else Trace (Raise e) s' (S gets) waited' slept
      | Ready profiles => Trace (collect profiles []) s' (S gets) waited' slept
      | JobFailed error =>
          Trace (Ok [Result false None error None None 0]) s' (S gets) waited' slept
      | Processing => sleep_then_go_on
      end
  end.

(** [_poll_for_results(snapshot_id, max_attempts, poll_interval)] in a
    session whose statistics are [s]. *)
Definition _poll_for_results (max_attempts : nat) (poll_interval : Z)
    (answers : nat → nat → request_outcome) (read : response → round)
    (cancelled : nat → bool) (s : ScraperStats) : trace :=
  polling max_attempts 0 poll_interval answers read cancelled s 0 0 0.

(** What round [n] comes to; the statistics have no part in it. *)
Definition round_number (answers : nat → nat → request_outcome)
    (read : response → round) (n : nat) : round :=
  round_of (_make_request (answers n) new_stats) read.

(** A round that does not end the polling. *)
Definition undecided (r : round) : bool :=
  match r with
  | PollRaises e => is_Exception e
  | Processing => true
  | _ => false
  end.

(** What a call of [polling] guarantees from where it starts. *)
Definition bounded (interval : Z) (left : nat) (s : ScraperStats) (g : nat) (w sl : Z)
    (t : trace) : Prop :=
  (g ≤ gets t ≤ g + left)%nat ∧
  total_requests s ≤ total_requests (stats_then t)
    ≤ total_requests s + 3 * Z.of_nat (gets t - g) ∧
  w ≤ waited t ≤ w + 4 * Z.of_nat (gets t - g) ∧
  sl ≤ slept t ≤ sl + Z.of_nat (gets t - g) * interval ∧
  (∀ e, outcome t = Raise e → is_Exception e = false) ∧
  (∀ rs, outcome t = Ok rs →
         Forall (λ r, success r = true) rs ∨
         ∃ error, rs = [Result false None error None None 0]).

End LinkedInPoll.

(** ** [AILeadFinder._call_claude]: the text handed to the JSON decoder *)

Module ClaudeReply.
Import Text.

(** [fields[i]] *)
Definition item (fields : list string) (i : nat) : result string :=
  match fields !! i with
  | Some field => Ok field
  | None => Raise (Exn OtherException "list index out of range")
  end.

(** [text.split(fence)[1].split("```")[0]] *)
Definition between (fence text : string) : result string :=
  match item (split fence text) 1 with
  | Ok rest => item (split "```" rest) 0
  | Raise e => Raise e
  end.

(** What [_call_claude] passes to [json.loads]: the reply, or the inside
    of its first code block when it has one, stripped. *)
Definition json_text (content : string) : result string :=
  match (if contains "```json" content then between "```json" content
         else if contains "```" content then between "```" content
         else Ok content) with
  | Ok text => Ok (strip text)
  | Raise e => Raise e
  end.

(** A text without a backtick. *)
Definition no_backtick (s : string) : bool :=
  all_chars (λ c, negb (Ascii.eqb c "`")) s.

End ClaudeReply.

(** ** [app/api/routes.py]: the endpoint that enriches one lead *)

Module Routes.
Import Pipeline.

(** The columns of a stored lead that the endpoint reads. *)
Record lead_row := Row {
  first_name : value;
  last_name : value;
  full_name : value;
  email : value;
  job_title : value;
  company_name : value;
  linkedin_url : value;
}.

(** The [lead_data] the endpoint builds: no ["company_domain"] is among
    its keys. *)
Definition lead_data (lead : lead_row) : dict :=
  list_to_map
    [ ("first_name", first_name lead); ("last_name", last_name lead);
      ("full_name", full_name lead); ("email", email lead);
      ("job_title", job_title lead); ("company_name", company_name lead);
      ("linkedin_url", linkedin_url lead) ].

Inductive EnrichmentStatus := ENRICHED | FAILED.

(** [enriched.get(key)] and [enriched.get(key, default)] *)
Definition get (enriched : dict) (key : string) (default : value) : value :=
  match enriched !! key with
  | Some v => v
  | None => default
  end.

(** The status the endpoint stores with the enrichment. *)
Definition status_of (enriched : dict) : EnrichmentStatus :=
  if truthy (get enriched "enrichment_source" VNone) then ENRICHED else FAILED.

(** The body of the response. *)
Definition response (lead_id : string) (enriched : dict) : dict :=
  list_to_map
    [ ("lead_id", VStr lead_id);
      ("enriched", VBool (truthy (get enriched "enrichment_source" VNone)));
      ("source", get enriched "enrichment_source" VNone);
      ("cost", get enriched "enrichment_cost" (VInt 0)) ].

(** What a call of the endpoint did: the response or the exception, what
    it handed to [crud.update_lead_enrichment], and the state of the
    pipeline it made. *)
Record served := Served {
  answer : result dict;
  stored : option (dict * EnrichmentStatus);
  pipeline : world;
}.

(** [enrich_single_lead]: [lead] is what [crud.get_lead] found, [o] what
    the sources answer, [db] the exception of the update, if it raises.
    The pipeline is a new one; the lead data is the one object of its
    store. *)
Definition enrich_single_lead (lead_id : string) (lead : option lead_row) (o : oracle)
    (db : option exn) : served :=
  match lead with
  | None => Served (Raise (Exn OtherException "Lead not found")) None
                   (World ∅ initial_stats [])
  | Some row =>
      let w := World (<[1%positive := lead_data row]> ∅) initial_stats [] in
      match enrich_lead 1 true true true o w with
      | (Raise e, w') => Served (Raise e) None w'
      | (Ok l, w') =>
          match heap w' !! l with
          | None => Served (Raise (AttributeError "object has no attribute 'get'")) None w'
          | Some enriched =>
              match db with
              | Some e => Served (Raise e) (Some (enriched, status_of enriched)) w'
              | None =>
                  Served (Ok (response lead_id enriched))
                         (Some (enriched, status_of enriched)) w'
              end
          end
      end
  end.

End Routes.

(** ** More sample records and answers *)

Module Fixtures.
Import Scraper Pipeline Waterfall Sample.

(** A record with a profile URL and no company. *)
Definition profile : dict :=
  <["linkedin_url" := VStr "https://www.linkedin.com/in/jane"]> ∅.

Definition profile_store : world := World (<[1%positive := profile]> ∅) initial_stats [].

(** A record with an address only. *)
Definition jane_store : world := World (<[1%positive := jane]> ∅) initial_stats [].

(** LinkedIn finds Jane. *)
Definition linkedin_hit : oracle :=
  Oracle (ArkEnv None (Some "key") (AIArk.PostLeads []) None)
         (LinkedInEnv None (Ok (Some (Result true (Some jane) None None None 0))) None)
         no_ai.

(** The answer of the AI finder in [ai_fallback]. *)
Definition ai_answer : ai_enrichment :=
  AIEnrichment (PDict (<["email" := VStr "j@acme.com"]> ∅)) (VList []) (VList [])
               (VStr "found on the company site")
               (AILeadFinder.estimate_cost "claude-3-sonnet-20240229" 200 100).

(** A raw record of AI Ark, and a lead without an address. *)
Definition raw_jane : list (string * value) :=
  [("first_name", VStr "Jane"); ("last_name", VStr "Doe");
   ("email", VStr " Jane.Doe@Acme.com"); ("job_title", VStr "Director of Sales");
   ("company", VStr "Acme Corp")].

Definition found_without_email : Lead.LeadData :=
  Lead.Build VNone (VStr "Jane") (VStr "Doe") (VStr "Jane Doe") (VStr "CTO") VNone
             (VStr "C-Level") VNone VNone (VStr "Acme Corp") VNone
             (VFloat (float_of 3602879701896397 (-52))) VNone (VObj []).

(** A record with a company and an address of its own. *)
Definition acme_contact : dict := <["email" := VStr "ceo@acme.com"]> acme.

Definition contact_store : world :=
  World (<[1%positive := acme_contact]> ∅) initial_stats [].

(** AI Ark finds the lead without an address. *)
Definition ark_finds : oracle :=
  Oracle (ArkEnv None (Some "key")
                 (AIArk.PostLeads [AIArk.RawLead ∅ None
                                     (inr (Lead.to_dict found_without_email))])
                 None)
         no_linkedin no_ai.

(** A batch of two records: one that no source answers for, one that AI
    Ark finds; and a schedule that runs them one after the other. *)
Definition two_jobs : list Batch.job := [(1%positive, all_down); (1%positive, primary_hit)].

Definition one_by_one : list nat := [0; 0; 1; 1]%nat.

(** A stored lead. *)
Definition jane_row : Routes.lead_row :=
  Routes.Row (VStr "Jane") (VStr "Doe") (VStr "Jane Doe") VNone (VStr "CTO")
             (VStr "Acme Corp") VNone.

(** Every attempt times out. *)
(** The reading of a response whose status is neither "ready" nor
    "failed". *)
Definition still_running : response → LinkedInPoll.round := λ _, LinkedInPoll.Processing.

Definition always_timeout : nat → request_outcome :=
  λ _, RequestRaises (Exn AsyncTimeoutError "").

End Fixtures.

(** * Proofs *)

(** ** The cost estimate follows the running totals *)

Module AILeadFinderFacts.
Import AILeadFinder.

Lemma call_claude_model f api : model (snd (_call_claude f api)) = model f.
Proof. unfold _call_claude. repeat case_match; reflexivity. Qed.

Lemma call_claude_api_key f api : api_key (snd (_call_claude f api)) = api_key f.
Proof. unfold _call_claude. repeat case_match; reflexivity. Qed.

Lemma call_claude_totals f api :
  total_input_tokens (snd (_call_claude f api)) = total_input_tokens f + fst (tracked f api) ∧
  total_output_tokens (snd (_call_claude f api)) = total_output_tokens f + snd (tracked f api).
Proof.
  unfold _call_claude, tracked.
  destruct api as [e|i o [e|v]], (has_key f); cbn; lia.
Qed.

Lemma tracked_ext f g api : api_key f = api_key g → tracked f api = tracked g api.
Proof. unfold tracked, has_key. by intros ->. Qed.

Lemma sums_ext f g calls :
  api_key f = api_key g →
  sum_input f calls = sum_input g calls ∧ sum_output f calls = sum_output g calls.
Proof.
  intros Hkey. unfold sum_input, sum_output.
  induction calls as [|api calls [IH1 IH2]]; [done|]. cbn.
  by rewrite IH1, IH2, (tracked_ext f g api Hkey).
Qed.

Lemma run_calls_totals calls : ∀ f,
  model (run_calls f calls) = model f ∧
  total_input_tokens (run_calls f calls) = total_input_tokens f + sum_input f calls ∧
  total_output_tokens (run_calls f calls) = total_output_tokens f + sum_output f calls.
Proof.
  induction calls as [|api calls IH]; intros f.
  - unfold sum_input, sum_output; cbn. split_and!; [done|lia..].
  - destruct (IH (snd (_call_claude f api))) as (Hm & Hi & Ho).
    destruct (call_claude_totals f api) as [Hi1 Ho1].
    destruct (sums_ext (snd (_call_claude f api)) f calls (call_claude_api_key f api))
      as [Hs1 Hs2].
    change (run_calls f (api :: calls)) with (run_calls (snd (_call_claude f api)) calls).
    rewrite Hm, Hi, Ho, Hi1, Ho1, Hs1, Hs2, call_claude_model.
    unfold sum_input, sum_output; cbn. split_and!; [done|lia..].
Qed.

(** C8: after any sequence of calls made through one [AILeadFinder],
    [get_total_cost()] is [_estimate_cost] applied to the sum of all input
    tokens and the sum of all output tokens the calls recorded; so after two
    calls on a new instance it is the estimate of the summed token counts of
    both. It is computed from the running totals, not from the costs
    reported per call. *)
Theorem total_cost_recomputed_from_totals (f : t) (calls : list create_outcome) :
  get_total_cost (run_calls f calls)
  = estimate_cost (model f) (total_input_tokens f + sum_input f calls)
                            (total_output_tokens f + sum_output f calls)
  ∧ ∀ key m first second,
      get_total_cost (run_calls (new key m) [first; second])
      = estimate_cost m (fst (tracked (new key m) first) + fst (tracked (new key m) second))
                        (snd (tracked (new key m) first) + snd (tracked (new key m) second)).
Proof.
  assert (H : ∀ f calls, get_total_cost (run_calls f calls)
    = estimate_cost (model f) (total_input_tokens f + sum_input f calls)
                              (total_output_tokens f + sum_output f calls)).
  { clear. intros f calls. unfold get_total_cost, _estimate_cost.
    destruct (run_calls_totals calls f) as (-> & -> & ->). reflexivity. }
  split; [apply H|]. intros key m a b. rewrite H. cbn.
  f_equal; lia.
Qed.

(** Three calls of one input token each on a Haiku model: each call costs
    [0.0] after rounding, the total is [1e-06]. *)
Example per_call_costs_do_not_add_up :
  get_total_cost (run_calls Sample.haiku [Sample.one_token; Sample.one_token; Sample.one_token])
  = float_of 4722366482869645 (-72)
  ∧ call_cost Sample.haiku Sample.one_token = fzero.
Proof. vm_compute. split; reflexivity. Qed.

(** 1000 input and 500 output tokens on the default model cost [0.0105]. *)
Example sonnet_cost :
  estimate_cost "claude-3-sonnet-20240229" 1000 500 = float_of 6052837899185947 (-59).
Proof. vm_compute. reflexivity. Qed.

End AILeadFinderFacts.

(** ** The request wrapper and the session statistics *)

Module ScraperFacts.
Import Scraper.

Lemma retryable_is_Exception e : retryable e = true → is_Exception e = true.
Proof. unfold retryable, is_Exception. by destruct (exn_cls e). Qed.

Lemma acquire_not_retried a : retryable (exn_of_acquire a) = false.
Proof. by destruct a. Qed.


Lemma once_consistent out s :
  stats_consistent s → interrupted out = false →
  stats_consistent (snd (make_request_once out s)).
Proof.
  unfold stats_consistent, interrupted, make_request_once.
  intros [Ht He] Hc. destruct out as [a|r|e]; cbn.
  - done.
  - lia.
  - apply negb_false_iff in Hc. rewrite Hc. cbn. rewrite length_app. cbn. lia.
Qed.

Lemma once_interrupted out s :
  stats_consistent s → interrupted out = true →
  let s' := snd (make_request_once out s) in
  total_requests s' = successful_requests s' + failed_requests s' + 1 ∧
  Z.of_nat (length (errors s')) = failed_requests s'.
Proof.
  unfold stats_consistent, interrupted, make_request_once.
  intros [Ht He] Hc. destruct out as [a|r|e]; try done.
  apply negb_true_iff in Hc. rewrite Hc. cbn. lia.
Qed.

(** An attempt the decorator retries after was a failed request. *)
Lemma retried_attempt out s e s' :
  make_request_once out s = (Raise e, s') → retryable e = true →
  counted out = true ∧ interrupted out = false.
Proof.
  unfold make_request_once. destruct out as [a|r|e0]; cbn.
  - intros [= <- <-]. by rewrite acquire_not_retried.
  - done.
  - destruct (is_Exception e0) eqn:Hx; intros [= <- <-] Hr; [done|].
    by rewrite (retryable_is_Exception _ Hr) in Hx.
Qed.




Lemma retrying_consistent outs : ∀ left n s slept,
  stats_consistent s →
  let t := retrying left n outs s slept in
  total_requests (stats_after t)
  = successful_requests (stats_after t) + failed_requests (stats_after t)
    + (if interrupted (outs (attempts_made t)) then 1 else 0) ∧
  Z.of_nat (length (errors (stats_after t))) = failed_requests (stats_after t).
Proof.
  assert (Hlast : ∀ out s, stats_consistent s →
    let s' := snd (make_request_once out s) in
    total_requests s' = successful_requests s' + failed_requests s'
                        + (if interrupted out then 1 else 0) ∧
    Z.of_nat (length (errors s')) = failed_requests s').
  { intros out s Hs. destruct (interrupted out) eqn:Hi.
    - by apply once_interrupted.
    - destruct (once_consistent out s Hs Hi) as [H1 H2]. cbn zeta. lia. }
  induction left as [|left IH]; intros n s slept Hs; cbn [retrying];
    pose proof (Hlast (outs n) s Hs) as H1;
    pose proof (once_consistent (outs n) s Hs) as H2;
    pose proof (retried_attempt (outs n) s) as Hr;
    destruct (make_request_once (outs n) s) as [[r|e] s']; cbn [snd] in *;
    try done; destruct (retryable e) eqn:Hre; try done.
  apply IH, H2. by destruct (Hr e s' eq_refl Hre).
Qed.



(** The waits between the three attempts are 2 and 2 seconds. *)
Example waits_of_three_attempts :
  waits (_make_request Sample.failing_then_ok new_stats) = [2; 2].
Proof. reflexivity. Qed.

(** C9, as the code has it: if [total_requests = successful_requests +
    failed_requests] and [len(errors) = failed_requests] held before it, an
    attempt of [_make_request] keeps them when it returns a response, when
    its request raises an [Exception] (the handler records it), and when it
    is stopped in [rate_limiter.acquire()] (nothing is counted: the
    statistics are unchanged). An attempt interrupted outside [Exception]
    while its request is in flight has counted the request and nothing
    else: afterwards [total_requests] is one more than the sum, while
    [len(errors) = failed_requests] still holds. For a whole decorated
    call, whatever its attempts come to, the sum falls short of
    [total_requests] by one exactly when its last attempt was interrupted
    so, since such an attempt is never retried. *)
Theorem attempt_keeps_stats_consistent (out : request_outcome) (s : ScraperStats) :
  stats_consistent s →
  (interrupted out = false → stats_consistent (snd (make_request_once out s))) ∧
  (∀ a, out = AcquireRaises a → snd (make_request_once out s) = s) ∧
  (interrupted out = true →
   total_requests (snd (make_request_once out s))
   = successful_requests (snd (make_request_once out s))
     + failed_requests (snd (make_request_once out s)) + 1 ∧
   Z.of_nat (length (errors (snd (make_request_once out s))))
   = failed_requests (snd (make_request_once out s))) ∧
  ∀ outs,
    total_requests (stats_after (_make_request outs s))
    = successful_requests (stats_after (_make_request outs s))
      + failed_requests (stats_after (_make_request outs s))
      + (if interrupted (outs (attempts_made (_make_request outs s))) then 1 else 0) ∧
    Z.of_nat (length (errors (stats_after (_make_request outs s))))
    = failed_requests (stats_after (_make_request outs s)).
Proof.
  intros Hs. split_and!.
  - by apply once_consistent.
  - by intros a ->.
  - by apply once_interrupted.
  - intros outs. by apply retrying_consistent.
Qed.

(** A 404 on new statistics. *)
Lemma attempt_keeps_stats_witness :
  stats_consistent new_stats ∧
  stats_consistent
    (snd (make_request_once (RequestRaises (Exn HTTPError "404 Not Found")) new_stats)).
Proof.
  assert (H1 : stats_consistent new_stats) by (unfold stats_consistent; cbn; lia).
  destruct (attempt_keeps_stats_consistent (RequestRaises (Exn HTTPError "404 Not Found"))
              new_stats H1) as [Honce _].
  split; [exact H1|exact (Honce eq_refl)].
Defined.

(** The task is cancelled while the first request of a session is in
    flight: the statistics held the relation before, and afterwards one
    request is counted that is neither successful nor failed. *)
Lemma interrupted_attempt_is_not_recorded :
  stats_consistent new_stats ∧
  make_request_once (RequestRaises (Exn BaseOnly "CancelledError")) new_stats
  = (Raise (Exn BaseOnly "CancelledError"), Stats 1 0 0 0 None None []) ∧
  ¬ stats_consistent
      (snd (make_request_once (RequestRaises (Exn BaseOnly "CancelledError")) new_stats)).
Proof.
  split; [unfold stats_consistent; cbn; lia|]. split; [reflexivity|].
  unfold stats_consistent. cbn. lia.
Qed.

End ScraperFacts.

(** ** The rate limiter: the grants are spaced *)

Module RateLimiterFacts.
Import RateLimiter.










Import Sample.



End RateLimiterFacts.

(** ** What AI Ark returns *)

Module AIArkFacts.
Import Scraper AIArk Waterfall.

(** The loop lets through only what is outside [Exception]. *)


Lemma collect_escaped leads : ∀ rs rs' e,
  collect leads rs = (rs', Some e) → is_Exception e = false.
Proof.
  induction leads as [|l leads IH]; intros rs rs' e; cbn; [done|].
  destruct (parsed l) as [e'|d]; [|by apply IH].
  destruct (is_Exception e') eqn:E; [by apply IH|]. by intros [= _ <-].
Qed.

Lemma collect_built leads : ∀ rs, Forall built rs → Forall built (fst (collect leads rs)).
Proof.
  induction leads as [|l leads IH]; intros rs Hrs; cbn; [done|].
  destruct (parsed l) as [e'|d].
  - destruct (is_Exception e'); [by apply IH|done].
  - apply IH. apply Forall_app; split; [done|]. repeat constructor. by eexists.
Qed.

Lemma scrape_results key search rs :
  scrape key search = Ok rs →
  Forall built rs ∨ ∃ msg, rs = [Result false None (Some msg) None None 0].
Proof.
  unfold scrape. destruct (negb (key_present key)); [done|].
  destruct search as [e|leads].
  - destruct (is_Exception e); [|done]. intros [= <-]. right. by eexists.
  - pose proof (collect_built leads [] (Forall_nil_2 _)) as Hb.
    destruct (collect leads []) as [results [e|]] eqn:Hc; cbn in *.
    + rewrite (collect_escaped _ _ _ _ Hc). done.
    + intros [= <-]. by left.
Qed.

Lemma enrich_company_success key domain name n search rs :
  enrich_company key domain name n search = Ok rs →
  (∃ r, r ∈ rs ∧ success r = true) →
  ∃ r p rest, rs = r :: rest ∧ success r = true ∧ data r = Some p.
Proof.
  unfold enrich_company. case_match; [done|].
  intros [Hb|[msg ->]]%scrape_results (r & Hin & Hs).
  - destruct rs as [|r0 rest]; [by apply elem_of_nil in Hin|].
    apply Forall_cons in Hb as [[Hs0 [p Hp]] _]. by exists r0, p, rest.
  - apply list_elem_of_singleton in Hin as ->. done.
Qed.

Lemma collect_calm leads : ∀ rs,
  forallb (λ l, match parsed l with inl e => is_Exception e | inr _ => true end) leads = true →
  snd (collect leads rs) = None.
Proof.
  induction leads as [|l leads IH]; intros rs; cbn; [done|].
  intros [Hl Hrest]%andb_prop. destruct (parsed l); [rewrite Hl|]; by apply IH.
Qed.

Lemma enrich_company_raises key domain name n search e :
  Waterfall.calm_search search = true →
  enrich_company key domain name n search = Raise e → is_Exception e = true.
Proof.
  unfold enrich_company, scrape, Waterfall.calm_search. intros Hcalm.
  destruct (negb (truthy domain) && negb (truthy name))%bool; [by intros [= <-]|].
  destruct (negb (key_present key)); [by intros [= <-]|].
  destruct search as [e'|leads].
  - rewrite Hcalm. done.
  - pose proof (collect_calm leads [] Hcalm) as Hc.
    destruct (collect leads []) as [results esc]. cbn in Hc. by subst esc.
Qed.
Lemma collect_none_calm leads : ∀ rs,
  snd (collect leads rs) = None →
  forallb (λ l, match parsed l with inl e => is_Exception e | inr _ => true end) leads = true.
Proof.
  induction leads as [|l leads IH]; intros rs; cbn; [done|].
  destruct (parsed l) as [e|d]; [|by apply IH].
  destruct (is_Exception e); [by apply IH|done].
Qed.

Lemma enrich_company_ok_calm key domain name n search rs :
  enrich_company key domain name n search = Ok rs → calm_search search = true.
Proof.
  unfold enrich_company, scrape, calm_search.
  destruct (negb (truthy domain) && negb (truthy name))%bool; [done|].
  destruct (negb (key_present key)); [done|].
  destruct search as [e|leads].
  - by destruct (is_Exception e).
  - pose proof (collect_none_calm leads []) as Hc.
    pose proof (collect_escaped leads []) as He.
    destruct (collect leads []) as [results [e|]]; cbn in *; [|auto].
    by rewrite (He _ _ eq_refl).
Qed.

End AIArkFacts.

(** ** The waterfall: the code against the design *)

Module PipelineFacts.
Import Scraper Pipeline Waterfall.

Ltac munfold :=
  unfold update_stats, invoke, when, try_except, async_with, source_unset in *;
  unfold mbind, M_bind, mret, M_ret, get_world, set_world, get_source, set_source,
    get_cost, set_cost, raise, lift, set_heap, set_stats in *.

Lemma bind_ok {A B} (m : M A) (k : A → M B) s a s' :
  m s = (Ok a, s') → (m ≫= k) s = k a s'.
Proof. unfold mbind, M_bind. by intros ->. Qed.

(** *** The steps on a running call *)

Lemma bind_raise {A B} (m : M A) (k : A → M B) s e s' :
  m s = (Raise e, s') → (m ≫= k) s = (Raise e, s').
Proof. unfold mbind, M_bind. by intros ->. Qed.

Section running.
Context (h : gmap loc dict) (lead e : loc) (d : dict).
Hypothesis Hlead : h !! lead = Some d.
Hypothesis He : h !! e = None.

Lemma dict_get_running key x st cs src c :
  dict_get lead key (running h e x st cs src c)
  = (Ok (field d key), running h e x st cs src c).
Proof.
  unfold dict_get, field, running. munfold. cbn.
  rewrite lookup_insert_ne by congruence. rewrite Hlead. reflexivity.
Qed.

Lemma write_running f x st cs src c :
  write e f (running h e x st cs src c) = (Ok tt, running h e (f x) st cs src c).
Proof. unfold write, running. munfold. cbn. by rewrite alter_insert_eq. Qed.

Lemma dict_update_running p x st cs src c :
  dict_update e p (running h e x st cs src c)
  = match p with
    | PDict p' => (Ok tt, running h e (p' ∪ x) st cs src c)
    | PInvalid _ m =>
        (Raise (TypeError "dictionary update sequence is not a mapping"),
         running h e (m ∪ x) st cs src c)
    end.
Proof. destruct p; unfold dict_update; munfold; by rewrite write_running. Qed.

Lemma scraper_update_running r x st cs c name hit :
  (dict_update e (payload_of (data r));; set_source name;; update_stats hit)
    (running h e x st cs None c)
  = match data r with
    | Some p => (Ok tt, running h e (p ∪ x) (hit st) cs (Some name) c)
    | None => (Raise (TypeError "dictionary update sequence is not a mapping"),
               running h e x st cs None c)
    end.
Proof.
  unfold mbind, M_bind. rewrite dict_update_running.
  destruct (data r); cbn; [reflexivity|]. by rewrite (left_id_L ∅ (∪)).
Qed.

Lemma try_ai_ark_running use cn cd a x st cs c :
  (use && truthy (py_or cn cd) = true → calm_ark a = true) →
  try_ai_ark use e cn cd a (running h e x st cs None c)
  = (Ok tt, if use && truthy (py_or cn cd)
            then after h e (ark_verdict cn cd a) AI_ARK incr_ai_ark_hits x st cs c
            else running h e x st cs None c).
Proof.
  unfold try_ai_ark. unfold when at 1.
  destruct (use && truthy (py_or cn cd)); [|reflexivity]. intros Hcalm.
  pose proof (Hcalm eq_refl) as [[Ho Hs]%andb_prop Hc]%andb_prop. clear Hcalm.
  unfold ark_verdict, after, scraper_verdict.
  pose proof (λ e', AIArkFacts.enrich_company_raises (ark_api_key a) cd cn 1 _ e' Hs) as Hraise.
  unfold try_except, mbind at 1, M_bind at 1. unfold invoke at 1.
  unfold mbind at 1, M_bind at 1, get_world, set_world. cbn.
  unfold async_with.
  destruct (ark_open a) as [eo|]; cbn in *.
  { unfold raise. rewrite Ho. by rewrite (left_id_L ∅ (∪)). }
  unfold mbind at 1, M_bind at 1, lift.
  destruct (AIArk.enrich_company _ _ _ _ _) as [[|r rs]|e'] eqn:Hec; cbn.
  - unfold mret, M_ret. rewrite (left_id_L ∅ (∪)).
    destruct (ark_close a); cbn in *; by rewrite ?Hc.
  - unfold when. destruct (success r).
    + fold (running h e x st (cs ++ [AI_ARK]) None c).
      rewrite scraper_update_running. destruct (data r); cbn;
      destruct (ark_close a); cbn in *; rewrite ?Hc, ?(left_id_L ∅ (∪)); reflexivity.
    + unfold mret, M_ret. rewrite (left_id_L ∅ (∪)).
      destruct (ark_close a); cbn in *; by rewrite ?Hc.
  - rewrite (left_id_L ∅ (∪)).
    destruct (ark_close a); cbn in *; rewrite ?Hc; [done|].
    by rewrite (Hraise _ eq_refl).
Qed.

(** AI Ark answers with a success: what is left open is how its session
    closes. *)
Lemma try_ai_ark_win cn cd a r rest p x st cs c :
  truthy (py_or cn cd) = true → ark_open a = None →
  AIArk.enrich_company (ark_api_key a) cd cn 1 (ark_search a) = Ok (r :: rest) →
  success r = true → data r = Some p →
  try_ai_ark true e cn cd a (running h e x st cs None c)
  = (match ark_close a with
     | Some sig => if is_Exception sig then Ok tt else Raise sig
     | None => Ok tt
     end,
     running h e (p ∪ x) (incr_ai_ark_hits st) (cs ++ [AI_ARK]) (Some "ai_ark") c).
Proof.
  intros Hhint Hopen Hres Hs Hd. unfold try_ai_ark. cbn [andb]. rewrite Hhint.
  unfold when at 1.
  unfold try_except, mbind at 1, M_bind at 1. unfold invoke at 1.
  unfold mbind at 1, M_bind at 1, get_world, set_world. cbn.
  unfold async_with. rewrite Hopen.
  unfold mbind at 1, M_bind at 1, lift. rewrite Hres. unfold when. rewrite Hs.
  fold (running h e x st (cs ++ [AI_ARK]) None c).
  rewrite scraper_update_running, Hd.
  destruct (ark_close a) as [sig|]; [|reflexivity]. by destruct (is_Exception sig).
Qed.

Lemma try_linkedin_running use li x st cs src c :
  (src = None → use && truthy (field d "linkedin_url") = true → calm_linkedin li = true) →
  try_linkedin use lead e li (running h e x st cs src c)
  = (Ok tt, match src with
            | None =>
                if use && truthy (field d "linkedin_url")
                then after h e (linkedin_verdict li) LINKEDIN incr_linkedin_hits x st cs c
                else running h e x st cs None c
            | Some _ => running h e x st cs src c
            end).
Proof.
  unfold try_linkedin. unfold mbind at 1, M_bind at 1, source_unset.
  unfold mbind at 1, M_bind at 1, get_source. cbn [source running].
  unfold mret at 1, M_ret at 1.
  destruct src as [name|]; [reflexivity|]. cbn [bool_decide decide_rel].
  rewrite bool_decide_eq_true_2 by done. cbn [andb]. unfold when at 1.
  destruct use; [|reflexivity]. cbn [andb].
  fold (running h e x st cs None c).
  unfold try_except, mbind at 1, M_bind at 1. rewrite dict_get_running.
  unfold when at 1. destruct (truthy (field d "linkedin_url")); [|reflexivity].
  intros Hcalm.
  pose proof (Hcalm eq_refl eq_refl) as [[Ho Hs]%andb_prop Hc]%andb_prop. clear Hcalm.
  unfold linkedin_verdict, after, scraper_verdict.
  unfold mbind at 1, M_bind at 1. unfold invoke at 1.
  unfold mbind at 1, M_bind at 1, get_world, set_world. cbn.
  unfold async_with.
  destruct (li_open li) as [eo|]; cbn in *.
  { unfold raise. rewrite Ho. by rewrite (left_id_L ∅ (∪)). }
  unfold mbind at 1, M_bind at 1, lift.
  destruct (li_profile li) as [[r|]|e']; cbn.
  - unfold when. destruct (success r).
    + fold (running h e x st (cs ++ [LINKEDIN]) None c).
      rewrite scraper_update_running. destruct (data r); cbn;
      destruct (li_close li); cbn in *; rewrite ?Hc, ?(left_id_L ∅ (∪)); reflexivity.
    + unfold mret, M_ret. rewrite (left_id_L ∅ (∪)).
      destruct (li_close li); cbn in *; by rewrite ?Hc.
  - unfold mret, M_ret. rewrite (left_id_L ∅ (∪)).
    destruct (li_close li); cbn in *; by rewrite ?Hc.
  - rewrite (left_id_L ∅ (∪)).
    destruct (li_close li); cbn in *; rewrite ?Hc, ?Hs; done.
Qed.

Lemma try_ai_finder_running use answer x st cs src c :
  (src = None → use = true → calm_ai answer = true) →
  try_ai_finder use e answer (running h e x st cs src c)
  = (Ok tt, match src with
            | None =>
                if use then
                  match answer, ai_verdict answer with
                  | Ok res, Win p =>
                      running h e
                        (<["ai_reasoning" := summary res]>
                           (<["alternate_companies" := alternate_companies res]>
                              (<["alternate_emails" := alternate_emails res]> (p ∪ x))))
                        (add_total_cost (cost_usd res) (incr_ai_finder_hits st))
                        (cs ++ [AI_FINDER]) (Some "ai_enriched") (cost_usd res)
                  | _, Win p => running h e x st (cs ++ [AI_FINDER]) None c
                  | _, Miss m => running h e (m ∪ x) st (cs ++ [AI_FINDER]) None c
                  end
                else running h e x st cs None c
            | Some _ => running h e x st cs src c
            end).
Proof.
  unfold try_ai_finder. unfold mbind at 1, M_bind at 1, source_unset.
  unfold mbind at 1, M_bind at 1, get_source. cbn [source running].
  unfold mret at 1, M_ret at 1.
  destruct src as [name|]; [reflexivity|]. cbn [bool_decide decide_rel].
  rewrite bool_decide_eq_true_2 by done. cbn [andb]. unfold when at 1.
  destruct use; [|reflexivity]. intros Hcalm. specialize (Hcalm eq_refl eq_refl).
  unfold calm_ai, ai_verdict in *.
  unfold try_except, mbind at 1, M_bind at 1. unfold invoke at 1.
  unfold mbind at 1, M_bind at 1, get_world, set_world. cbn.
  unfold mbind at 1, M_bind at 1, lift.
  destruct answer as [res|e']; cbn.
  - unfold when. destruct (payload_truthy (enriched_data res)).
    + unfold mbind at 1, M_bind at 1.
      fold (running h e x st (cs ++ [AI_FINDER]) None c). rewrite dict_update_running.
      destruct (enriched_data res) as [p|b m]; cbn; [|reflexivity].
      unfold dict_setitem. unfold mbind, M_bind. rewrite !write_running. reflexivity.
    + unfold mret, M_ret. by rewrite (left_id_L ∅ (∪)).
  - rewrite Hcalm. by rewrite (left_id_L ∅ (∪)).
Qed.

Lemma track_results_running x st cs src c :
  track_results e (running h e x st cs src c)
  = (Ok tt,
     match src with
     | Some name =>
         running h e (<["enrichment_cost" := VFloat c]>
                        (<["enrichment_source" := VStr name]> x))
                 (incr_total_enriched st) cs src c
     | None =>
         running h e (<["enrichment_source" := VNone]> x) (incr_failed st) cs src c
     end).
Proof.
  unfold track_results, running.
  destruct src as [name|]; unfold dict_setitem, write; munfold; cbn;
    rewrite !alter_insert_eq; reflexivity.
Qed.





End running.

Lemma dict_copy_running h lead d st cs src c :
  h !! lead = Some d →
  dict_copy lead (Frame (World h st cs) src c)
  = (Ok (fresh (dom h)), running h (fresh (dom h)) d st cs src c).
Proof. intros Hlead. unfold dict_copy. munfold. cbn. by rewrite Hlead. Qed.

Lemma enrich_lead_refines lead d a l f o h st cs :
  h !! lead = Some d →
  forallb (calm_source o) (plan (stages d a l f o)) = true →
  enrich_lead lead a l f o (World h st cs)
  = (Ok (fresh (dom h)),
     World (<[fresh (dom h) := outcome d a l f o]> h) (count d a l f o st)
           (cs ++ plan (stages d a l f o))).
Proof.
  intros Hlead.
  assert (He : h !! fresh (dom h) = None) by (apply not_elem_of_dom, is_fresh).
  unfold enrich_lead, enrich_lead_body.
  rewrite (bind_ok _ _ _ _ _ (dict_copy_running _ _ _ _ _ _ _ Hlead)).
  set (e := fresh (dom h)) in *.
  rewrite (bind_ok _ _ _ _ _ (dict_get_running h lead e d Hlead He _ _ _ _ _ _)).
  rewrite (bind_ok _ _ _ _ _ (dict_get_running h lead e d Hlead He _ _ _ _ _ _)).
  unfold outcome, count, stages, plan, settle. cbn [stage_eligible stage_verdict stage_source].
  set (cn := field d "company_name"). set (cd := field d "company_domain").
  set (url := field d "linkedin_url").
  pose proof (try_ai_ark_running h e a cn cd (ark o) d st cs fzero) as Hark.
  pose proof (λ x st cs src c, try_linkedin_running h lead e d Hlead He l (linkedin o) x st cs src c) as Hli.
  pose proof (λ x st cs src c, try_ai_finder_running h e f (ai o) x st cs src c) as Hai.
  pose proof (track_results_running h e) as Htr.
  fold url in Hli.
  revert Hark Hli Hai.
  destruct (a && truthy (py_or cn cd)) eqn:Ea; cbn [forallb calm_source];
  [destruct (ark_verdict cn cd (ark o)) as [p1|m1] eqn:Va|];
  (destruct (l && truthy url) eqn:El; cbn [forallb calm_source];
   [destruct (linkedin_verdict (linkedin o)) as [p2|m2] eqn:Vl|]);
  (destruct f; cbn [forallb calm_source];
   [destruct (ai o) as [res|ex] eqn:Hao;
    (destruct (ai_verdict _) as [p3|m3] eqn:Vf; cbn in Vf; try discriminate)|]);
  intros Hark Hli Hai Hcalm; repeat (apply andb_prop in Hcalm as [? Hcalm]);
  unfold after in *;
  (erewrite bind_ok by (apply Hark; done));
  (erewrite bind_ok by (apply Hli; done));
  (erewrite bind_ok by (apply Hai; done));
  (erewrite bind_ok by (apply Htr; done));
  unfold running, extras; cbn; rewrite ?Hao, <- ?app_assoc, ?app_nil_r; try reflexivity.
Qed.

(** *** The caller's store is kept *)

Section keeps.
Context (h0 : gmap loc dict).

Lemma keeps_ret {A} (a : A) : keeps h0 (mret a).
Proof. by intros s. Qed.

Lemma keeps_bind {A B} (m : M A) (k : A → M B) :
  keeps h0 m → (∀ a, keeps h0 (k a)) → keeps h0 (m ≫= k).
Proof.
  intros Hm Hk s Hs. specialize (Hm s Hs). unfold mbind, M_bind.
  destruct (m s) as [[a|e] s']; cbn in *; [by apply Hk|done].
Qed.

Lemma keeps_raise {A} e : keeps h0 (raise (A:=A) e).
Proof. by intros s. Qed.

Lemma keeps_lift {A} (r : result A) : keeps h0 (lift r).
Proof. by intros s. Qed.

Lemma keeps_when b m : keeps h0 m → keeps h0 (when b m).
Proof. destruct b; [done|]. intros _. apply keeps_ret. Qed.

Lemma keeps_try_except m : keeps h0 m → keeps h0 (try_except m).
Proof.
  intros Hm s Hs. specialize (Hm s Hs). unfold try_except.
  destruct (m s) as [[a|e] s']; cbn in *; [done|]. by destruct (is_Exception e).
Qed.

Lemma keeps_async_with {A} open close (m : M A) :
  keeps h0 m → keeps h0 (async_with open close m).
Proof.
  intros Hm. unfold async_with. destruct open; [apply keeps_raise|].
  intros s Hs. specialize (Hm s Hs). destruct (m s) as [r s']. by destruct close.
Qed.

Lemma keeps_get_source : keeps h0 get_source.
Proof. by intros s. Qed.

Lemma keeps_get_cost : keeps h0 get_cost.
Proof. by intros s. Qed.

Lemma keeps_set_source name : keeps h0 (set_source name).
Proof. by intros s. Qed.

Lemma keeps_set_cost c : keeps h0 (set_cost c).
Proof. by intros s. Qed.

Lemma keeps_update_stats f : keeps h0 (update_stats f).
Proof. by intros s. Qed.

Lemma keeps_invoke src : keeps h0 (invoke src).
Proof. by intros s. Qed.

Lemma keeps_source_unset : keeps h0 source_unset.
Proof. by intros s. Qed.

Lemma keeps_dict_get l key : keeps h0 (dict_get l key).
Proof.
  intros s Hs. unfold dict_get, mbind, M_bind, get_world. cbn.
  by destruct (heap (fworld s) !! l).
Qed.

(** Writing to an object that is not the caller's. *)
Lemma keeps_write e f : h0 !! e = None → keeps h0 (write e f).
Proof.
  intros He s Hs. unfold write, mbind, M_bind, get_world, set_world, set_heap. cbn.
  apply map_subseteq_spec. intros i x Hi.
  rewrite lookup_alter_ne by congruence.
  by eapply lookup_weaken.
Qed.

Lemma keeps_dict_setitem e key v : h0 !! e = None → keeps h0 (dict_setitem e key v).
Proof. apply keeps_write. Qed.

Lemma keeps_dict_update e p : h0 !! e = None → keeps h0 (dict_update e p).
Proof.
  intros He. destruct p; cbn; [by apply keeps_write|].
  apply keeps_bind; [by apply keeps_write|]. intros _. apply keeps_raise.
Qed.

End keeps.

Ltac keeps_step :=
  lazymatch goal with
  | |- keeps _ (mbind _ _) => apply keeps_bind; [|intros ?]
  | |- keeps _ (when _ _) => apply keeps_when
  | |- keeps _ (try_except _) => apply keeps_try_except
  | |- keeps _ (async_with _ _ _) => apply keeps_async_with
  | |- keeps _ (mret _) => apply keeps_ret
  | |- keeps _ (raise _) => apply keeps_raise
  | |- keeps _ (lift _) => apply keeps_lift
  | |- keeps _ get_source => apply keeps_get_source
  | |- keeps _ get_cost => apply keeps_get_cost
  | |- keeps _ (set_source _) => apply keeps_set_source
  | |- keeps _ (set_cost _) => apply keeps_set_cost
  | |- keeps _ (update_stats _) => apply keeps_update_stats
  | |- keeps _ (invoke _) => apply keeps_invoke
  | |- keeps _ source_unset => apply keeps_source_unset
  | |- keeps _ (dict_get _ _) => apply keeps_dict_get
  | |- keeps _ (dict_setitem _ _ _) => apply keeps_dict_setitem; assumption
  | |- keeps _ (dict_update _ _) => apply keeps_dict_update; assumption
  | |- keeps _ (match ?x with _ => _ end) => destruct x
  end.

(** The value a computation returns, when it returns. *)
Lemma bind_returns {A B} (m : M A) (k : A → M B) (P : B → Prop) s :
  (∀ a s', match fst (k a s') with Ok b => P b | Raise _ => True end) →
  match fst ((m ≫= k) s) with Ok b => P b | Raise _ => True end.
Proof.
  intros Hk. unfold mbind, M_bind. destruct (m s) as [[a|e] s']; [apply Hk|done].
Qed.

Lemma keeps_steps h0 lead e a l f o cn cd :
  h0 !! e = None →
  keeps h0 (try_ai_ark a e cn cd (ark o);;
            try_linkedin l lead e (linkedin o);;
            try_ai_finder f e (ai o);;
            track_results e;;
            mret e).
Proof.
  intros He. unfold try_ai_ark, try_linkedin, try_ai_finder, track_results.
  repeat keeps_step.
Qed.

Lemma enrich_lead_keeps lead a l f o w :
  heap w ⊆ heap (snd (enrich_lead lead a l f o w)) ∧
  match fst (enrich_lead lead a l f o w) with
  | Ok e => heap w !! e = None
  | Raise _ => True
  end.
Proof.
  destruct (enrich_lead lead a l f o w) as [r w'] eqn:Hrun. cbn [fst snd].
  revert Hrun. unfold enrich_lead, enrich_lead_body.
  unfold mbind at 1, M_bind at 1. unfold dict_copy at 1.
  unfold mbind at 1, M_bind at 1, get_world at 1. cbn [fworld].
  destruct (heap w !! lead) as [d|] eqn:Hlead; [|unfold raise; by intros [= <- <-]].
  unfold mbind at 1, M_bind at 1, set_world at 1, set_heap. cbn [fworld heap stats calls source cost].
  unfold mret at 1, M_ret at 1.
  assert (He : heap w !! fresh (dom (heap w)) = None) by (apply not_elem_of_dom, is_fresh).
  set (e := fresh (dom (heap w))) in *.
  match goal with |- context [(?m ≫= ?k) ?s] =>
    assert (Hk : keeps (heap w) (m ≫= k));
      [|specialize (Hk s);
        pose proof (bind_returns m k (λ b, b = e) s) as Hr;
        destruct ((m ≫= k) s) as [r1 s'] eqn:Hrun] end.
  { apply keeps_bind; [apply keeps_dict_get|]. intros cn.
    apply keeps_bind; [apply keeps_dict_get|]. intros cd.
    by apply keeps_steps. }
  intros [= <- <-]. cbn in *. split; [apply Hk; by apply insert_subseteq|].
  destruct r1 as [e'|]; [|done]. rewrite Hr; [done|].
  intros cn s1. apply bind_returns. intros cd s2.
  do 4 (apply bind_returns; intros ? ?). done.
Qed.

(** C10: [enrich_lead] does not mutate the caller's record. Whatever
    the sources answer and whether the call returns or raises, every object
    of the caller's store, the input record among them, has afterwards the
    keys and values it had before: merged payloads, ["enrichment_source"]
    and ["enrichment_cost"] are written to the copy only, and the dictionary
    returned is that copy, an object that did not exist before the call. *)
Theorem enrich_lead_does_not_mutate_input lead a l f o w :
  heap w ⊆ heap (snd (enrich_lead lead a l f o w)) ∧
  heap (snd (enrich_lead lead a l f o w)) !! lead = heap w !! lead ∧
  match fst (enrich_lead lead a l f o w) with
  | Ok enriched => enriched ≠ lead ∧ heap w !! enriched = None
  | Raise _ => True
  end.
Proof.
  destruct (enrich_lead_keeps lead a l f o w) as [Hsub Hfresh].
  destruct (enrich_lead lead a l f o w) as [r w'] eqn:Hrun. cbn [fst snd] in *.
  split; [done|].
  destruct (heap w !! lead) as [d|] eqn:Hlead.
  - split; [by eapply lookup_weaken|]. destruct r; [|done]. split; [congruence|done].
  - revert Hrun.
    unfold enrich_lead, enrich_lead_body, dict_copy, mbind, M_bind, get_world. cbn.
    rewrite Hlead. unfold raise. by intros [= <- <-].
Qed.

(** *** Only what is outside [Exception] leaves the body *)









(** *** What [enrich_lead] guarantees *)

(** C1: when AI Ark is enabled and tried (the record names a company or
    a domain), its session opens, and [enrich_company] returns results one
    of which has [success = True], then the first result is that success and
    carries a payload, and AI Ark is the only source [enrich_lead] invokes:
    neither LinkedIn nor the AI finder is called, whatever the two other
    toggles are. The dictionary returned is a copy of the record with that
    payload merged in, ["enrichment_source"] set to ["ai_ark"] and
    ["enrichment_cost"] to [0.0], and the AI Ark hit is counted. (There is
    no dictionary returned in one case only: the session's [__aexit__]
    raises outside [Exception]; that exception leaves the call, with no
    other source invoked either.) *)
Theorem primary_success_short_circuits lead d l f o h st cs results :
  h !! lead = Some d →
  truthy (py_or (field d "company_name") (field d "company_domain")) = true →
  ark_open (ark o) = None →
  AIArk.enrich_company (ark_api_key (ark o)) (field d "company_domain")
                       (field d "company_name") 1 (ark_search (ark o)) = Ok results →
  (∃ r, r ∈ results ∧ success r = true) →
  ∃ r p rest,
    results = r :: rest ∧ success r = true ∧ data r = Some p ∧
    calls (snd (enrich_lead lead true l f o (World h st cs))) = cs ++ [AI_ARK] ∧
    (catchable (ark_close (ark o)) = true →
     enrich_lead lead true l f o (World h st cs)
     = (Ok (fresh (dom h)),
        World (<[fresh (dom h) :=
                   <["enrichment_cost" := VFloat fzero]>
                     (<["enrichment_source" := VStr "ai_ark"]> (p ∪ d))]> h)
              (incr_total_enriched (incr_ai_ark_hits st))
              (cs ++ [AI_ARK]))) ∧
    (∀ sig, ark_close (ark o) = Some sig → is_Exception sig = false →
       fst (enrich_lead lead true l f o (World h st cs)) = Raise sig).
Proof.
  intros Hlead Hhint Hopen Hres Hsucc.
  destruct (AIArkFacts.enrich_company_success _ _ _ _ _ _ Hres Hsucc)
    as (r & p & rest & -> & Hs & Hd).
  exists r, p, rest.
  assert (He : h !! fresh (dom h) = None) by (apply not_elem_of_dom, is_fresh).
  assert (Hv : ark_verdict (field d "company_name") (field d "company_domain") (ark o) = Win p).
  { unfold ark_verdict, scraper_verdict. by rewrite Hopen, Hres, Hs, Hd. }
  assert (Hreturns : catchable (ark_close (ark o)) = true →
     enrich_lead lead true l f o (World h st cs)
     = (Ok (fresh (dom h)),
        World (<[fresh (dom h) :=
                   <["enrichment_cost" := VFloat fzero]>
                     (<["enrichment_source" := VStr "ai_ark"]> (p ∪ d))]> h)
              (incr_total_enriched (incr_ai_ark_hits st))
              (cs ++ [AI_ARK]))).
  { intros Hclose. rewrite (enrich_lead_refines lead d true l f o h st cs Hlead).
    - unfold outcome, count, stages, plan, settle, extras.
      cbn [stage_eligible stage_verdict stage_source andb]. rewrite Hhint, Hv. reflexivity.
    - unfold stages, plan. cbn [stage_eligible stage_verdict stage_source andb].
      rewrite Hhint, Hv. cbn. unfold calm_ark.
      rewrite Hopen, (AIArkFacts.enrich_company_ok_calm _ _ _ _ _ _ Hres), Hclose. done. }
  assert (Hsignal : ∀ sig, ark_close (ark o) = Some sig → is_Exception sig = false →
     enrich_lead lead true l f o (World h st cs)
     = (Raise sig,
        World (<[fresh (dom h) := p ∪ d]> h) (incr_ai_ark_hits st) (cs ++ [AI_ARK]))).
  { intros sig Hclose Hsig. unfold enrich_lead, enrich_lead_body.
    rewrite (bind_ok _ _ _ _ _ (dict_copy_running _ _ _ _ _ _ _ Hlead)).
    rewrite (bind_ok _ _ _ _ _ (dict_get_running h lead _ d Hlead He _ _ _ _ _ _)).
    rewrite (bind_ok _ _ _ _ _ (dict_get_running h lead _ d Hlead He _ _ _ _ _ _)).
    rewrite (bind_raise _ _ _ sig
               (running h (fresh (dom h)) (p ∪ d) (incr_ai_ark_hits st) (cs ++ [AI_ARK])
                        (Some "ai_ark") fzero)); [reflexivity|].
    rewrite (try_ai_ark_win h _ _ _ (ark o) r rest p d st cs fzero Hhint Hopen Hres Hs Hd).
    by rewrite Hclose, Hsig. }
  split_and!; try done.
  - destruct (ark_close (ark o)) as [sig|] eqn:Hclose.
    + destruct (is_Exception sig) eqn:Hsig.
      * by rewrite Hreturns.
      * by rewrite (Hsignal sig eq_refl Hsig).
    + by rewrite Hreturns.
  - intros sig Hclose Hsig. by rewrite (Hsignal sig Hclose Hsig).
Qed.

Lemma calm_along o called : calm o = true → forallb (calm_source o) called = true.
Proof.
  unfold calm. intros [[? ?]%andb_prop ?]%andb_prop.
  induction called as [|s called IH]; cbn; [done|]. rewrite IH. by destruct s; cbn; rewrite ?andb_true_r.
Qed.







Lemma ark_verdict_residue cn cd a m : ark_verdict cn cd a = Miss m → m = ∅.
Proof. unfold ark_verdict, scraper_verdict. repeat case_match; congruence. Qed.

Lemma linkedin_verdict_residue li m : linkedin_verdict li = Miss m → m = ∅.
Proof. unfold linkedin_verdict, scraper_verdict. repeat case_match; congruence. Qed.

Lemma all_miss_settle d a l f o :
  all_miss (stages d a l f o) →
  settle (stages d a l f o) d
  = (None, (if f then residue_of (ai_verdict (ai o)) else ∅) ∪ d).
Proof.
  unfold all_miss, stages.
  intros (H1 & (H2 & (H3 & _)%Forall_cons)%Forall_cons)%Forall_cons. cbn in *.
  destruct (a && truthy _).
  { destruct (H1 eq_refl) as [m1 Hm1]. rewrite Hm1.
    apply ark_verdict_residue in Hm1 as ->. rewrite (left_id_L ∅ (∪)).
    destruct (l && truthy _).
    { destruct (H2 eq_refl) as [m2 Hm2]. rewrite Hm2.
      apply linkedin_verdict_residue in Hm2 as ->. rewrite (left_id_L ∅ (∪)).
      destruct f; [|by rewrite (left_id_L ∅ (∪))].
      destruct (H3 eq_refl) as [m3 ->]. done. }
    destruct f; [|by rewrite (left_id_L ∅ (∪))].
    destruct (H3 eq_refl) as [m3 ->]. done. }
  destruct (l && truthy _).
  { destruct (H2 eq_refl) as [m2 Hm2]. rewrite Hm2.
    apply linkedin_verdict_residue in Hm2 as ->. rewrite (left_id_L ∅ (∪)).
    destruct f; [|by rewrite (left_id_L ∅ (∪))].
    destruct (H3 eq_refl) as [m3 ->]. done. }
  destruct f; [|by rewrite (left_id_L ∅ (∪))].
  destruct (H3 eq_refl) as [m3 ->]. done.
Qed.

(** C3, as the code has it: when every enabled and eligible source
    misses (an unsuccessful or empty answer, no payload, or an exception
    deriving from [Exception]), the outcome is the record, plus whatever a
    rejected AI payload had merged, plus ["enrichment_source"] = null. No
    ["enrichment_cost"] is written: the outcome has that key only if the
    record (or such a payload) had it, with that value. The [failed] counter
    grows by exactly one and no other counter changes. *)
Theorem all_sources_miss lead d a l f o h st cs :
  h !! lead = Some d →
  calm o = true →
  all_miss (stages d a l f o) →
  let x := (if f then residue_of (ai_verdict (ai o)) else ∅) ∪ d in
  let out := <["enrichment_source" := VNone]> x in
  enrich_lead lead a l f o (World h st cs)
  = (Ok (fresh (dom h)),
     World (<[fresh (dom h) := out]> h) (incr_failed st) (cs ++ plan (stages d a l f o)))
  ∧ out !! "enrichment_source" = Some VNone
  ∧ out !! "enrichment_cost" = x !! "enrichment_cost"
  ∧ failed (incr_failed st) = failed st + 1
  ∧ ai_ark_hits (incr_failed st) = ai_ark_hits st
  ∧ linkedin_hits (incr_failed st) = linkedin_hits st
  ∧ ai_finder_hits (incr_failed st) = ai_finder_hits st
  ∧ total_enriched (incr_failed st) = total_enriched st
  ∧ total_cost (incr_failed st) = total_cost st.
Proof.
  intros Hlead Hcalm Hmiss x out. split_and!; try reflexivity.
  - rewrite (enrich_lead_refines lead d a l f o h st cs Hlead (calm_along _ _ Hcalm)).
    unfold outcome, count. by rewrite (all_miss_settle _ _ _ _ _ Hmiss).
  - apply lookup_insert_eq.
  - by apply lookup_insert_ne.
Qed.

Import Sample.

(** Every source is down for the Acme record: the outcome is the record
    with a null ["enrichment_source"], and it has no ["enrichment_cost"]. *)
Lemma all_miss_without_cost :
  calm all_down = true ∧
  all_miss (stages acme true true true all_down) ∧
  enrich_lead 1 true true true all_down store
  = (Ok (fresh (dom (heap store))),
     World (<[fresh (dom (heap store)) := <["enrichment_source" := VNone]> acme]> (heap store))
           (incr_failed initial_stats) [AI_ARK; AI_FINDER]) ∧
  (<["enrichment_source" := VNone]> acme) !! "enrichment_cost" = None ∧
  ¬ zero_cost ((<["enrichment_source" := VNone]> acme) !! "enrichment_cost").
Proof.
  split; [reflexivity|]. split.
  { unfold all_miss. repeat constructor; intros _; eexists; reflexivity. }
  split; [by vm_compute|]. split; [reflexivity|].
  intros [H|H]; discriminate H.
Qed.

(** The Acme record when AI Ark finds Jane: her email, source ["ai_ark"],
    cost [0.0]; one AI Ark hit. *)
Example scenario_primary_hit :
  enrich_lead 1 true true true primary_hit store
  = (Ok (fresh (dom (heap store))),
     World (<[fresh (dom (heap store)) :=
                <["enrichment_cost" := VFloat fzero]>
                  (<["enrichment_source" := VStr "ai_ark"]>
                     (<["email" := VStr "jane@acme.com"]> acme))]> (heap store))
           (PStats 1 1 0 0 0 fzero) [AI_ARK]).
Proof. by vm_compute. Qed.

(** The Acme record when AI Ark is unreachable and the AI finder answers:
    LinkedIn is skipped for want of a profile URL, the source is
    ["ai_enriched"], the cost is the finder's [0.0021]; one AI finder hit. *)
Example scenario_ai_fallback :
  enrich_lead 1 true true true ai_fallback store
  = (Ok (fresh (dom (heap store))),
     World (<[fresh (dom (heap store)) :=
                <["enrichment_cost" := VFloat (float_of 4842270319348757 (-61))]>
                  (<["enrichment_source" := VStr "ai_enriched"]>
                     (<["ai_reasoning" := VStr "found on the company site"]>
                        (<["alternate_companies" := VList []]>
                           (<["alternate_emails" := VList []]>
                              (<["email" := VStr "j@acme.com"]> acme)))))]> (heap store))
           (PStats 1 0 0 1 0 (float_of 4842270319348757 (-61))) [AI_ARK; AI_FINDER]).
Proof. by vm_compute. Qed.

(** AI Ark finds Jane for the Acme record. *)
Lemma primary_success_witness :
  heap store !! 1%positive = Some acme ∧
  truthy (py_or (field acme "company_name") (field acme "company_domain")) = true ∧
  ark_open (ark primary_hit) = None ∧
  AIArk.enrich_company (ark_api_key (ark primary_hit)) (field acme "company_domain")
                       (field acme "company_name") 1 (ark_search (ark primary_hit))
  = Ok [Result true (Some jane) None None (Some jane) 0] ∧
  calls (snd (enrich_lead 1 true true true primary_hit
                          (World (heap store) initial_stats []))) = [AI_ARK].
Proof.
  assert (H1 : heap store !! 1%positive = Some acme) by reflexivity.
  assert (H2 : truthy (py_or (field acme "company_name") (field acme "company_domain")) = true)
    by reflexivity.
  assert (H3 : ark_open (ark primary_hit) = None) by reflexivity.
  assert (H4 : AIArk.enrich_company (ark_api_key (ark primary_hit))
                 (field acme "company_domain") (field acme "company_name") 1
                 (ark_search (ark primary_hit))
               = Ok [Result true (Some jane) None None (Some jane) 0]) by reflexivity.
  assert (H5 : ∃ r, r ∈ [Result true (Some jane) None None (Some jane) 0] ∧ success r = true).
  { eexists. split; [apply list_elem_of_here|reflexivity]. }
  destruct (primary_success_short_circuits 1 acme true true primary_hit (heap store)
              initial_stats [] _ H1 H2 H3 H4 H5) as (r & p & rest & _ & _ & _ & Hcalls & _).
  split; [exact H1|]. split; [exact H2|]. split; [exact H3|]. split; [exact H4|exact Hcalls].
Defined.



(** Every source is down for the Acme record. *)
Lemma all_sources_miss_witness :
  heap store !! 1%positive = Some acme ∧
  calm all_down = true ∧
  all_miss (stages acme true true true all_down) ∧
  stats (snd (enrich_lead 1 true true true all_down (World (heap store) initial_stats [])))
  = incr_failed initial_stats.
Proof.
  assert (H1 : heap store !! 1%positive = Some acme) by reflexivity.
  assert (H2 : calm all_down = true) by reflexivity.
  assert (H3 : all_miss (stages acme true true true all_down)).
  { unfold all_miss. repeat constructor; intros _; eexists; reflexivity. }
  destruct (all_sources_miss 1 acme true true true all_down (heap store)
              initial_stats [] H1 H2 H3) as [Hrun _].
  rewrite Hrun. repeat split; assumption || reflexivity.
Defined.
End PipelineFacts.
(** ** The batch *)

Module BatchFacts.
Import Pipeline Waterfall Batch BatchInv.
Import PipelineFacts.

Lemma total_cons w t ts : total w (t :: ts) = (w t + total w ts)%nat.
Proof. reflexivity. Qed.

Lemma total_insert w ts : ∀ i t t',
  ts !! i = Some t →
  (total w (<[i := t']> ts) + w t = total w ts + w t')%nat.
Proof.
  induction ts as [|t0 ts IH]; intros i t t'; [done|].
  destruct i as [|i].
  - intros [= ->]. change (<[0%nat:=t']> (t :: ts)) with (t' :: ts).
    rewrite !total_cons. lia.
  - intros Hi. change (<[S i:=t']> (t0 :: ts)) with (t0 :: <[i:=t']> ts).
    rewrite !total_cons. specialize (IH i t t' Hi). lia.
Qed.

Lemma total_replicate w n t : total w (replicate n t) = (n * w t)%nat.
Proof.
  induction n as [|n IH]; [done|].
  change (replicate (S n) t) with (t :: replicate n t). rewrite total_cons, IH. lia.
Qed.

Section invariant.
Context (h0 : gmap loc dict) (jobs : list job) (c : Z).
Hypothesis Hposed : well_posed h0 jobs.

Lemma start_ok w p0 : h0 = heap w → start jobs c w = Ok p0 → pool_ok h0 jobs c p0.
Proof.
  unfold start. intros -> H. destruct (c <? 0) eqn:Hc; [done|]. injection H as <-.
  unfold pool_ok. cbn [tasks permits pworld raised]. split_and!.
  - apply length_replicate.
  - unfold running_tasks. rewrite total_replicate. cbn. lia.
  - done.
  - done.
  - intros i t [-> _]%lookup_replicate. done.
Qed.

Lemma task_ok_other p p' i t :
  heap (pworld p) ⊆ heap (pworld p') → task_ok h0 jobs p i t → task_ok h0 jobs p' i t.
Proof.
  intros Hsub. destruct t; cbn; try done.
  intros (lead & o & d & ? & ? & ?). exists lead, o, d. split_and!; try done.
  by eapply lookup_weaken.
Qed.

Lemma advance_ok i p : pool_ok h0 jobs c p → pool_ok h0 jobs c (advance jobs i p).
Proof.
  intros (Hlen & Hperm & Hsub & Hraised & Htasks). unfold advance.
  destruct (tasks p !! i) as [t|] eqn:Hi; [|done].
  destruct t; try done.
  - (* a permit is taken *)
    destruct (0 <? permits p) eqn:Hfree; [|done].
    unfold pool_ok. cbn [tasks permits pworld raised heap]. split_and!; try done.
    + by rewrite length_insert.
    + pose proof (total_insert holds_permit _ i _ Running Hi) as Ht.
      unfold running_tasks in *. cbn [holds_permit] in Ht. lia.
    + intros j t Hj. destruct (decide (i = j)) as [<-|Hne].
      * rewrite list_lookup_insert_eq in Hj by (by eapply lookup_lt_Some). by injection Hj as <-.
      * rewrite list_lookup_insert_ne in Hj by done. by apply (Htasks j).
  - (* the orchestration runs *)
    destruct (jobs !! i) as [[lead o]|] eqn:Hjob.
    2: { apply lookup_ge_None in Hjob. apply lookup_lt_Some in Hi. lia. }
    pose proof (proj1 (Forall_lookup _ _) Hposed i _ Hjob) as [[d Hd] Hcalm]. cbn in *.
    assert (Hlead : heap (pworld p) !! lead = Some d) by by eapply lookup_weaken.
    destruct (pworld p) as [h st cs] eqn:Hw. cbn in *.
    rewrite (enrich_lead_refines lead d true true true o h st cs Hlead (calm_along _ _ Hcalm)).
    assert (He : h !! fresh (dom h) = None) by (apply not_elem_of_dom, is_fresh).
    set (e := fresh (dom h)) in *.
    unfold pool_ok. cbn [tasks permits pworld raised heap]. split_and!; try done.
    + by rewrite length_insert.
    + pose proof (total_insert holds_permit _ i _ (Done e) Hi) as Ht.
      unfold running_tasks in *. cbn [holds_permit] in Ht. lia.
    + etrans; [done|]. by apply insert_subseteq.
    + intros j t Hj. destruct (decide (i = j)) as [<-|Hne].
      * rewrite list_lookup_insert_eq in Hj by (by eapply lookup_lt_Some). injection Hj as <-.
        exists lead, o, d. cbn. by rewrite lookup_insert_eq.
      * rewrite list_lookup_insert_ne in Hj by done.
        eapply (task_ok_other p); [|by apply Htasks].
        rewrite Hw. cbn. by apply insert_subseteq.
Qed.

Lemma run_ok schedule : ∀ p, pool_ok h0 jobs c p → pool_ok h0 jobs c (run jobs schedule p).
Proof.
  induction schedule as [|i schedule IH]; intros p Hp; [done|].
  cbn. apply IH. by apply advance_ok.
Qed.

Lemma gathered_ok p r :
  pool_ok h0 jobs c p → gathered p = Some r →
  ∃ ls, r = Ok ls ∧ length ls = length jobs ∧
    ∀ i lead o, jobs !! i = Some (lead, o) →
      ∃ enriched d, ls !! i = Some enriched ∧ h0 !! lead = Some d ∧
                    heap (pworld p) !! enriched = Some (outcome d true true true o).
Proof.
  intros (Hlen & _ & _ & Hraised & Htasks). unfold gathered, results. rewrite Hraised.
  destruct (mapM returned (tasks p)) as [ls|] eqn:Hm; [|done]. intros [= <-].
  apply mapM_Some in Hm. exists ls. split; [done|]. split.
  { by rewrite <- (Forall2_length _ _ _ Hm). }
  intros i lead o Hjob.
  destruct (lookup_lt_is_Some_2 (tasks p) i) as [t Ht].
  { rewrite Hlen. by eapply lookup_lt_Some. }
  destruct (Forall2_lookup_l _ _ _ _ _ Hm Ht) as (enriched & Hls & Hret).
  destruct t; try done. injection Hret as ->.
  destruct (Htasks i _ Ht) as (lead' & o' & d & Hjob' & Hd & Hout).
  rewrite Hjob in Hjob'. injection Hjob' as <- <-. by exists enriched, d.
Qed.



End invariant.

Lemma advance_length jobs i p : length (tasks (advance jobs i p)) = length (tasks p).
Proof.
  unfold advance. repeat case_match; cbn; rewrite ?length_insert; done.
Qed.

Lemma run_length jobs schedule : ∀ p, length (tasks (run jobs schedule p)) = length (tasks p).
Proof.
  induction schedule as [|i schedule IH]; intros p; [done|].
  change (run jobs (i :: schedule) p) with (run jobs schedule (advance jobs i p)).
  by rewrite IH, advance_length.
Qed.





Lemma remaining_zero ts t i : remaining ts = 0%nat → ts !! i = Some t → weight t = 0%nat.
Proof.
  unfold remaining. revert i. induction ts as [|t0 ts IH]; intros i; [done|].
  rewrite total_cons. intros H0. destruct i as [|i]; cbn.
  - intros [= <-]. lia.
  - apply IH. lia.
Qed.



Lemma run_cons jobs i schedule p :
  run jobs (i :: schedule) p = run jobs schedule (advance jobs i p).
Proof. reflexivity. Qed.


Section raised.
Context (jobs : list job).




End raised.


Import Sample.




End BatchFacts.

(** * Further properties of the code *)

Module RetryFacts.
Import Scraper.

Ltac attempts outs :=
  unfold _make_request, max_attempt_number; cbn [Nat.sub retrying];
  unfold make_request_once;
  destruct (outs 1%nat) as [a1|r1|e1] eqn:H1; cbn;
  [rewrite (ScraperFacts.acquire_not_retried a1); cbn| |
   destruct (is_Exception e1) eqn:Hx1; cbn;
    (destruct (retryable e1) eqn:Hr1; cbn;
     [destruct (outs 2%nat) as [a2|r2|e2] eqn:H2; cbn;
      [rewrite (ScraperFacts.acquire_not_retried a2); cbn| |
       destruct (is_Exception e2) eqn:Hx2; cbn;
        (destruct (retryable e2) eqn:Hr2; cbn;
         [destruct (outs 3%nat) as [a3|r3|e3] eqn:H3; cbn;
          [rewrite (ScraperFacts.acquire_not_retried a3); cbn| |
           destruct (is_Exception e3) eqn:Hx3; cbn;
            destruct (retryable e3) eqn:Hr3; cbn]|])]|])];
  try match goal with
      | Hx : is_Exception ?e = false, Hr : retryable ?e = true |- _ =>
          rewrite (ScraperFacts.retryable_is_Exception _ Hr) in Hx; discriminate Hx
      end.

(** X1: whatever its attempts come to, a call of [_make_request] makes
    at least one and at most three attempts, sleeps exactly 2 seconds
    between two consecutive attempts, retries only after a transient
    failure, and counts at most one successful request. *)
Theorem make_request_attempts_and_waits outs s :
  let t := _make_request outs s in
  (1 ≤ attempts_made t ≤ 3)%nat ∧
  waits t = replicate (attempts_made t - 1) 2 ∧
  (∀ k, (1 ≤ k < attempts_made t)%nat → transient (outs k)) ∧
  successful_requests s ≤ successful_requests (stats_after t) ≤ successful_requests s + 1.
Proof.
  attempts outs; (split_and!; [lia|lia|reflexivity| |lia|lia]);
    intros k Hk;
    try (exfalso; lia);
    (assert (k = 1 ∨ k = 2)%nat as [->| ->] by lia; try (exfalso; lia));
    first [rewrite H1|rewrite H2]; cbn; done.
Qed.


(** X2: when [_make_request] returns a response, it is the response of
    the last attempt made; every earlier attempt failed with an error the
    decorator retries on, and was counted: one successful request, and one
    failed request with its message for each earlier attempt. *)
Theorem response_comes_from_last_attempt outs s r :
  outcome (_make_request outs s) = Ok r →
  let t := _make_request outs s in
  outs (attempts_made t) = Responded r ∧
  (∀ k, (1 ≤ k < attempts_made t)%nat → transient (outs k)) ∧
  successful_requests (stats_after t) = successful_requests s + 1 ∧
  failed_requests (stats_after t) = failed_requests s + Z.of_nat (attempts_made t) - 1 ∧
  length (errors (stats_after t)) = (length (errors s) + attempts_made t - 1)%nat.
Proof.
  attempts outs; intros [= <-]; rewrite ?length_app; cbn;
    split_and!; try done; try lia;
    try (intros k Hk; try (exfalso; lia);
    (assert (k = 1 ∨ k = 2)%nat as [->| ->] by lia; try (exfalso; lia));
    first [rewrite H1|rewrite H2]; cbn; done).
Qed.

(** X3: an exception of the first attempt that is neither an
    [httpx.HTTPError] nor an [asyncio.TimeoutError] is not retried: the
    call raises that exception itself after one attempt and no wait. When
    the exception comes from the request, one request is counted, and
    counted as failed with its message when it is an [Exception]; when it
    comes from [rate_limiter.acquire()], which runs before the request is
    counted, the statistics are left as they were. *)
Theorem other_exceptions_are_not_retried outs s :
  let t := _make_request outs s in
  (∀ e, outs 1%nat = RequestRaises e → retryable e = false →
     outcome t = Raise e ∧ attempts_made t = 1%nat ∧ waits t = [] ∧
     total_requests (stats_after t) = total_requests s + 1 ∧
     successful_requests (stats_after t) = successful_requests s ∧
     (is_Exception e = true →
      failed_requests (stats_after t) = failed_requests s + 1 ∧
      errors (stats_after t) = errors s ++ [str_of_exn e]) ∧
     (is_Exception e = false →
      failed_requests (stats_after t) = failed_requests s ∧
      errors (stats_after t) = errors s)) ∧
  (∀ a, outs 1%nat = AcquireRaises a →
     outcome t = Raise (exn_of_acquire a) ∧ attempts_made t = 1%nat ∧ waits t = [] ∧
     stats_after t = s).
Proof.
  unfold _make_request, max_attempt_number. cbn [Nat.sub retrying]. split.
  - intros e H1 Hr. unfold make_request_once. rewrite H1.
    destruct (is_Exception e) eqn:Hx; cbn; rewrite Hr; cbn; split_and!; done.
  - intros a H1. unfold make_request_once. rewrite H1.
    rewrite (ScraperFacts.acquire_not_retried a). done.
Qed.

(** X4: when all three attempts fail with an error the decorator
    retries on, the call gives up with the decorator's [RetryError] (an
    [Exception]) after three attempts and two waits of 2 seconds; the
    statistics gain three requests, all failed, with the three messages in
    order, and no successful request. *)
Theorem three_transient_failures_give_up outs s :
  transient (outs 1%nat) → transient (outs 2%nat) → transient (outs 3%nat) →
  let t := _make_request outs s in
  (∃ e, outcome t = Raise e ∧ exn_cls e = RetryError ∧ is_Exception e = true) ∧
  attempts_made t = 3%nat ∧ waits t = [2; 2] ∧
  total_requests (stats_after t) = total_requests s + 3 ∧
  failed_requests (stats_after t) = failed_requests s + 3 ∧
  successful_requests (stats_after t) = successful_requests s ∧
  errors (stats_after t)
  = errors s ++ [failure_message (outs 1%nat); failure_message (outs 2%nat);
                 failure_message (outs 3%nat)].
Proof.
  unfold transient. intros T1 T2 T3.
  destruct (outs 1%nat) as [| |e1] eqn:H1; [done..|].
  destruct (outs 2%nat) as [| |e2] eqn:H2; [done..|].
  destruct (outs 3%nat) as [| |e3] eqn:H3; [done..|].
  unfold _make_request, max_attempt_number. cbn [Nat.sub retrying].
  unfold make_request_once. rewrite H1. 
  rewrite (ScraperFacts.retryable_is_Exception _ T1). cbn. rewrite T1.
  rewrite H2. rewrite (ScraperFacts.retryable_is_Exception _ T2). cbn. rewrite T2.
  rewrite H3. rewrite (ScraperFacts.retryable_is_Exception _ T3). cbn. rewrite T3. cbn.
  split_and!; try done; try lia.
  - eexists; split_and!; done.
  - by rewrite <- !app_assoc.
Qed.

Lemma response_comes_from_last_attempt_witness :
  outcome (_make_request Sample.failing_then_ok new_stats) = Ok (Response 200 "{}") ∧
  Sample.failing_then_ok (attempts_made (_make_request Sample.failing_then_ok new_stats))
  = Responded (Response 200 "{}").
Proof.
  split; [reflexivity|].
  exact (proj1 (response_comes_from_last_attempt Sample.failing_then_ok new_stats
                  (Response 200 "{}") eq_refl)).
Defined.

Lemma three_transient_failures_witness :
  transient (Fixtures.always_timeout 1%nat) ∧
  transient (Fixtures.always_timeout 2%nat) ∧
  transient (Fixtures.always_timeout 3%nat) ∧
  attempts_made (_make_request Fixtures.always_timeout new_stats) = 3%nat ∧
  failed_requests (stats_after (_make_request Fixtures.always_timeout new_stats)) = 3.
Proof.
  split_and!; [reflexivity..| |].
  - exact (proj1 (proj2 (three_transient_failures_give_up Fixtures.always_timeout new_stats
                           eq_refl eq_refl eq_refl))).
  - exact (proj1 (proj2 (proj2 (proj2 (proj2
             (three_transient_failures_give_up Fixtures.always_timeout new_stats
                eq_refl eq_refl eq_refl)))))).
Defined.

(** What every call costs at most, and what it costs when no attempt
    gets through. *)
Lemma make_request_bounds outs s :
  let t := _make_request outs s in
  total_requests s ≤ total_requests (stats_after t) ≤ total_requests s + 3 ∧
  0 ≤ foldr Z.add 0 (waits t) ≤ 4.
Proof.
  attempts outs;
    change (wait_exponential 1) with 2; change (wait_exponential 2) with 2; lia.
Qed.

Lemma make_request_outcome outs s s' :
  outcome (_make_request outs s) = outcome (_make_request outs s').
Proof. attempts outs; reflexivity. Qed.

Lemma make_request_gives_up outs s :
  (∀ k, transient (outs k)) →
  let t := _make_request outs s in
  (∃ e, outcome t = Raise e ∧ is_Exception e = true) ∧
  total_requests (stats_after t) = total_requests s + 3 ∧
  foldr Z.add 0 (waits t) = 4.
Proof.
  intros Hall. pose proof (Hall 1%nat) as T1. pose proof (Hall 2%nat) as T2.
  pose proof (Hall 3%nat) as T3. revert T1 T2 T3. unfold transient.
  attempts outs; try done; try congruence; intros _ _ _;
    change (wait_exponential 1) with 2; change (wait_exponential 2) with 2;
    (split; [by eexists|]); lia.
Qed.

End RetryFacts.

Module ScrapeFacts.
Import Scraper AIArk Observed.

Lemma collect_in_order leads : ∀ rs0 rs,
  collect leads rs0 = (rs, None) → rs = rs0 ++ omap built_from leads.
Proof.
  induction leads as [|l leads IH]; intros rs0 rs; cbn.
  - intros [= <-]. by rewrite app_nil_r.
  - unfold built_from at 1. destruct (parsed l) as [e|d].
    + destruct (is_Exception e); [apply IH|done].
    + intros H. apply IH in H. by rewrite H, <- app_assoc.
Qed.

Lemma built_from_shape leads :
  (length (omap built_from leads) ≤ length leads)%nat ∧
  Forall (λ r, success r = true ∧ is_Some (data r) ∧ error r = None) (omap built_from leads).
Proof.
  induction leads as [|l leads [IHl IHf]]; cbn; [split; [lia|constructor]|].
  destruct (built_from l) as [r|] eqn:Hb; cbn; [|split; [lia|done]].
  split; [lia|]. constructor; [|done].
  unfold built_from in Hb. destruct (parsed l); [done|].
  injection Hb as <-. cbn. eauto.
Qed.

(** X5: [AIArkScraper.scrape] answers in one of three ways. From a
    response it returns one successful result for each lead that parses,
    in the order of the response, each with its data and no error; a lead
    that does not parse is left out. When the request raises an
    [Exception] it returns one unsuccessful result that carries the
    message. It raises only for a missing API key, or what is outside
    [Exception]. *)
Theorem scrape_outcomes key :
  (∀ leads rs, scrape key (PostLeads leads) = Ok rs →
     rs = omap built_from leads ∧ (length rs ≤ length leads)%nat ∧
     Forall (λ r, success r = true ∧ is_Some (data r) ∧ error r = None) rs) ∧
  (∀ e rs, scrape key (PostRaises e) = Ok rs →
     rs = [Result false None (Some (str_of_exn e)) None None 0]) ∧
  (∀ search e, scrape key search = Raise e →
     (key_present key = false ∧ e = ValueError "AI Ark API key is required") ∨
     is_Exception e = false).
Proof.
  split_and!.
  - intros leads rs. unfold scrape. destruct (key_present key); [|done]. cbn.
    destruct (collect leads []) as [rs' [e|]] eqn:Hc.
    + destruct (is_Exception e) eqn:He; [|done].
      by rewrite (AIArkFacts.collect_escaped _ _ _ _ Hc) in He.
    + intros [= <-]. apply collect_in_order in Hc. cbn in Hc. subst rs'.
      pose proof (built_from_shape leads) as [??]. done.
  - intros e rs. unfold scrape. destruct (key_present key); [|done]. cbn.
    destruct (is_Exception e); [|done]. by intros [= <-].
  - intros search e. unfold scrape. destruct (key_present key); cbn.
    + destruct search as [e0|leads].
      * destruct (is_Exception e0) eqn:He; [done|]. intros [= <-]. by right.
      * destruct (collect leads []) as [rs' [e0|]] eqn:Hc; [|done].
        destruct (is_Exception e0) eqn:He; [done|]. intros [= <-]. by right.
    + intros [= <-]. by left.
Qed.

End ScrapeFacts.

Module WaterfallFacts.
Import Scraper Pipeline Waterfall Observed PipelineFacts.

Section calls_within.

Lemma within_nothing {A} (m : M A) allowed :
  (∀ s, calls (fworld (snd (m s))) = calls (fworld s)) → calls_within allowed m.
Proof. intros H s. exists []. rewrite app_nil_r. split; [apply H|apply sublist_nil_l]. Qed.

Lemma within_bind {A B} (m : M A) (k : A → M B) a1 a2 :
  calls_within a1 m → (∀ a, calls_within a2 (k a)) → calls_within (a1 ++ a2) (m ≫= k).
Proof.
  intros Hm Hk s. destruct (Hm s) as (c1 & E1 & S1). unfold mbind, M_bind.
  destruct (m s) as [[a|e] s']; cbn in *.
  - destruct (Hk a s') as (c2 & E2 & S2). exists (c1 ++ c2).
    rewrite E2, E1, <- app_assoc. split; [done|by apply sublist_app].
  - exists c1. split; [done|]. by apply sublist_inserts_r.
Qed.

Lemma within_seq {A B} (m : M A) (k : A → M B) allowed :
  calls_within [] m → (∀ a, calls_within allowed (k a)) → calls_within allowed (m ≫= k).
Proof. intros Hm Hk. by apply (within_bind m k [] allowed). Qed.

Lemma within_then {A B} (m : M A) (k : A → M B) allowed :
  calls_within allowed m → (∀ a, calls_within [] (k a)) → calls_within allowed (m ≫= k).
Proof.
  intros Hm Hk. rewrite <- (app_nil_r allowed). by apply within_bind.
Qed.

Lemma within_when b m allowed : calls_within allowed m → calls_within allowed (when b m).
Proof.
  destruct b; [done|]. intros _. by apply within_nothing.
Qed.

Lemma within_try_except m allowed :
  calls_within allowed m → calls_within allowed (try_except m).
Proof.
  intros Hm s. destruct (Hm s) as (c & E & S). exists c. split; [|done].
  unfold try_except. destruct (m s) as [[a|e] s']; cbn in *; [done|].
  by destruct (is_Exception e).
Qed.

Lemma within_async_with {A} open close (m : M A) allowed :
  calls_within allowed m → calls_within allowed (async_with open close m).
Proof.
  intros Hm. unfold async_with. destruct open; [by apply within_nothing|].
  intros s. destruct (Hm s) as (c & E & S). exists c. split; [|done].
  destruct (m s) as [r s']. by destruct close.
Qed.

Lemma within_invoke src : calls_within [src] (invoke src).
Proof. intros s. exists [src]. by split. Qed.

Lemma within_write e f allowed : calls_within allowed (write e f).
Proof. by apply within_nothing. Qed.

Lemma within_dict_update e p allowed : calls_within allowed (dict_update e p).
Proof. apply within_nothing. intros s. by destruct p. Qed.

Lemma within_dict_get l key allowed : calls_within allowed (dict_get l key).
Proof.
  apply within_nothing. intros s. unfold dict_get, mbind, M_bind, get_world. cbn.
  by destruct (heap (fworld s) !! l).
Qed.

Lemma within_dict_copy l allowed : calls_within allowed (dict_copy l).
Proof.
  apply within_nothing. intros s. unfold dict_copy, mbind, M_bind, get_world. cbn.
  by destruct (heap (fworld s) !! l).
Qed.

Lemma within_track_results e allowed : calls_within allowed (track_results e).
Proof.
  apply within_nothing. intros s. unfold track_results, dict_setitem, write.
  unfold update_stats, mbind, M_bind, get_source, get_cost, get_world, set_world.
  cbn. by destruct (source s).
Qed.

End calls_within.

Ltac within_step :=
  lazymatch goal with
  | |- calls_within _ (mbind _ _) => apply within_seq; [|intros ?]
  | |- calls_within _ (when _ _) => apply within_when
  | |- calls_within _ (try_except _) => apply within_try_except
  | |- calls_within _ (async_with _ _ _) => apply within_async_with
  | |- calls_within _ (dict_update _ _) => apply within_dict_update
  | |- calls_within _ (dict_setitem _ _ _) => apply within_write
  | |- calls_within _ (dict_get _ _) => apply within_dict_get
  | |- calls_within _ (match ?x with _ => _ end) => destruct x
  | |- calls_within _ _ => by apply within_nothing
  end.

Ltac within_quiet := repeat within_step.

Lemma try_ai_ark_within (use : bool) e cn cd a :
  calls_within (if use then [AI_ARK] else []) (try_ai_ark use e cn cd a).
Proof.
  unfold try_ai_ark. destruct use; cbn [andb].
  - apply within_when, within_try_except.
    apply (within_bind _ _ [AI_ARK] []); [apply within_invoke|intros _].
    apply within_async_with. within_quiet.
  - by apply within_nothing.
Qed.

Lemma try_linkedin_within (use : bool) lead e li :
  calls_within (if use then [LINKEDIN] else []) (try_linkedin use lead e li).
Proof.
  unfold try_linkedin. apply within_seq; [by apply within_nothing|intros unset].
  destruct use; [|rewrite andb_false_r; by apply within_nothing].
  apply within_when, within_try_except.
  apply within_seq; [apply within_dict_get|intros url]. apply within_when.
  apply (within_bind _ _ [LINKEDIN] []); [apply within_invoke|intros _].
  apply within_async_with. within_quiet.
Qed.

Lemma try_ai_finder_within (use : bool) e answer :
  calls_within (if use then [AI_FINDER] else []) (try_ai_finder use e answer).
Proof.
  unfold try_ai_finder. apply within_seq; [by apply within_nothing|intros unset].
  destruct use; [|rewrite andb_false_r; by apply within_nothing].
  apply within_when, within_try_except.
  apply (within_bind _ _ [AI_FINDER] []); [apply within_invoke|intros _].
  within_quiet.
Qed.

(** X6: whatever the record, the toggles and the answers of the sources
    (exceptions of every kind included), [enrich_lead] calls only sources
    that are switched on, each at most once, and in the order AI Ark,
    LinkedIn, AI finder. *)
Theorem sources_called_in_priority_order lead a l f o w :
  ∃ called,
    calls (snd (enrich_lead lead a l f o w)) = calls w ++ called ∧
    sublist called (enabled_sources a l f) ∧
    sublist called [AI_ARK; LINKEDIN; AI_FINDER].
Proof.
  assert (Hbody : calls_within (enabled_sources a l f) (enrich_lead_body lead a l f o)).
  { unfold enrich_lead_body, enabled_sources.
    apply within_seq; [apply within_dict_copy|intros e].
    apply within_seq; [apply within_dict_get|intros cn].
    apply within_seq; [apply within_dict_get|intros cd].
    apply within_bind; [apply try_ai_ark_within|intros _].
    apply within_bind; [apply try_linkedin_within|intros _].
    apply within_then; [apply try_ai_finder_within|intros _].
    apply within_seq; [apply within_track_results|intros _].
    by apply within_nothing. }
  destruct (Hbody (Frame w None fzero)) as (called & E & S).
  exists called. unfold enrich_lead.
  destruct (enrich_lead_body lead a l f o (Frame w None fzero)) as [r s]. cbn in *.
  split_and!; [done..|].
  etrans; [exact S|]. unfold enabled_sources.
  destruct a, l, f; cbn; repeat first [apply sublist_skip|apply sublist_cons|apply sublist_nil_l|reflexivity].
Qed.

Ltac lookups :=
  repeat first [rewrite lookup_insert_eq | rewrite lookup_insert_ne by done].

(** X7: when the sources raise [Exception]s only, a call of [enrich_lead]
    adds exactly one to [total_enriched + failed] and keeps the difference
    between the three hit counters and [total_enriched]; the record's
    ["enrichment_source"] is null exactly when [failed] grew, and names a
    source exactly when the hit counter of that source grew. *)
Theorem counters_account_for_every_record lead d a l f o h st cs :
  h !! lead = Some d → calm o = true →
  ∃ e out st' cs',
    enrich_lead lead a l f o (World h st cs) = (Ok e, World (<[e := out]> h) st' cs') ∧
    total_enriched st' + failed st' = total_enriched st + failed st + 1 ∧
    hits st' - total_enriched st' = hits st - total_enriched st ∧
    (out !! "enrichment_source" = Some VNone ↔ failed st' = failed st + 1) ∧
    (out !! "enrichment_source" = Some (VStr "ai_ark")
     ↔ ai_ark_hits st' = ai_ark_hits st + 1) ∧
    (out !! "enrichment_source" = Some (VStr "linkedin")
     ↔ linkedin_hits st' = linkedin_hits st + 1) ∧
    (out !! "enrichment_source" = Some (VStr "ai_enriched")
     ↔ ai_finder_hits st' = ai_finder_hits st + 1).
Proof.
  intros Hlead Hcalm.
  rewrite (enrich_lead_refines lead d a l f o h st cs Hlead (calm_along o _ Hcalm)).
  eexists _, _, _, _. split; [reflexivity|].
  unfold hits, outcome, count.
  destruct (settle (stages d a l f o) d) as [[s|] x]; cbn [fst snd].
  - destruct (extras o s x) as [x' c]. lookups.
    destruct s; cbn; (split_and!; [lia|lia|split; intros; first [lia|done]..]).
  - lookups. cbn. (split_and!; [lia|lia|split; intros; first [lia|done]..]).
Qed.

Lemma ai_finder_wins d a l f o x :
  settle (stages d a l f o) d = (Some AI_FINDER, x) →
  ∃ res, ai o = Ok res ∧ payload_truthy (enriched_data res) = true.
Proof.
  unfold stages, settle; cbn [stage_eligible stage_verdict stage_source].
  destruct (a && _); [destruct (ark_verdict _ _ _); [done|]|];
    (destruct (l && _); [destruct (linkedin_verdict _); [done|]|]);
    (destruct f; [|done]);
    unfold ai_verdict; (destruct (ai o) as [res|]; [|done]);
    (destruct (payload_truthy (enriched_data res)) eqn:Hp; [|done]); eauto.
Qed.

(** X8: when the sources raise [Exception]s only, [total_cost] grows in
    a call of [enrich_lead] only if the AI finder won, and then by the
    ["cost_usd"] of its answer, which is also the record's
    ["enrichment_cost"]; otherwise [total_cost] is unchanged, whether or
    not the AI finder was called, and a record won by AI Ark or LinkedIn
    has an ["enrichment_cost"] of [0.0]. *)
Theorem cost_is_charged_for_ai_hits_only lead d a l f o h st cs :
  h !! lead = Some d → calm o = true →
  ∃ e out st' cs',
    enrich_lead lead a l f o (World h st cs) = (Ok e, World (<[e := out]> h) st' cs') ∧
    ((∃ res, ai o = Ok res ∧
             out !! "enrichment_source" = Some (VStr "ai_enriched") ∧
             out !! "enrichment_cost" = Some (VFloat (cost_usd res)) ∧
             total_cost st' = fadd (total_cost st) (cost_usd res))
     ∨ (out !! "enrichment_source" ≠ Some (VStr "ai_enriched") ∧
        total_cost st' = total_cost st ∧
        (out !! "enrichment_source" = Some VNone
         ∨ out !! "enrichment_cost" = Some (VFloat fzero)))).
Proof.
  intros Hlead Hcalm.
  rewrite (enrich_lead_refines lead d a l f o h st cs Hlead (calm_along o _ Hcalm)).
  eexists _, _, _, _. split; [reflexivity|].
  unfold outcome, count.
  destruct (settle (stages d a l f o) d) as [[s|] x] eqn:Hs; cbn [fst snd].
  - destruct s.
    + right. cbn. lookups. split_and!; [done|done|by right].
    + right. cbn. lookups. split_and!; [done|done|by right].
    + left. destruct (ai_finder_wins _ _ _ _ _ _ Hs) as (res & Hres & _).
      exists res. unfold extras. rewrite Hres. lookups. by cbn.
  - right. lookups. split_and!; [done|done|by left].
Qed.

(** X9: when AI Ark is off or the record has neither company name nor
    domain, LinkedIn is off or the record has no profile URL, and the AI
    finder is off, [enrich_lead] calls no source, whatever the sources
    would answer: it returns the copy with a null ["enrichment_source"]
    (and nothing else added) and adds one to [failed]. *)
Theorem no_eligible_source_no_call lead d a l f o h st cs :
  h !! lead = Some d →
  a && truthy (py_or (field d "company_name") (field d "company_domain")) = false →
  l && truthy (field d "linkedin_url") = false →
  f = false →
  enrich_lead lead a l f o (World h st cs)
  = (Ok (fresh (dom h)),
     World (<[fresh (dom h) := <["enrichment_source" := VNone]> d]> h) (incr_failed st) cs).
Proof.
  intros Hlead Ea El ->.
  rewrite (enrich_lead_refines lead d a l false o h st cs Hlead).
  - unfold outcome, count, stages, settle, plan.
    cbn [stage_eligible stage_verdict stage_source]. rewrite Ea, El. cbn.
    by rewrite app_nil_r.
  - unfold stages, plan. cbn [stage_eligible stage_verdict stage_source].
    by rewrite Ea, El.
Qed.

(** X10: when AI Ark is not called or misses and LinkedIn returns a
    successful profile, [enrich_lead] does not call the AI finder, whatever
    it would answer: the result is the record with the profile's data
    merged over it, source ["linkedin"] and cost [0.0]; [linkedin_hits]
    and [total_enriched] grow by one. *)
Theorem linkedin_success_stops_waterfall lead d a f o h st cs r p :
  h !! lead = Some d →
  (a && truthy (py_or (field d "company_name") (field d "company_domain")) = true →
   calm_ark (ark o) = true ∧
   ∃ m, ark_verdict (field d "company_name") (field d "company_domain") (ark o) = Miss m) →
  truthy (field d "linkedin_url") = true →
  li_open (linkedin o) = None →
  li_profile (linkedin o) = Ok (Some r) →
  success r = true → data r = Some p →
  catchable (li_close (linkedin o)) = true →
  enrich_lead lead a true f o (World h st cs)
  = (Ok (fresh (dom h)),
     World (<[fresh (dom h) :=
                <["enrichment_cost" := VFloat fzero]>
                  (<["enrichment_source" := VStr "linkedin"]> (p ∪ d))]> h)
           (incr_total_enriched (incr_linkedin_hits st))
           (cs ++ (if a && truthy (py_or (field d "company_name") (field d "company_domain"))
                   then [AI_ARK] else []) ++ [LINKEDIN])).
Proof.
  intros Hlead Hark Hurl Hopen Hprof Hr Hp Hclose.
  assert (Vl : linkedin_verdict (linkedin o) = Win p).
  { unfold linkedin_verdict, scraper_verdict. by rewrite Hopen, Hprof, Hr, Hp. }
  assert (Cl : calm_linkedin (linkedin o) = true).
  { unfold calm_linkedin. by rewrite Hopen, Hprof, Hclose. }
  rewrite (enrich_lead_refines lead d a true f o h st cs Hlead).
  - unfold outcome, count, stages, settle, plan.
    cbn [stage_eligible stage_verdict stage_source]. rewrite Hurl, Vl.
    destruct (a && _) eqn:Ea; cbn [andb fst snd].
    + destruct (Hark eq_refl) as (_ & m & Hm). rewrite Hm.
      apply PipelineFacts.ark_verdict_residue in Hm as ->.
      unfold extras. by rewrite (left_id_L ∅ (∪)).
    + done.
  - unfold stages, plan. cbn [stage_eligible stage_verdict stage_source].
    rewrite Hurl, Vl. destruct (a && _) eqn:Ea; cbn [andb forallb calm_source].
    + destruct (Hark eq_refl) as (Ca & m & ->). cbn. by rewrite Ca, Cl.
    + by rewrite Cl.
Qed.

(** X11: when the earlier sources are not called or miss and the AI
    finder answers with a non-empty ["enriched_data"], the result is the
    record with that data merged over it, then ["alternate_emails"],
    ["alternate_companies"] and ["ai_reasoning"] taken from the answer
    (not from the data), source ["ai_enriched"] and the answer's cost;
    [ai_finder_hits] and [total_enriched] grow by one and [total_cost] by
    the cost. *)
Theorem ai_finder_success_is_recorded lead d a l o h st cs res p :
  h !! lead = Some d →
  (a && truthy (py_or (field d "company_name") (field d "company_domain")) = true →
   calm_ark (ark o) = true ∧
   ∃ m, ark_verdict (field d "company_name") (field d "company_domain") (ark o) = Miss m) →
  (l && truthy (field d "linkedin_url") = true →
   calm_linkedin (linkedin o) = true ∧ ∃ m, linkedin_verdict (linkedin o) = Miss m) →
  ai o = Ok res → enriched_data res = PDict p → p ≠ ∅ →
  let out :=
    <["enrichment_cost" := VFloat (cost_usd res)]>
      (<["enrichment_source" := VStr "ai_enriched"]>
         (<["ai_reasoning" := summary res]>
            (<["alternate_companies" := alternate_companies res]>
               (<["alternate_emails" := alternate_emails res]> (p ∪ d))))) in
  enrich_lead lead a l true o (World h st cs)
  = (Ok (fresh (dom h)),
     World (<[fresh (dom h) := out]> h)
           (incr_total_enriched (add_total_cost (cost_usd res) (incr_ai_finder_hits st)))
           (cs ++ (if a && truthy (py_or (field d "company_name") (field d "company_domain"))
                   then [AI_ARK] else [])
               ++ (if l && truthy (field d "linkedin_url") then [LINKEDIN] else [])
               ++ [AI_FINDER]))
  ∧ out !! "enrichment_source" = Some (VStr "ai_enriched")
  ∧ out !! "alternate_emails" = Some (alternate_emails res)
  ∧ out !! "alternate_companies" = Some (alternate_companies res)
  ∧ out !! "ai_reasoning" = Some (summary res)
  ∧ ∀ k v, p !! k = Some v →
      k ∉ ["enrichment_cost"; "enrichment_source"; "ai_reasoning";
           "alternate_companies"; "alternate_emails"] →
      out !! k = Some v.
Proof.
  intros Hlead Hark Hli Hai Hdata Hp out.
  assert (Vf : ai_verdict (ai o) = Win p).
  { unfold ai_verdict. rewrite Hai, Hdata. cbn. by rewrite bool_decide_eq_false_2. }
  split_and!.
  - rewrite (enrich_lead_refines lead d a l true o h st cs Hlead).
    + unfold outcome, count, stages, settle, plan.
      cbn [stage_eligible stage_verdict stage_source]. rewrite Vf.
      destruct (a && _) eqn:Ea; cbn [andb fst snd];
        [destruct (Hark eq_refl) as (_ & m1 & Hm1); rewrite Hm1;
         apply PipelineFacts.ark_verdict_residue in Hm1 as ->|];
        (destruct (l && _) eqn:El; cbn [andb fst snd];
         [destruct (Hli eq_refl) as (_ & m2 & Hm2); rewrite Hm2;
          apply PipelineFacts.linkedin_verdict_residue in Hm2 as ->|]);
        unfold extras; rewrite Hai, ?(left_id_L ∅ (∪)); reflexivity.
    + unfold stages, plan. cbn [stage_eligible stage_verdict stage_source].
      rewrite Vf.
      destruct (a && _) eqn:Ea; cbn [andb forallb calm_source];
        [destruct (Hark eq_refl) as (Ca & m1 & ->); rewrite Ca|];
        (destruct (l && _) eqn:El; cbn [andb forallb calm_source];
         [destruct (Hli eq_refl) as (Cl & m2 & ->); rewrite Cl|]);
        cbn; by rewrite Hai.
  - unfold out. by lookups.
  - unfold out. by lookups.
  - unfold out. by lookups.
  - unfold out. by lookups.
  - intros k v Hk Hn. unfold out.
    rewrite !not_elem_of_cons in Hn. destruct Hn as (? & ? & ? & ? & ? & _).
    rewrite !lookup_insert_ne by done.
    by apply lookup_union_Some_l.
Qed.

Import Sample Fixtures.

Lemma counters_witness :
  heap store !! 1%positive = Some acme ∧
  calm all_down = true ∧
  ∃ e out st' cs',
    enrich_lead 1 true true true all_down (World (heap store) initial_stats [])
    = (Ok e, World (<[e := out]> (heap store)) st' cs') ∧
    total_enriched st' + failed st' = 1.
Proof.
  split_and!; [reflexivity|reflexivity|].
  destruct (counters_account_for_every_record 1 acme true true true all_down
              (heap store) initial_stats [] eq_refl eq_refl)
    as (e & out & st' & cs' & Hrun & Hsum & _).
  exists e, out, st', cs'. split; [exact Hrun|exact Hsum].
Defined.

Lemma cost_witness :
  heap store !! 1%positive = Some acme ∧
  calm ai_fallback = true ∧
  ∃ e out st' cs',
    enrich_lead 1 true true true ai_fallback (World (heap store) initial_stats [])
    = (Ok e, World (<[e := out]> (heap store)) st' cs').
Proof.
  split_and!; [reflexivity|reflexivity|].
  destruct (cost_is_charged_for_ai_hits_only 1 acme true true true ai_fallback
              (heap store) initial_stats [] eq_refl eq_refl)
    as (e & out & st' & cs' & Hrun & _).
  exists e, out, st', cs'. exact Hrun.
Defined.

Lemma no_eligible_source_witness :
  heap jane_store !! 1%positive = Some jane ∧
  enrich_lead 1 true true false primary_hit (World (heap jane_store) initial_stats [])
  = (Ok (fresh (dom (heap jane_store))),
     World (<[fresh (dom (heap jane_store)) := <["enrichment_source" := VNone]> jane]>
              (heap jane_store))
           (incr_failed initial_stats) []).
Proof.
  split; [reflexivity|].
  exact (no_eligible_source_no_call 1 jane true true false primary_hit
           (heap jane_store) initial_stats [] eq_refl eq_refl eq_refl eq_refl).
Defined.

Lemma linkedin_success_witness :
  heap profile_store !! 1%positive = Some profile ∧
  truthy (field profile "linkedin_url") = true ∧
  enrich_lead 1 true true true linkedin_hit (World (heap profile_store) initial_stats [])
  = (Ok (fresh (dom (heap profile_store))),
     World (<[fresh (dom (heap profile_store)) :=
                <["enrichment_cost" := VFloat fzero]>
                  (<["enrichment_source" := VStr "linkedin"]> (jane ∪ profile))]>
              (heap profile_store))
           (incr_total_enriched (incr_linkedin_hits initial_stats))
           [LINKEDIN]).
Proof.
  split_and!; [reflexivity|reflexivity|].
  exact (linkedin_success_stops_waterfall 1 profile true true linkedin_hit
           (heap profile_store) initial_stats []
           (Result true (Some jane) None None None 0) jane
           eq_refl (λ H, False_ind _ (eq_ind false (λ b, if b then False else True) I true H))
           eq_refl eq_refl eq_refl eq_refl eq_refl eq_refl).
Defined.

Lemma ai_finder_success_witness :
  heap store !! 1%positive = Some acme ∧
  ai ai_fallback = Ok ai_answer ∧
  calls (snd (enrich_lead 1 true true true ai_fallback (World (heap store) initial_stats [])))
  = [AI_ARK; AI_FINDER].
Proof.
  split_and!; [reflexivity|reflexivity|].
  pose proof (ai_finder_success_is_recorded 1 acme true true ai_fallback
                (heap store) initial_stats [] ai_answer (<["email" := VStr "j@acme.com"]> ∅)
                eq_refl
                (λ _, conj eq_refl (ex_intro _ ∅ eq_refl))
                (λ H, False_ind _ (eq_ind false (λ b, if b then False else True) I true H))
                eq_refl eq_refl (insert_non_empty _ _ _)) as [Hrun _].
  exact (f_equal (λ r, calls (snd r)) Hrun).
Defined.

End WaterfallFacts.

Module TextFacts.
Import Text.

Lemma append_nil_l (s : string) : "" +:+ s = s.
Proof. reflexivity. Qed.

Lemma append_cons c (a b : string) : String c a +:+ b = String c (a +:+ b).
Proof. reflexivity. Qed.

Lemma append_assoc (a b c : string) : (a +:+ b) +:+ c = a +:+ (b +:+ c).
Proof.
  induction a as [|x a IH]; [done|]. by rewrite !append_cons, IH.
Qed.

Lemma prefix_spec a : ∀ b, String.prefix a b = true ↔ ∃ post, b = a +:+ post.
Proof.
  induction a as [|x a IH]; intros b; cbn [String.prefix].
  - split; [intros _; by exists b|by destruct b].
  - destruct b as [|y b]; [split; [done|by intros [? ?]]|].
    cbn [String.prefix].
    destruct (Ascii.ascii_dec x y) as [->|Hne].
    + rewrite IH. split; intros [post Hp]; exists post.
      * by rewrite append_cons, Hp.
      * rewrite append_cons in Hp. congruence.
    + split; [done|]. intros [post Hp]. rewrite append_cons in Hp. congruence.
Qed.

Lemma contains_spec n : ∀ h,
  contains n h = true ↔ ∃ pre post, h = pre +:+ n +:+ post.
Proof.
  induction h as [|c h IH]; cbn [contains].
  - rewrite orb_false_r, prefix_spec. split.
    + intros [post ->]. by exists "", post.
    + intros (pre & post & H). destruct pre; [eauto|done].
  - rewrite orb_true_iff, prefix_spec, IH. split.
    + intros [[post ->]|(pre & post & ->)]; [by exists "", post|].
      by exists (String c pre), post.
    + intros (pre & post & H). destruct pre as [|x pre].
      * left. eauto.
      * right. rewrite append_cons in H. injection H as -> ->. eauto.
Qed.

Lemma contains_trans n m h :
  contains n m = true → contains m h = true → contains n h = true.
Proof.
  rewrite !contains_spec. intros (p1 & q1 & ->) (p2 & q2 & ->).
  exists (p2 +:+ p1), (q1 +:+ q2). by rewrite !append_assoc.
Qed.

Lemma lower_ascii_idem c : lower_ascii (lower_ascii c) = lower_ascii c.
Proof.
  unfold lower_ascii.
  destruct (Nat.leb 65 (nat_of_ascii c) && Nat.leb (nat_of_ascii c) 90) eqn:E; [|by rewrite E].
  apply andb_prop in E as [H1%Nat.leb_le H2%Nat.leb_le].
  rewrite nat_ascii_embedding by lia.
  destruct (Nat.leb 65 _ && Nat.leb _ 90) eqn:E'; [|done].
  apply andb_prop in E' as [H3%Nat.leb_le H4%Nat.leb_le]. lia.
Qed.

Lemma lower_idem s : lower (lower s) = lower s.
Proof. induction s as [|c s IH]; cbn; [done|]. by rewrite lower_ascii_idem, IH. Qed.

Lemma lower_empty s : String.eqb (lower s) "" = String.eqb s "".
Proof. by destruct s. Qed.

End TextFacts.

Module TitleFacts.
Import Text TextFacts.

(** X12: a title with [director] in it (in any case) also has [cto]
    in it, which the first test looks for: both [_infer_seniority]
    functions answer C-Level for it, never Director. *)
Theorem director_titles_are_c_level job_title :
  contains "director" (lower job_title) = true →
  AIArkTitles._infer_seniority job_title = Some "C-Level" ∧
  LinkedInTitles._infer_seniority job_title = Some "C-Level".
Proof.
  intros H.
  assert (Hcto : contains "cto" (lower job_title) = true)
    by (by apply (contains_trans "cto" "director")).
  assert (Hne : String.eqb job_title "" = false) by (by destruct job_title).
  unfold AIArkTitles._infer_seniority, LinkedInTitles._infer_seniority, any_in.
  rewrite Hne. cbn [existsb]. rewrite Hcto. by rewrite !orb_true_r.
Qed.

Lemma ai_ark_seniority_not_director job_title :
  AIArkTitles._infer_seniority job_title ≠ Some "Director".
Proof.
  unfold AIArkTitles._infer_seniority.
  destruct (String.eqb job_title ""); [done|].
  destruct (contains "director" (lower job_title)) eqn:Hd.
  - assert (Hcto : contains "cto" (lower job_title) = true)
      by (by apply (contains_trans "cto" "director")).
    unfold any_in. cbn [existsb]. by rewrite Hcto, !orb_true_r.
  - repeat case_match; done.
Qed.

(** X13: both [_infer_seniority] functions answer [None] for the empty
    title and for no other; for every other title the answer is one of
    C-Level, VP, Manager, Senior, Entry and Individual Contributor: the
    label Director is never given. *)
Theorem seniority_labels job_title :
  (AIArkTitles._infer_seniority job_title = None ↔ job_title = "") ∧
  (LinkedInTitles._infer_seniority job_title = None ↔ job_title = "") ∧
  ∀ label,
    AIArkTitles._infer_seniority job_title = Some label ∨
    LinkedInTitles._infer_seniority job_title = Some label →
    label ∈ ["C-Level"; "VP"; "Manager"; "Senior"; "Entry"; "Individual Contributor"].
Proof.
  unfold AIArkTitles._infer_seniority, LinkedInTitles._infer_seniority.
  destruct (String.eqb_spec job_title "") as [->|Hne].
  { split_and!; [done|done|]. by intros label [|]. }
  set (t := lower job_title).
  destruct (contains "director" t) eqn:Hd.
  { assert (Hcto : contains "cto" t = true)
      by (by apply (contains_trans "cto" "director")).
    unfold any_in. cbn [existsb]. rewrite Hcto, !orb_true_r.
    split_and!; [done|done|]. intros label [[= <-]|[= <-]]; set_solver. }
  split_and!.
  - repeat case_match; done.
  - repeat case_match; done.
  - intros label [H|H]; repeat case_match; injection H as <-; set_solver.
Qed.

(** X14: two titles that differ only in the case of their letters get
    the same seniority from either adapter and the same department. *)
Theorem titles_differing_in_case_classify_alike t1 t2 :
  lower t1 = lower t2 →
  AIArkTitles._infer_seniority t1 = AIArkTitles._infer_seniority t2 ∧
  LinkedInTitles._infer_seniority t1 = LinkedInTitles._infer_seniority t2 ∧
  AIArkTitles._infer_department t1 = AIArkTitles._infer_department t2.
Proof.
  intros H.
  assert (He : String.eqb t1 "" = String.eqb t2 "")
    by (by rewrite <- (lower_empty t1), <- (lower_empty t2), H).
  unfold AIArkTitles._infer_seniority, LinkedInTitles._infer_seniority,
    AIArkTitles._infer_department.
  by rewrite H, He.
Qed.

(** X15: for a title without [founder], [owner], [staff] and [entry]
    in it, the LinkedIn adapter infers the seniority that the AI Ark
    adapter infers. *)
Theorem linkedin_seniority_agrees_with_ai_ark job_title :
  any_in ["founder"; "owner"; "staff"; "entry"] (lower job_title) = false →
  LinkedInTitles._infer_seniority job_title = AIArkTitles._infer_seniority job_title.
Proof.
  unfold any_in. cbn [existsb]. rewrite !orb_false_iff. intros (Hf & Ho & Hs & He & _).
  unfold AIArkTitles._infer_seniority, LinkedInTitles._infer_seniority, any_in.
  cbn [existsb]. by rewrite Hf, Ho, Hs, He.
Qed.

(** X16: a title with [recruiting] in it has [ui] in it, a keyword of
    Design, which the table lists before HR: its department is one of the
    first five of the table, never HR. *)
Theorem recruiting_titles_are_never_hr job_title :
  contains "recruiting" (lower job_title) = true →
  AIArkTitles._infer_department job_title
    ∈ [Some "Engineering"; Some "Marketing"; Some "Sales"; Some "Product"; Some "Design"].
Proof.
  intros H.
  assert (Hui : contains "ui" (lower job_title) = true)
    by (by apply (contains_trans "ui" "recruiting")).
  assert (Hne : String.eqb job_title "" = false) by (by destruct job_title).
  unfold AIArkTitles._infer_department. rewrite Hne.
  unfold AIArkTitles.departments. cbn [AIArkTitles.first_department].
  repeat (case_match; [set_solver|]).
  exfalso. unfold any_in in *. cbn [existsb] in *.
  rewrite Hui, !orb_true_r in *. done.
Qed.

Lemma first_department_spec table x :
  match AIArkTitles.first_department table x with
  | None => Forall (λ row, any_in row.2 x = false) table
  | Some dept =>
      ∃ i keywords,
        table !! i = Some (dept, keywords) ∧ any_in keywords x = true ∧
        ∀ j row, (j < i)%nat → table !! j = Some row → any_in row.2 x = false
  end.
Proof.
  induction table as [|[dept kws] table IH]; cbn; [done|].
  destruct (any_in kws x) eqn:Hk.
  - exists 0%nat, kws. split_and!; [done|done|]. intros j row Hj. lia.
  - destruct (AIArkTitles.first_department table x) as [dept'|].
    + destruct IH as (i & kws' & Hi & Hk' & Hbefore).
      exists (S i), kws'. split_and!; [done|done|].
      intros [|j] row Hj; cbn; [by intros [= <-]|].
      apply Hbefore. lia.
    + by constructor.
Qed.

(** X17: [_infer_department] answers [None] exactly for the empty
    title and for a title in which no keyword of the table occurs;
    otherwise it answers the first department of the table, in the order
    it is written, one of whose keywords occurs in the lower-cased
    title. *)
Theorem department_is_the_first_match job_title :
  match AIArkTitles._infer_department job_title with
  | None =>
      job_title = "" ∨
      ∀ dept keywords, (dept, keywords) ∈ AIArkTitles.departments →
                       any_in keywords (lower job_title) = false
  | Some dept =>
      job_title ≠ "" ∧
      ∃ i keywords,
        AIArkTitles.departments !! i = Some (dept, keywords) ∧
        any_in keywords (lower job_title) = true ∧
        ∀ j row, (j < i)%nat → AIArkTitles.departments !! j = Some row →
                 any_in row.2 (lower job_title) = false
  end.
Proof.
  unfold AIArkTitles._infer_department.
  destruct (String.eqb_spec job_title "") as [->|Hne]; [by left|].
  pose proof (first_department_spec AIArkTitles.departments (lower job_title)) as H.
  destruct (AIArkTitles.first_department _ _) as [dept|]; [done|].
  right. intros dept kws Hin. rewrite Forall_forall in H. by apply (H (dept, kws)).
Qed.

Lemma director_titles_witness :
  contains "director" (lower "Director of Sales") = true ∧
  AIArkTitles._infer_seniority "Director of Sales" = Some "C-Level".
Proof.
  split; [reflexivity|].
  exact (proj1 (director_titles_are_c_level "Director of Sales" eq_refl)).
Defined.

Lemma titles_differing_in_case_witness :
  lower "VP Marketing" = lower "vp marketing" ∧
  AIArkTitles._infer_seniority "VP Marketing" = AIArkTitles._infer_seniority "vp marketing".
Proof.
  split; [reflexivity|].
  exact (proj1 (titles_differing_in_case_classify_alike "VP Marketing" "vp marketing" eq_refl)).
Defined.

Lemma linkedin_seniority_agrees_witness :
  any_in ["founder"; "owner"; "staff"; "entry"] (lower "Head of Growth") = false ∧
  LinkedInTitles._infer_seniority "Head of Growth"
  = AIArkTitles._infer_seniority "Head of Growth".
Proof.
  split; [reflexivity|].
  exact (linkedin_seniority_agrees_with_ai_ark "Head of Growth" eq_refl).
Defined.

Lemma recruiting_titles_witness :
  contains "recruiting" (lower "Recruiting Coordinator") = true ∧
  AIArkTitles._infer_department "Recruiting Coordinator"
    ∈ [Some "Engineering"; Some "Marketing"; Some "Sales"; Some "Product"; Some "Design"].
Proof.
  split; [reflexivity|].
  exact (recruiting_titles_are_never_hr "Recruiting Coordinator" eq_refl).
Defined.

End TitleFacts.

Module CleaningFacts.
Import Text TextFacts BaseHelpers.

Lemma filter_chars_all keep s : all_chars keep (filter_chars keep s) = true.
Proof.
  induction s as [|c s IH]; cbn; [done|].
  destruct (keep c) eqn:Hc; cbn; [by rewrite Hc|done].
Qed.

Lemma filter_chars_fixed keep s : all_chars keep s = true → filter_chars keep s = s.
Proof.
  induction s as [|c s IH]; cbn; [done|].
  intros [Hc Hs]%andb_prop. by rewrite Hc, IH.
Qed.

Lemma filter_chars_length keep s :
  (String.length (filter_chars keep s) ≤ String.length s)%nat.
Proof. induction s as [|c s IH]; cbn; [done|]. destruct (keep c); cbn; lia. Qed.

(** X18: for ASCII text, a number that [_clean_phone] returns holds
    digits and plus signs only, at least ten of them, in the order they
    have in the input; cleaning it again returns it unchanged. *)
Theorem clean_phone_keeps_digits_and_plus p cleaned :
  is_ascii p = true →
  BaseHelpers._clean_phone (Some p) = Some cleaned →
  all_chars phone_char cleaned = true ∧
  (10 ≤ String.length cleaned)%nat ∧
  BaseHelpers._clean_phone (Some cleaned) = Some cleaned ∧
  cleaned = filter_chars phone_char p ∧
  (String.length cleaned ≤ String.length p)%nat.
Proof.
  intros _. unfold BaseHelpers._clean_phone.
  destruct (String.eqb p ""); [done|].
  destruct (Nat.leb 10 _) eqn:Hlen; [|done]. intros [= <-].
  apply Nat.leb_le in Hlen.
  split_and!.
  - apply filter_chars_all.
  - done.
  - rewrite (filter_chars_fixed _ _ (filter_chars_all _ _)).
    destruct (String.eqb_spec (filter_chars phone_char p) "") as [E|_].
    + rewrite E in Hlen. cbn in Hlen. lia.
    + by apply Nat.leb_le in Hlen as ->.
  - done.
  - apply filter_chars_length.
Qed.

Lemma isspace_lower c : isspace (lower_ascii c) = isspace c.
Proof. by destruct c as [[] [] [] [] [] [] [] []]. Qed.

Lemma lstrip_lower s : lstrip (lower s) = lower (lstrip s).
Proof.
  induction s as [|c s IH]; cbn; [done|].
  rewrite isspace_lower. by destruct (isspace c).
Qed.

Lemma rstrip_lower s : rstrip (lower s) = lower (rstrip s).
Proof.
  induction s as [|c s IH]; cbn; [done|].
  rewrite IH, isspace_lower.
  destruct (rstrip s); cbn; [by destruct (isspace c)|done].
Qed.

Lemma strip_lower s : strip (lower s) = lower (strip s).
Proof. unfold strip. by rewrite lstrip_lower, rstrip_lower. Qed.

Lemma rstrip_cons c s :
  rstrip (String c s)
  = match rstrip s with
    | EmptyString => if isspace c then EmptyString else String c EmptyString
    | r => String c r
    end.
Proof. reflexivity. Qed.

Lemma rstrip_idem s : rstrip (rstrip s) = rstrip s.
Proof.
  induction s as [|c s IH]; [done|]. rewrite rstrip_cons.
  destruct (rstrip s) as [|c' r] eqn:E.
  - destruct (isspace c) eqn:Hc; [done|]. by rewrite rstrip_cons, Hc.
  - by rewrite rstrip_cons, IH.
Qed.

Lemma lstrip_head s :
  lstrip s = "" ∨ ∃ c r, lstrip s = String c r ∧ isspace c = false.
Proof.
  induction s as [|c s IH]; cbn; [by left|].
  destruct (isspace c) eqn:Hc; [done|]. right. eauto.
Qed.

Lemma rstrip_head c r : isspace c = false → ∃ r', rstrip (String c r) = String c r'.
Proof. intros Hc. cbn. destruct (rstrip r); [rewrite Hc|]; eauto. Qed.

Lemma strip_idem s : strip (strip s) = strip s.
Proof.
  unfold strip. destruct (lstrip_head s) as [->|(c & r & -> & Hc)]; [done|].
  destruct (rstrip_head c r Hc) as [r' E]. rewrite E.
  cbn [lstrip]. rewrite Hc, <- E. apply rstrip_idem.
Qed.

(** X19: for ASCII text, an address that [_clean_email] returns is the
    input stripped and lower-cased; it has an [@] in it and a dot after the
    last [@], it has no upper-case letter and no white space at its ends,
    and cleaning it again returns it unchanged. *)
Theorem clean_email_is_normalised e cleaned :
  is_ascii e = true →
  BaseHelpers._clean_email (Some e) = Some cleaned →
  cleaned = lower (strip e) ∧
  contains "@" cleaned = true ∧
  contains "." (List.last (split "@" cleaned) "") = true ∧
  lower cleaned = cleaned ∧ strip cleaned = cleaned ∧
  BaseHelpers._clean_email (Some cleaned) = Some cleaned.
Proof.
  intros _. unfold BaseHelpers._clean_email.
  destruct (String.eqb e ""); [done|].
  destruct (contains "@" _ && contains "." _) eqn:Hok; [|done]. intros [= <-].
  pose proof Hok as [Hat Hdot]%andb_prop.
  assert (Hl : lower (lower (strip e)) = lower (strip e)) by apply lower_idem.
  assert (Hs : strip (lower (strip e)) = lower (strip e))
    by (by rewrite strip_lower, strip_idem).
  split_and!; try done.
  rewrite Hs, Hl, Hok.
  destruct (String.eqb_spec (lower (strip e)) "") as [E|_]; [|done].
  by rewrite E in Hat.
Qed.

Lemma clean_email_has_at e cleaned :
  BaseHelpers._clean_email (Some e) = Some cleaned → contains "@" cleaned = true.
Proof.
  unfold BaseHelpers._clean_email. destruct (String.eqb e ""); [done|].
  destruct (contains "@" _) eqn:Hat; [|done].
  destruct (contains "." _); [|done]. by intros [= <-].
Qed.

Lemma clean_phone_is_long p cleaned :
  BaseHelpers._clean_phone (Some p) = Some cleaned → (10 ≤ String.length cleaned)%nat.
Proof.
  unfold BaseHelpers._clean_phone. destruct (String.eqb p ""); [done|].
  destruct (Nat.leb 10 _) eqn:Hlen; [|done]. intros [= <-]. by apply Nat.leb_le.
Qed.

Lemma clean_phone_witness :
  is_ascii "+1 (415) 555-0134" = true ∧
  BaseHelpers._clean_phone (Some "+1 (415) 555-0134") = Some "+14155550134" ∧
  BaseHelpers._clean_phone (Some "+14155550134") = Some "+14155550134".
Proof.
  split_and!; [reflexivity|reflexivity|].
  exact (proj1 (proj2 (proj2
           (clean_phone_keeps_digits_and_plus "+1 (415) 555-0134" "+14155550134"
              eq_refl eq_refl)))).
Defined.

Lemma clean_email_witness :
  is_ascii "  Jane.Doe@Acme.COM " = true ∧
  BaseHelpers._clean_email (Some "  Jane.Doe@Acme.COM ") = Some "jane.doe@acme.com" ∧
  BaseHelpers._clean_email (Some "jane.doe@acme.com") = Some "jane.doe@acme.com".
Proof.
  split_and!; [reflexivity|reflexivity|].
  exact (proj2 (proj2 (proj2 (proj2 (proj2
           (clean_email_is_normalised "  Jane.Doe@Acme.COM " "jane.doe@acme.com"
              eq_refl eq_refl)))))).
Defined.

End CleaningFacts.

Module RequestFacts.
Import Pipeline.

Ltac lookup_step :=
  first [ rewrite lookup_insert_ne by discriminate
        | rewrite lookup_insert_eq
        | rewrite lookup_empty ].

(** X20: the request that [enrich_company] ends in never names the
    domain. [enrich_company] passes it under the keyword [domains], which
    is no parameter of [scrape] and lands in [**kwargs]: with a domain the
    body posted holds ["leads_per_company"] only; without one it holds the
    company name under ["company_names"]. *)
Theorem enrich_company_request_names_no_domain domain company_name leads_count :
  AIArkRequest.enrich_company_request domain company_name leads_count
  = (if truthy domain
     then <["leads_per_company" := VInt leads_count]> ∅
     else <["company_names" := VList [company_name]]>
            (<["leads_per_company" := VInt leads_count]> ∅))
  ∧ AIArkRequest.enrich_company_request domain company_name leads_count !! "domains" = None
  ∧ (truthy domain = true →
     AIArkRequest.kwargs
       (AIArkRequest.bind
          (AIArkRequest.enrich_company_params domain company_name leads_count))
     !! "domains" = Some (VList [domain])).
Proof.
  assert (Hreq :
    AIArkRequest.enrich_company_request domain company_name leads_count
    = (if truthy domain
       then <["leads_per_company" := VInt leads_count]> ∅
       else <["company_names" := VList [company_name]]>
              (<["leads_per_company" := VInt leads_count]> ∅))).
  { unfold AIArkRequest.enrich_company_request.
    set (p := AIArkRequest.enrich_company_params domain company_name leads_count).
    assert (Hb : AIArkRequest.bind p
                 = AIArkRequest.ScrapeArgs
                     VNone (if truthy domain then VNone else VList [company_name])
                     VNone VNone VNone VNone (VInt leads_count)
                     (AIArkRequest.kwargs (AIArkRequest.bind p))).
    { unfold AIArkRequest.bind at 1. subst p. unfold AIArkRequest.enrich_company_params.
      destruct (truthy domain); f_equal; by repeat lookup_step. }
    rewrite Hb. unfold AIArkRequest.search_params, AIArkRequest.set_if.
    cbn [AIArkRequest.company_domains AIArkRequest.company_names AIArkRequest.job_titles
         AIArkRequest.industries AIArkRequest.employee_range AIArkRequest.locations
         AIArkRequest.leads_per_company truthy].
    by destruct (truthy domain). }
  split_and!.
  - exact Hreq.
  - rewrite Hreq. destruct (truthy domain); repeat lookup_step; reflexivity.
  - intros Hd. unfold AIArkRequest.bind, AIArkRequest.enrich_company_params.
    cbn [AIArkRequest.kwargs]. rewrite Hd.
    apply map_lookup_filter_Some. split; [by repeat lookup_step|].
    cbn. unfold AIArkRequest.parameters. rewrite !not_elem_of_cons.
    split_and!; try discriminate. apply not_elem_of_nil.
Qed.

(** X21: the search that [scrape_company_employees] starts never names
    the company. The company URL and the company name are passed under the
    keywords [company_url] and [companies], which are no parameters of
    [scrape]: the input of the job holds ["max_results"], and
    ["job_titles"] when titles are given, and nothing else. *)
Theorem company_employees_search_names_no_company company_url company_name job_titles
    max_results criteria :
  LinkedInRequest.scrape_company_employees company_url company_name job_titles max_results
  = Ok criteria →
  criteria = (if truthy job_titles
              then <["job_titles" := job_titles]> (<["max_results" := VInt max_results]> ∅)
              else <["max_results" := VInt max_results]> ∅)
  ∧ criteria !! "companies" = None
  ∧ criteria !! "company_url" = None.
Proof.
  unfold LinkedInRequest.scrape_company_employees.
  destruct (negb (truthy company_url) && negb (truthy company_name)); [done|].
  intros [= <-].
  set (p := LinkedInRequest.company_employees_params company_url company_name job_titles
                                                     max_results).
  assert (Hb : LinkedInRequest.bind p
               = LinkedInRequest.ScrapeArgs
                   (if truthy job_titles then job_titles else VNone)
                   VNone VNone VNone VNone VNone (VInt max_results)
                   (LinkedInRequest.kwargs (LinkedInRequest.bind p))).
  { unfold LinkedInRequest.bind at 1. subst p.
    unfold LinkedInRequest.company_employees_params.
    destruct (truthy company_url), (truthy job_titles); f_equal; by repeat lookup_step. }
  rewrite Hb. unfold LinkedInRequest.search_criteria, LinkedInRequest.set_if.
  cbn [LinkedInRequest.job_titles LinkedInRequest.company_names LinkedInRequest.industries
       LinkedInRequest.locations LinkedInRequest.seniority_levels LinkedInRequest.keywords
       LinkedInRequest.max_results truthy].
  destruct (truthy job_titles) eqn:Ht; rewrite ?Ht; cbn [truthy];
    split_and!; try reflexivity; by repeat lookup_step.
Qed.

Lemma company_employees_witness :
  LinkedInRequest.scrape_company_employees VNone (VStr "Acme Corp") VNone 50
  = Ok (<["max_results" := VInt 50]> ∅) ∧
  (<["max_results" := VInt 50]> ∅ : dict) !! "companies" = None.
Proof.
  assert (H : LinkedInRequest.scrape_company_employees VNone (VStr "Acme Corp") VNone 50
              = Ok (<["max_results" := VInt 50]> ∅)) by (vm_compute; reflexivity).
  split; [exact H|].
  exact (proj1 (proj2 (company_employees_search_names_no_company _ _ _ _ _ H))).
Defined.

End RequestFacts.

Module ClaudeReplyFacts.
Import Text TextFacts ClaudeReply.

Lemma split_from_cons sep skip s : ∃ field fields, split_from sep skip s = field :: fields.
Proof.
  revert skip. induction s as [|c s IH]; intros skip; cbn [split_from]; [eauto|].
  destruct skip as [|k]; [|apply IH].
  destruct (String.prefix sep (String c s)); [eauto|].
  destruct (IH 0%nat) as (f & fs & ->). eauto.
Qed.

Lemma split_two sep s :
  sep ≠ "" → contains sep s = true → (2 ≤ length (split sep s))%nat.
Proof.
  intros Hsep. unfold split. induction s as [|c s IH]; cbn [contains split_from].
  - rewrite orb_false_r. by destruct sep.
  - destruct (String.prefix sep (String c s)) eqn:Hp; cbn [orb].
    + intros _. destruct (split_from_cons sep (String.length sep - 1) s) as (f & fs & ->).
      cbn. lia.
    + intros H. specialize (IH H).
      destruct (split_from sep 0 s) as [|f fs]; cbn in *; lia.
Qed.

Lemma between_returns fence text :
  fence ≠ "" → contains fence text = true → ∃ body, between fence text = Ok body.
Proof.
  intros Hf Hc. unfold between, item.
  pose proof (split_two fence text Hf Hc) as Hlen.
  destruct (split fence text) as [|f0 [|f1 fs]]; cbn in Hlen; try lia. cbn.
  unfold split. destruct (split_from_cons "```" 0 f1) as (b & bs & ->). cbn. eauto.
Qed.

(** X22: the extraction of the JSON text from a reply never fails,
    whatever the reply: when it indexes the pieces of a split, the piece
    is there. *)
Theorem json_text_never_fails content : ∃ text, json_text content = Ok text.
Proof.
  unfold json_text.
  destruct (contains "```json" content) eqn:H1.
  - destruct (between_returns "```json" content) as [b ->]; [done|done|eauto].
  - destruct (contains "```" content) eqn:H2; [|eauto].
    destruct (between_returns "```" content) as [b ->]; [done|done|eauto].
Qed.

Lemma append_nil_r (s : string) : s +:+ "" = s.
Proof. induction s as [|c s IH]; [done|]. by rewrite append_cons, IH. Qed.

Lemma split_from_skip sep pre rest :
  split_from sep (String.length pre) (pre +:+ rest) = split_from sep 0 rest.
Proof. induction pre as [|c pre IH]; [done|]. rewrite append_cons. cbn. apply IH. Qed.

Lemma split_at_separator b sep rest :
  split (String b sep) (String b sep +:+ rest) = "" :: split (String b sep) rest.
Proof.
  unfold split. rewrite append_cons. cbn [split_from].
  assert (Hp : String.prefix (String b sep) (String b (sep +:+ rest)) = true).
  { apply prefix_spec. exists rest. by rewrite append_cons. }
  rewrite Hp. f_equal.
  replace (String.length (String b sep) - 1)%nat with (String.length sep) by (cbn; lia).
  apply split_from_skip.
Qed.

Lemma split_passes b sep j y field fields :
  all_chars (λ c, negb (Ascii.eqb c b)) j = true →
  split (String b sep) y = field :: fields →
  split (String b sep) (j +:+ y) = (j +:+ field) :: fields.
Proof.
  unfold split. intros Hj Hy. induction j as [|c j IH]; [done|].
  cbn in Hj. apply andb_prop in Hj as [Hc Hj]. rewrite append_cons. cbn [split_from].
  assert (Hp : String.prefix (String b sep) (String c (j +:+ y)) = false).
  { cbn. destruct (Ascii.ascii_dec b c) as [->|]; [|done].
    by rewrite Ascii.eqb_refl in Hc. }
  by rewrite Hp, (IH Hj).
Qed.

Lemma split_plain b sep j :
  all_chars (λ c, negb (Ascii.eqb c b)) j = true → split (String b sep) j = [j].
Proof.
  intros Hj. rewrite <- (append_nil_r j) at 1.
  by rewrite (split_passes b sep j "" "" [] Hj eq_refl), append_nil_r.
Qed.

Lemma split_cuts b sep j rest :
  all_chars (λ c, negb (Ascii.eqb c b)) j = true →
  split (String b sep) (j +:+ String b sep +:+ rest) = j :: split (String b sep) rest.
Proof.
  intros Hj. rewrite (split_passes b sep j _ "" (split (String b sep) rest) Hj).
  - by rewrite append_nil_r.
  - apply split_at_separator.
Qed.

Lemma not_prefix a b : (∀ q, b ≠ a +:+ q) → String.prefix a b = false.
Proof.
  intros H. destruct (String.prefix a b) eqn:Hp; [|done].
  apply prefix_spec in Hp as [q ->]. by destruct (H q).
Qed.

Lemma starts_with_backtick rest : String.prefix "`" (String "`" rest) = true.
Proof. apply prefix_spec. by exists rest. Qed.

(** The piece after a [json] fence, up to the next fence of that kind,
    when the text after the closing fence does not begin with a backtick. *)
Lemma after_json_fence post :
  String.prefix "`" post = false →
  ∃ fields, split "```json" ("```" +:+ post) = "" :: fields ∨
            ∃ more, split "```json" ("```" +:+ post) = ("```" +:+ more) :: fields.
Proof.
  intros Hpost. unfold split.
  change ("```" +:+ post) with (String "`" (String "`" (String "`" post))).
  cbn [split_from].
  destruct (String.prefix "```json" (String "`" (String "`" (String "`" post)))); [eauto|].
  assert (H2 : String.prefix "```json" (String "`" (String "`" post)) = false).
  { apply not_prefix. intros q Hq. rewrite !append_cons, append_nil_l in Hq.
    injection Hq as ->. by rewrite starts_with_backtick in Hpost. }
  assert (H1 : String.prefix "```json" (String "`" post) = false).
  { apply not_prefix. intros q Hq. rewrite !append_cons, append_nil_l in Hq.
    injection Hq as ->. by rewrite starts_with_backtick in Hpost. }
  rewrite H2, H1.
  destruct (split_from_cons "```json" 0 post) as (f & fs & ->).
  exists fs. right. by exists f.
Qed.

Lemma item_0 a fields : item (a :: fields) 0 = Ok a.
Proof. reflexivity. Qed.

Lemma item_1 a b fields : item (a :: b :: fields) 1 = Ok b.
Proof. reflexivity. Qed.

(** X23: a reply that wraps its JSON in a code block is unwrapped
    exactly. With text before the block and JSON inside it that hold no
    backtick, a block opened by the fence with [json] gives the JSON
    stripped, provided the text after the closing fence does not begin
    with a backtick; a block opened by the bare fence gives the JSON
    stripped, provided the fence with [json] occurs nowhere in the
    reply. *)
Theorem fenced_json_is_recovered pre j post :
  no_backtick pre = true → no_backtick j = true →
  (String.prefix "`" post = false →
   json_text (pre +:+ "```json" +:+ j +:+ "```" +:+ post) = Ok (strip j)) ∧
  (contains "```json" (pre +:+ "```" +:+ j +:+ "```" +:+ post) = false →
   json_text (pre +:+ "```" +:+ j +:+ "```" +:+ post) = Ok (strip j)).
Proof.
  unfold no_backtick. intros Hpre Hj. split.
  - intros Hpost. unfold json_text.
    assert (Hc : contains "```json" (pre +:+ "```json" +:+ j +:+ "```" +:+ post) = true)
      by (apply contains_spec; eauto).
    rewrite Hc. unfold between.
    rewrite (split_cuts "`" "``json" pre _ Hpre).
    destruct (after_json_fence post Hpost) as (fields & [H|[more H]]).
    + rewrite (split_passes "`" "``json" j _ _ _ Hj H), append_nil_r, item_1.
      by rewrite (split_plain "`" "``" j Hj), item_0.
    + rewrite (split_passes "`" "``json" j _ _ _ Hj H), item_1.
      by rewrite (split_cuts "`" "``" j more Hj), item_0.
  - intros Hno. unfold json_text. rewrite Hno.
    assert (Hc : contains "```" (pre +:+ "```" +:+ j +:+ "```" +:+ post) = true)
      by (apply contains_spec; eauto).
    rewrite Hc. unfold between.
    rewrite (split_cuts "`" "``" pre _ Hpre), (split_cuts "`" "``" j post Hj), item_1.
    by rewrite (split_plain "`" "``" j Hj), item_0.
Qed.

Lemma fenced_json_witness :
  no_backtick "Here is the result: " = true ∧
  no_backtick " {} " = true ∧
  String.prefix "`" " Done." = false ∧
  json_text "Here is the result: ```json {} ``` Done." = Ok "{}".
Proof.
  split_and!; [reflexivity..|].
  exact (proj1 (fenced_json_is_recovered "Here is the result: " " {} " " Done."
                  eq_refl eq_refl) eq_refl).
Defined.

End ClaudeReplyFacts.

Module ParseFacts.
Import Text TextFacts Pipeline AIArkParse.

Lemma infer_seniority_cases v :
  match _infer_seniority v with
  | Ok x => text_or_falsy v = true ∧ x ≠ VStr "Director" ∧ (truthy v = false → x = VNone)
  | Raise e => text_or_falsy v = false ∧ is_Exception e = true
  end.
Proof.
  unfold _infer_seniority, text_or_falsy.
  destruct (truthy v) eqn:Hv; cbn [negb orb]; [|done].
  destruct v; try done. split_and!; [done| |done].
  pose proof (TitleFacts.ai_ark_seniority_not_director s) as H.
  destruct (AIArkTitles._infer_seniority s) as [label|]; [|done].
  intros [= ->]. by apply H.
Qed.

Lemma infer_department_cases v :
  match _infer_department v with
  | Ok x => text_or_falsy v = true ∧ (truthy v = false → x = VNone)
  | Raise e => text_or_falsy v = false ∧ is_Exception e = true
  end.
Proof.
  unfold _infer_department, text_or_falsy.
  destruct (truthy v) eqn:Hv; cbn [negb orb]; [|done].
  by destruct v.
Qed.

Lemma clean_email_cases v :
  match _clean_email v with
  | Ok x => text_or_falsy v = true ∧
            (x = VNone ∨ ∃ s, x = VStr s ∧ contains "@" s = true)
  | Raise e => text_or_falsy v = false ∧ is_Exception e = true
  end.
Proof.
  unfold _clean_email, text_or_falsy.
  destruct (truthy v) eqn:Hv; cbn [negb orb]; [|by split; [|left]].
  destruct v; try done. split; [done|].
  destruct (BaseHelpers._clean_email (Some s)) as [c|] eqn:E; cbn; [|by left].
  right. exists c. split; [done|]. by eapply CleaningFacts.clean_email_has_at.
Qed.

Lemma clean_phone_cases v :
  match _clean_phone v with
  | Ok x => text_or_falsy v = true ∧
            (x = VNone ∨ ∃ s, x = VStr s ∧ (10 ≤ String.length s)%nat)
  | Raise e => text_or_falsy v = false ∧ is_Exception e = true
  end.
Proof.
  unfold _clean_phone, text_or_falsy.
  destruct (truthy v) eqn:Hv; cbn [negb orb]; [|by split; [|left]].
  destruct v; try done. split; [done|].
  destruct (BaseHelpers._clean_phone (Some s)) as [c|] eqn:E; cbn; [|by left].
  right. exists c. split; [done|]. by eapply CleaningFacts.clean_phone_is_long.
Qed.

Lemma company_of_cases raw :
  match company_of raw with
  | Ok (name, domain) =>
      match get raw "company" (VObj []) with
      | VStr s => name = VStr s ∧ domain = VNone
      | VObj _ => True
      | _ => False
      end
  | Raise e =>
      match get raw "company" (VObj []) with
      | VStr _ | VObj _ => False
      | _ => is_Exception e = true
      end
  end.
Proof. unfold company_of. by destruct (get raw "company" (VObj [])). Qed.

(** X24: [parse_result] accepts a raw record exactly when its company
    is a string or an object (or is missing), and its job title, its
    e-mail address and its phone number are each falsy or a string. For
    any other record, one whose company is null among them, it raises an
    [Exception], so that [scrape] leaves the lead out. *)
Theorem parse_result_accepts str_of raw :
  let company := get raw "company" (VObj []) in
  let job_title := get raw "job_title" (get raw "title" (VStr "")) in
  let email := get raw "email" (get raw "work_email" VNone) in
  let phone := get raw "phone" (get raw "direct_phone" VNone) in
  ((∃ lead, parse_result str_of raw = Ok lead) ↔
   (match company with VStr _ | VObj _ => True | _ => False end) ∧
   text_or_falsy job_title = true ∧ text_or_falsy email = true ∧
   text_or_falsy phone = true) ∧
  (∀ e, parse_result str_of raw = Raise e → is_Exception e = true) ∧
  (∀ e, parsed_of str_of raw = inl e → is_Exception e = true) ∧
  (get raw "company" (VObj []) = VNone → ∃ e, parsed_of str_of raw = inl e).
Proof.
  intros company job_title email phone.
  unfold parsed_of, parse_result.
  fold job_title email phone.
  pose proof (company_of_cases raw) as Hc. fold company in Hc.
  pose proof (infer_seniority_cases job_title) as Hs.
  pose proof (infer_department_cases job_title) as Hd.
  pose proof (clean_email_cases email) as He.
  pose proof (clean_phone_cases phone) as Hp.
  destruct (company_of raw) as [[name domain]|e0]; cbn [and_then].
  2:{ split_and!.
      - split; [by intros [? ?]|]. intros [H _]. by destruct company.
      - intros e [= <-]. by destruct company.
      - intros e [= <-]. by destruct company.
      - eauto. }
  assert (Hok : match company with VStr _ | VObj _ => True | _ => False end)
    by (by destruct company).
  destruct (_infer_seniority job_title) as [sen|e1]; cbn [and_then];
    [|destruct Hs as [Hs ?]; split_and!;
      [split; [by intros [? ?]|intros (_ & Hx & _); congruence]
      |by intros e [= <-]|by intros e [= <-]
      |intros Hn; unfold company in Hok; rewrite Hn in Hok; done]].
  destruct (_infer_department job_title) as [dep|e2]; cbn [and_then];
    [|destruct Hd as [Hd ?]; destruct Hs as [Hs _]; congruence].
  destruct (_clean_email email) as [em|e3]; cbn [and_then];
    [|destruct He as [He ?]; split_and!;
      [split; [by intros [? ?]|intros (_ & _ & Hx & _); congruence]
      |by intros e [= <-]|by intros e [= <-]
      |intros Hn; unfold company in Hok; rewrite Hn in Hok; done]].
  destruct (_clean_phone phone) as [ph|e4]; cbn [and_then];
    [|destruct Hp as [Hp ?]; split_and!;
      [split; [by intros [? ?]|intros (_ & _ & _ & Hx); congruence]
      |by intros e [= <-]|by intros e [= <-]
      |intros Hn; unfold company in Hok; rewrite Hn in Hok; done]].
  destruct Hs as [Hs _], Hd as [Hd _], He as [He _], Hp as [Hp _].
  split_and!; [split; eauto|done|done|].
  intros Hn. unfold company in Hok. by rewrite Hn in Hok.
Qed.

Lemma to_dict_dom lead : dom (Lead.to_dict lead) = list_to_set Lead.keys.
Proof. unfold Lead.to_dict. by rewrite dom_list_to_map_L. Qed.

(** X25: a lead that [parse_result] builds has an e-mail address that
    is null or has an [@] in it, a phone number that is null or has at
    least ten characters, and a seniority that is never Director;
    seniority and department are null when the job title is falsy; a
    company given as a string becomes the company name and leaves the
    domain null, whatever ["company_domain"] the record has; the raw
    record is kept, and [to_dict] gives exactly the fourteen keys of
    [LeadData]. *)
Theorem parsed_lead_fields str_of raw lead :
  parse_result str_of raw = Ok lead →
  (Lead.email lead = VNone ∨ ∃ s, Lead.email lead = VStr s ∧ contains "@" s = true) ∧
  (Lead.phone lead = VNone ∨
   ∃ s, Lead.phone lead = VStr s ∧ (10 ≤ String.length s)%nat) ∧
  Lead.seniority_level lead ≠ VStr "Director" ∧
  (truthy (Lead.job_title lead) = false →
   Lead.seniority_level lead = VNone ∧ Lead.department lead = VNone) ∧
  (∀ s, get raw "company" (VObj []) = VStr s →
        Lead.company_name lead = VStr s ∧ Lead.company_domain lead = VNone) ∧
  Lead.source_url lead = VNone ∧
  Lead.raw_data lead = VObj raw ∧
  dom (Lead.to_dict lead) = list_to_set Lead.keys.
Proof.
  unfold parse_result.
  set (job_title := get raw "job_title" (get raw "title" (VStr ""))).
  set (email := get raw "email" (get raw "work_email" VNone)).
  set (phone := get raw "phone" (get raw "direct_phone" VNone)).
  pose proof (company_of_cases raw) as Hc.
  pose proof (infer_seniority_cases job_title) as Hs.
  pose proof (infer_department_cases job_title) as Hd.
  pose proof (clean_email_cases email) as He.
  pose proof (clean_phone_cases phone) as Hp.
  destruct (company_of raw) as [[name domain]|e0]; cbn [and_then]; [|done].
  destruct (_infer_seniority job_title) as [sen|e1]; cbn [and_then]; [|done].
  destruct (_infer_department job_title) as [dep|e2]; cbn [and_then]; [|done].
  destruct (_clean_email email) as [em|e3]; cbn [and_then]; [|done].
  destruct (_clean_phone phone) as [ph|e4]; cbn [and_then]; [|done].
  intros [= <-].
  destruct Hs as (_ & Hs1 & Hs2), Hd as [_ Hd], He as [_ He], Hp as [_ Hp].
  unfold Lead.new. cbn [Lead.email Lead.phone Lead.seniority_level Lead.job_title
    Lead.department Lead.company_name Lead.company_domain Lead.source_url Lead.raw_data].
  split_and!; try done.
  - auto.
  - intros s Hs. by rewrite Hs in Hc.
  - by destruct raw.
Qed.

Lemma parsed_lead_witness :
  ∃ lead,
    parse_result (λ _, "") Fixtures.raw_jane = Ok lead ∧
    Lead.seniority_level lead ≠ VStr "Director".
Proof.
  eexists. split; [reflexivity|].
  exact (proj1 (proj2 (proj2 (parsed_lead_fields (λ _, "") Fixtures.raw_jane _ eq_refl)))).
Defined.

End ParseFacts.

Module MergeFacts.
Import Scraper Pipeline Waterfall PipelineFacts.

Lemma to_dict_lookup lead k :
  k ∈ Lead.keys → is_Some (Lead.to_dict lead !! k).
Proof.
  intros Hk. apply elem_of_dom. rewrite ParseFacts.to_dict_dom.
  by apply elem_of_list_to_set.
Qed.

Lemma first_lead_wins cn cd a first rest p :
  truthy (py_or cn cd) = true →
  calm_ark a = true →
  ark_open a = None → AIArk.key_present (ark_api_key a) = true →
  ark_search a = AIArk.PostLeads (first :: rest) →
  AIArk.parsed first = inr p →
  ark_verdict cn cd a = Win p.
Proof.
  intros Ht Hcalm Hopen Hkey Hsearch Hparsed.
  unfold ark_verdict, AIArk.enrich_company, AIArk.scrape.
  rewrite Hopen, Hkey, Hsearch.
  assert (Hboth : negb (truthy cd) && negb (truthy cn) = false).
  { unfold py_or in Ht. destruct (truthy cn); [by rewrite andb_false_r|by rewrite Ht]. }
  rewrite Hboth. cbn [negb AIArk.collect]. rewrite Hparsed.
  unfold calm_ark, calm_search in Hcalm. rewrite Hsearch in Hcalm.
  apply andb_prop in Hcalm as [[_ Hleads]%andb_prop _].
  cbn [forallb] in Hleads. apply andb_prop in Hleads as [_ Hrest].
  pose proof (AIArkFacts.collect_calm rest
                ([] ++ [Result true (Some p) None (AIArk.linkedin_url first)
                               (Some (AIArk.raw first)) 0]) Hrest) as Hnone.
  destruct (AIArk.collect rest _) as [rs esc] eqn:Hcollect. cbn in Hnone. subst esc.
  apply ScrapeFacts.collect_in_order in Hcollect. subst rs. cbn.
  reflexivity.
Qed.

(** X26: after a hit of AI Ark, each of the fourteen fields of
    [LeadData] in the result is the value of the lead found, a null one
    included: whatever the record held under these keys is replaced (its
    e-mail address too, when the lead found has none); every other field
    of the record is kept. *)
Theorem ai_ark_hit_replaces_lead_fields lead d l f o h st cs first rest found :
  h !! lead = Some d →
  truthy (py_or (field d "company_name") (field d "company_domain")) = true →
  calm o = true →
  ark_open (ark o) = None → AIArk.key_present (ark_api_key (ark o)) = true →
  ark_search (ark o) = AIArk.PostLeads (first :: rest) →
  AIArk.parsed first = inr (Lead.to_dict found) →
  ∃ out st' cs',
    enrich_lead lead true l f o (World h st cs)
    = (Ok (fresh (dom h)), World (<[fresh (dom h) := out]> h) st' cs') ∧
    out !! "enrichment_source" = Some (VStr "ai_ark") ∧
    out !! "email" = Some (Lead.email found) ∧
    (∀ k, k ∈ Lead.keys →
          out !! k = Lead.to_dict found !! k ∧ is_Some (out !! k)) ∧
    (∀ k, k ∉ Lead.keys → k ≠ "enrichment_source" → k ≠ "enrichment_cost" →
          out !! k = d !! k).
Proof.
  intros Hlead Ht Hcalm Hopen Hkey Hsearch Hparsed.
  assert (Hark : calm_ark (ark o) = true).
  { unfold calm in Hcalm. by apply andb_prop in Hcalm as [[? _]%andb_prop _]. }
  pose proof (first_lead_wins _ _ _ _ _ _ Ht Hark Hopen Hkey Hsearch Hparsed) as Hwin.
  rewrite (enrich_lead_refines lead d true l f o h st cs Hlead (calm_along o _ Hcalm)).
  eexists _, _, _. split; [reflexivity|].
  unfold outcome, stages, settle. cbn [stage_eligible stage_verdict stage_source].
  rewrite Ht, Hwin. cbn [andb extras source_name].
  assert (Hkeys : ∀ k, k ∈ Lead.keys →
            k ≠ "enrichment_cost" ∧ k ≠ "enrichment_source").
  { intros k Hk. split; intros ->; unfold Lead.keys in Hk;
      rewrite !elem_of_cons, elem_of_nil in Hk;
      repeat (destruct Hk as [Hk|Hk]; [discriminate Hk|]); done. }
  assert (Hin : ∀ k, k ∈ Lead.keys →
            (<["enrichment_cost" := VFloat fzero]>
               (<["enrichment_source" := VStr "ai_ark"]> (Lead.to_dict found ∪ d)) : dict) !! k
            = Lead.to_dict found !! k).
  { intros k Hk. destruct (Hkeys k Hk) as [Hc Hs].
    rewrite !lookup_insert_ne by done.
    destruct (to_dict_lookup found k Hk) as [v Hv].
    rewrite Hv. by apply lookup_union_Some_l. }
  split_and!.
  - rewrite lookup_insert_ne by discriminate. by rewrite lookup_insert_eq.
  - rewrite Hin by (unfold Lead.keys; rewrite elem_of_cons; by left).
    reflexivity.
  - intros k Hk. rewrite (Hin k Hk). split; [done|]. by apply to_dict_lookup.
  - intros k Hk Hs Hc. rewrite !lookup_insert_ne by done.
    apply lookup_union_r. apply not_elem_of_dom. rewrite ParseFacts.to_dict_dom.
    by rewrite elem_of_list_to_set.
Qed.

Import Sample Fixtures.

Lemma ai_ark_hit_witness :
  heap contact_store !! 1%positive = Some acme_contact ∧
  acme_contact !! "email" = Some (VStr "ceo@acme.com") ∧
  calm ark_finds = true ∧
  ∃ out st' cs',
    enrich_lead 1 true true true ark_finds (World (heap contact_store) initial_stats [])
    = (Ok (fresh (dom (heap contact_store))),
       World (<[fresh (dom (heap contact_store)) := out]> (heap contact_store)) st' cs') ∧
    out !! "email" = Some VNone.
Proof.
  split_and!; [reflexivity..|].
  destruct (ai_ark_hit_replaces_lead_fields 1 acme_contact true true ark_finds
              (heap contact_store) initial_stats []
              (AIArk.RawLead ∅ None (inr (Lead.to_dict found_without_email))) []
              found_without_email eq_refl eq_refl eq_refl eq_refl eq_refl eq_refl eq_refl)
    as (out & st' & cs' & Hrun & _ & Hemail & _).
  exists out, st', cs'. split; [exact Hrun|exact Hemail].
Defined.

End MergeFacts.

Module BatchCountFacts.
Import Pipeline Waterfall Batch BatchInv Observed PipelineFacts BatchFacts.

Lemma count_accounts d a l f o s0 s n :
  accounted s0 s n → accounted s0 (count d a l f o s) (S n).
Proof.
  unfold accounted, hits, count. intros [H1 H2].
  destruct (fst (settle (stages d a l f o) d)) as [[]|]; cbn; lia.
Qed.

Section counting.
Context (h0 : gmap loc dict) (jobs : list job) (c : Z) (s0 : PipelineStats).
Hypothesis Hposed : well_posed h0 jobs.

Lemma advance_accounted i p :
  pool_ok h0 jobs c p →
  accounted s0 (stats (pworld p)) (total finished (tasks p)) →
  accounted s0 (stats (pworld (advance jobs i p)))
            (total finished (tasks (advance jobs i p))).
Proof.
  intros (Hlen & Hperm & Hsub & Hraised & Htasks) Hacc. unfold advance.
  destruct (tasks p !! i) as [t|] eqn:Hi; [|done].
  destruct t; try done.
  - destruct (0 <? permits p); [|done]. cbn [tasks pworld].
    pose proof (total_insert finished _ i _ Running Hi) as Ht. cbn [finished] in Ht.
    by replace (total finished (<[i:=Running]> (tasks p)))
      with (total finished (tasks p)) by lia.
  - destruct (jobs !! i) as [[lead o]|] eqn:Hjob.
    2: { apply lookup_ge_None in Hjob. apply lookup_lt_Some in Hi. lia. }
    pose proof (proj1 (Forall_lookup _ _) Hposed i _ Hjob) as [[d Hd] Hcalm]. cbn in *.
    assert (Hlead : heap (pworld p) !! lead = Some d) by by eapply lookup_weaken.
    destruct (pworld p) as [h st cs] eqn:Hw. cbn in *.
    rewrite (enrich_lead_refines lead d true true true o h st cs Hlead (calm_along _ _ Hcalm)).
    cbn [tasks pworld stats].
    pose proof (total_insert finished _ i _ (Done (fresh (dom h))) Hi) as Ht.
    cbn [finished] in Ht.
    replace (total finished (<[i:=Done (fresh (dom h))]> (tasks p)))
      with (S (total finished (tasks p))) by lia.
    by apply count_accounts.
Qed.

Lemma run_accounted schedule : ∀ p,
  pool_ok h0 jobs c p →
  accounted s0 (stats (pworld p)) (total finished (tasks p)) →
  accounted s0 (stats (pworld (run jobs schedule p)))
            (total finished (tasks (run jobs schedule p))).
Proof.
  induction schedule as [|i schedule IH]; intros p Hp Hacc; [done|].
  rewrite run_cons. apply IH; [by apply advance_ok|by apply advance_accounted].
Qed.

End counting.

Lemma all_returned ts ls : mapM returned ts = Some ls → total finished ts = length ts.
Proof.
  revert ls. induction ts as [|t ts IH]; intros ls; [done|].
  rewrite total_cons. cbn [mapM]. destruct t; cbn; try done.
  destruct (mapM returned ts) as [ls'|] eqn:E; [|done]. intros _.
  by rewrite (IH ls').
Qed.

(** X27: when [enrich_leads_batch] has returned its list, for a batch
    whose records are mappings and whose sources raise [Exception]s only,
    under every schedule of the event loop and every concurrency bound,
    the counters have accounted for every record once:
    [total_enriched + failed] has grown by the number of records, the three
    hit counters have grown by as much as [total_enriched], and the list is
    as long as the batch. *)
Theorem batch_counts_every_record jobs c schedule w ls w' :
  well_posed (heap w) jobs →
  enrich_leads_batch jobs c schedule w = (Some (Ok ls), w') →
  accounted (stats w) (stats w') (length jobs) ∧ length ls = length jobs.
Proof.
  intros Hposed. unfold enrich_leads_batch.
  destruct (start jobs c w) as [p0|e] eqn:Hstart; [|done].
  pose proof (start_ok (heap w) jobs c Hposed w p0 eq_refl Hstart) as Hp0.
  assert (Hp : pool_ok (heap w) jobs c (run jobs schedule p0)) by by apply run_ok.
  assert (Hacc : accounted (stats w) (stats (pworld (run jobs schedule p0)))
                           (total finished (tasks (run jobs schedule p0)))).
  { apply (run_accounted (heap w) jobs c (stats w) Hposed); [done|].
    unfold start in Hstart. destruct (c <? 0); [done|]. injection Hstart as <-.
    cbn [tasks pworld]. rewrite total_replicate. cbn [finished].
    unfold accounted. split; [lia|done]. }
  intros [= Hg <-].
  destruct (gathered_ok _ _ _ _ _ Hp Hg) as (ls' & [= <-] & Hlen & _).
  split; [|done].
  unfold gathered in Hg. destruct Hp as (Hlt & _ & _ & Hraised & _).
  rewrite Hraised in Hg. unfold results in Hg.
  destruct (mapM returned (tasks (run jobs schedule p0))) as [ls0|] eqn:Hm; [|done].
  rewrite (all_returned _ _ Hm), Hlt in Hacc. done.
Qed.

Import Sample Fixtures.

(** Two records, one permit, the tasks run one after the other. *)
Lemma batch_counts_witness :
  well_posed (heap store) two_jobs ∧
  accounted (stats store)
            (stats (snd (enrich_leads_batch two_jobs 1 one_by_one store)))
            (length two_jobs).
Proof.
  assert (Hposed : well_posed (heap store) two_jobs).
  { unfold well_posed, two_jobs. repeat constructor; by eexists. }
  split; [exact Hposed|].
  destruct (fst (enrich_leads_batch two_jobs 1 one_by_one store)) as [[ls|e]|] eqn:Hfst;
    [|vm_compute in Hfst; discriminate Hfst..].
  exact (proj1 (batch_counts_every_record two_jobs 1 one_by_one store ls _ Hposed
                  (eq_trans (surjective_pairing _)
                            (f_equal (λ x, (x, snd (enrich_leads_batch two_jobs 1 one_by_one
                                                                       store))) Hfst)))).
Defined.

End BatchCountFacts.

Module PollFacts.
Import Scraper LinkedInPoll.

Lemma round_of_stats answers read n s :
  round_of (_make_request (answers n) s) read = round_number answers read n.
Proof.
  unfold round_number, round_of.
  by rewrite (RetryFacts.make_request_outcome (answers n) s new_stats).
Qed.

Lemma polling_skips interval answers read cancelled k : ∀ left attempt s g w sl,
  (∀ n, (attempt ≤ n < attempt + k)%nat →
        undecided (round_number answers read n) = true ∧ cancelled n = false) →
  ∃ s' w',
    polling (k + left) attempt interval answers read cancelled s g w sl
    = polling left (attempt + k) interval answers read cancelled s' (g + k) w'
              (sl + Z.of_nat k * interval).
Proof.
  induction k as [|k IH]; intros left attempt s g w sl Hund.
  - exists s, w. cbn [Nat.add]. rewrite !Nat.add_0_r. f_equal. lia.
  - destruct (Hund attempt ltac:(lia)) as [Hu Hc].
    cbn [Nat.add polling]. rewrite Hc, round_of_stats.
    destruct (IH left (S attempt) (stats_after (_make_request (answers attempt) s)) (S g)
                 (w + seconds (waits (_make_request (answers attempt) s))) (sl + interval))
      as (s' & w' & Hnext).
    { intros n Hn. apply Hund. lia. }
    exists s', w'.
    replace (attempt + S k)%nat with (S attempt + k)%nat by lia.
    replace (g + S k)%nat with (S g + k)%nat by lia.
    replace (sl + Z.of_nat (S k) * interval) with (sl + interval + Z.of_nat k * interval)
      by lia.
    destruct (round_number answers read attempt) as [e| | |]; cbn in Hu; try done.
    by rewrite Hu.
Qed.

Lemma collect_guarded profiles : ∀ rs e,
  collect profiles rs = Raise e → is_Exception e = false.
Proof.
  induction profiles as [|p profiles IH]; intros rs e; cbn; [done|].
  destruct (parsed p) as [e0|d]; [|apply IH].
  destruct (is_Exception e0) eqn:He; [apply IH|]. by intros [= <-].
Qed.

Lemma collect_successes profiles : ∀ rs rs',
  Forall (λ r, success r = true) rs → collect profiles rs = Ok rs' →
  Forall (λ r, success r = true) rs'.
Proof.
  induction profiles as [|p profiles IH]; intros rs rs' Hrs; cbn.
  - by intros [= <-].
  - destruct (parsed p) as [e0|d].
    + destruct (is_Exception e0); [by apply IH|done].
    + apply IH. apply Forall_app. split; [done|]. by constructor.
Qed.

Lemma polling_bounded interval answers read cancelled left : ∀ attempt s g w sl,
  0 ≤ interval →
  bounded interval left s g w sl
          (polling left attempt interval answers read cancelled s g w sl).
Proof.
  induction left as [|left IH]; intros attempt s g w sl Hi; cbn [polling].
  - unfold bounded. cbn. replace (g - g)%nat with 0%nat by lia.
    split_and!; try lia; [done|]. intros rs [= <-]. right. eauto.
  - pose proof (RetryFacts.make_request_bounds (answers attempt) s) as [Ht Hw].
    fold (seconds (waits (_make_request (answers attempt) s))) in Hw.
    set (call := _make_request (answers attempt) s) in *.
    assert (Hstop : ∀ out,
      (∀ e, out = Raise e → is_Exception e = false) →
      (∀ rs, out = Ok rs → Forall (λ r, success r = true) rs ∨
                           ∃ error, rs = [Result false None error None None 0]) →
      bounded interval (S left) s g w sl
              (Trace out (stats_after call) (S g) (w + seconds (waits call)) sl)).
    { intros out H1 H2. unfold bounded. cbn [gets stats_then waited slept outcome].
      replace (S g - g)%nat with 1%nat by lia. split_and!; try done; lia. }
    assert (Hgo : bounded interval (S left) s g w sl
      (if cancelled attempt
       then Trace (Raise (Exn BaseOnly "CancelledError")) (stats_after call) (S g)
                  (w + seconds (waits call)) sl
       else polling left (S attempt) interval answers read cancelled (stats_after call)
                    (S g) (w + seconds (waits call)) (sl + interval))).
    { destruct (cancelled attempt).
      - apply Hstop; [by intros e [= <-]|done].
      - destruct (IH (S attempt) (stats_after call) (S g) (w + seconds (waits call))
                     (sl + interval) Hi) as (H1 & H2 & H3 & H4 & H5 & H6).
        unfold bounded.
        replace (Z.of_nat (gets (polling left (S attempt) interval answers read cancelled
                   (stats_after call) (S g) (w + seconds (waits call)) (sl + interval)) - g))
          with (Z.of_nat (gets (polling left (S attempt) interval answers read cancelled
                   (stats_after call) (S g) (w + seconds (waits call)) (sl + interval))
                          - S g) + 1) by lia.
        split_and!; try done; try lia; nia. }
    destruct (round_of call read) as [e|profiles|error|].
    + destruct (is_Exception e) eqn:He; [exact Hgo|].
      apply Hstop; [by intros e' [= <-]|done].
    + apply Hstop; [intros e; apply collect_guarded|].
      intros rs Hrs. left. by eapply collect_successes.
    + apply Hstop; [done|]. intros rs [= <-]. right. eauto.
    + exact Hgo.
Qed.

Lemma polling_gives_up interval answers read cancelled left : ∀ attempt s g w sl,
  (∀ n k, transient (answers n k)) → (∀ n, cancelled n = false) →
  let t := polling left attempt interval answers read cancelled s g w sl in
  gets t = (g + left)%nat ∧
  total_requests (stats_then t) = total_requests s + 3 * Z.of_nat left ∧
  waited t = w + 4 * Z.of_nat left ∧
  slept t = sl + Z.of_nat left * interval.
Proof.
  induction left as [|left IH]; intros attempt s g w sl Hall Hc; cbn [polling].
  - cbn. lia.
  - destruct (RetryFacts.make_request_gives_up (answers attempt) s (Hall attempt))
      as ((e & Hout & He) & Ht & Hw).
    fold (seconds (waits (_make_request (answers attempt) s))) in Hw.
    unfold round_of. rewrite Hout, He, Hc.
    destruct (IH (S attempt) (stats_after (_make_request (answers attempt) s)) (S g)
                 (w + seconds (waits (_make_request (answers attempt) s))) (sl + interval)
                 Hall Hc) as (H1 & H2 & H3 & H4).
    cbn zeta in *. rewrite H1, H2, H3, H4. lia.
Qed.

(** X28: whatever the requests come to, [_poll_for_results] calls
    [self.get] at most [max_attempts] times. Each call is a retried
    request, so that at most three requests are counted per call; the retry
    decorator waits at most 4 seconds in a call, and the loop sleeps at
    most [poll_interval] seconds after it (the delays of the rate limiter
    apart). The bounds are reached when every request fails with an error
    the decorator retries on: [3 * max_attempts] requests,
    [4 * max_attempts] seconds of waits and [max_attempts * poll_interval]
    seconds of sleep. The call never raises an [Exception] (an error of a
    round is logged, slept on and the next round is run); and the list it
    returns holds successful results only, or is one unsuccessful result
    alone. *)
Theorem polling_is_bounded max_attempts poll_interval answers read cancelled s :
  0 ≤ poll_interval →
  let t := _poll_for_results max_attempts poll_interval answers read cancelled s in
  (gets t ≤ max_attempts)%nat ∧
  total_requests s ≤ total_requests (stats_then t)
    ≤ total_requests s + 3 * Z.of_nat (gets t) ∧
  0 ≤ waited t ≤ 4 * Z.of_nat (gets t) ∧
  0 ≤ slept t ≤ Z.of_nat (gets t) * poll_interval ∧
  (∀ e, outcome t = Raise e → is_Exception e = false) ∧
  (∀ rs, outcome t = Ok rs →
         Forall (λ r, success r = true) rs ∨
         ∃ error, rs = [Result false None error None None 0]) ∧
  ((∀ n k, transient (answers n k)) → (∀ n, cancelled n = false) →
   gets t = max_attempts ∧
   total_requests (stats_then t) = total_requests s + 3 * Z.of_nat max_attempts ∧
   waited t = 4 * Z.of_nat max_attempts ∧
   slept t = Z.of_nat max_attempts * poll_interval).
Proof.
  intros Hi. unfold _poll_for_results.
  destruct (polling_bounded poll_interval answers read cancelled max_attempts 0 s 0 0 0 Hi)
    as (H1 & H2 & H3 & H4 & H5 & H6).
  rewrite Nat.sub_0_r in *.
  cbn zeta. split_and!; try done; try lia.
  intros Hall Hc.
  destruct (polling_gives_up poll_interval answers read cancelled max_attempts 0 s 0 0 0
              Hall Hc) as (G1 & G2 & G3 & G4).
  split_and!; try done; lia.
Qed.

(** X29: [_poll_for_results] stops at the first round that decides.
    While the rounds before round [k] are still processing or raise an
    [Exception] (after the retries of their request), and no sleep is
    cancelled: if all [max_attempts] rounds go by like that, the call
    returns one unsuccessful result, "Polling timeout", after
    [max_attempts] calls of [self.get] and [max_attempts] sleeps of
    [poll_interval] seconds; if round [k] reports a snapshot that is ready
    or a job that failed, the call returns at once, after [k + 1] calls of
    [self.get] and [k] sleeps, the parsed profiles in order or the one
    unsuccessful result with the error of the job. *)
Theorem polling_stops_at_first_decision
    max_attempts poll_interval answers read cancelled s k :
  (k ≤ max_attempts)%nat →
  (∀ n, (n < k)%nat →
        undecided (round_number answers read n) = true ∧ cancelled n = false) →
  let t := _poll_for_results max_attempts poll_interval answers read cancelled s in
  (k = max_attempts →
   outcome t = Ok [Result false None (Some "Polling timeout") None None 0] ∧
   gets t = max_attempts ∧ slept t = Z.of_nat max_attempts * poll_interval) ∧
  (∀ profiles, (k < max_attempts)%nat → round_number answers read k = Ready profiles →
   outcome t = collect profiles [] ∧
   gets t = S k ∧ slept t = Z.of_nat k * poll_interval) ∧
  (∀ error, (k < max_attempts)%nat → round_number answers read k = JobFailed error →
   outcome t = Ok [Result false None error None None 0] ∧
   gets t = S k ∧ slept t = Z.of_nat k * poll_interval).
Proof.
  intros Hk Hund. unfold _poll_for_results. cbn zeta.
  assert (Hskip : ∀ left, ∃ s' w',
            polling (k + left) 0 poll_interval answers read cancelled s 0 0 0
            = polling left k poll_interval answers read cancelled s' k w'
                      (Z.of_nat k * poll_interval)).
  { intros left.
    destruct (polling_skips poll_interval answers read cancelled k left 0 s 0 0 0)
      as (s' & w' & Hs); [intros n Hn; apply Hund; lia|].
    exists s', w'. rewrite Hs. f_equal. }
  split_and!.
  - intros <-. destruct (Hskip 0%nat) as (s' & w' & Hs).
    rewrite Nat.add_0_r in Hs. by rewrite Hs.
  - intros profiles Hlt Hr.
    replace max_attempts with (k + S (max_attempts - k - 1))%nat by lia.
    destruct (Hskip (S (max_attempts - k - 1))) as (s' & w' & Hs).
    rewrite Hs. cbn [polling]. by rewrite round_of_stats, Hr.
  - intros error Hlt Hr.
    replace max_attempts with (k + S (max_attempts - k - 1))%nat by lia.
    destruct (Hskip (S (max_attempts - k - 1))) as (s' & w' & Hs).
    rewrite Hs. cbn [polling]. by rewrite round_of_stats, Hr.
Qed.

Import Fixtures.

(** Every request of the polling times out, with the default
    [max_attempts = 30] and [poll_interval = 10]: 90 requests, 120 seconds
    of waits and 300 seconds of sleep. *)
Lemma polling_is_bounded_witness :
  0 ≤ 10 ∧
  total_requests
    (stats_then (_poll_for_results 30 10 (λ _, always_timeout) still_running (λ _, false)
                                   new_stats)) = 90 ∧
  waited (_poll_for_results 30 10 (λ _, always_timeout) still_running (λ _, false) new_stats)
  + slept (_poll_for_results 30 10 (λ _, always_timeout) still_running (λ _, false) new_stats)
  = 420.
Proof.
  assert (H : 0 ≤ 10) by lia.
  destruct (polling_is_bounded 30 10 (λ _, always_timeout) still_running (λ _, false)
              new_stats H) as (_ & _ & _ & _ & _ & _ & Htight).
  destruct (Htight (λ _ _, eq_refl) (λ _, eq_refl)) as (_ & H2 & H3 & H4).
  split; [exact H|]. split; [exact H2|]. rewrite H3, H4. reflexivity.
Defined.

(** The job is still running at every round, with the defaults. *)
Lemma polling_times_out_witness :
  (30 ≤ 30)%nat ∧
  outcome (_poll_for_results 30 10 (λ _ _, Responded (Response 200 "running"))
                             still_running (λ _, false) new_stats)
  = Ok [Result false None (Some "Polling timeout") None None 0] ∧
  slept (_poll_for_results 30 10 (λ _ _, Responded (Response 200 "running"))
                           still_running (λ _, false) new_stats) = 300.
Proof.
  destruct (proj1 (polling_stops_at_first_decision 30 10
                     (λ _ _, Responded (Response 200 "running")) still_running
                     (λ _, false) new_stats 30
                     (le_n 30) (λ n _, conj eq_refl eq_refl)) eq_refl) as (H1 & _ & H3).
  split; [lia|]. split; [exact H1|exact H3].
Defined.

End PollFacts.

Module RoutesFacts.
Import Scraper Pipeline Waterfall PipelineFacts Routes.

Lemma lead_data_has_no_cost row :
  lead_data row !! "enrichment_cost" = None ∧
  lead_data row !! "company_domain" = None ∧
  lead_data row !! "company_name" = Some (company_name row) ∧
  lead_data row !! "linkedin_url" = Some (linkedin_url row).
Proof. unfold lead_data. by vm_compute. Qed.

Lemma nothing_won_nothing_merged d a l f o x :
  (∀ res, ai o = Ok res → ∃ p, enriched_data res = PDict p) →
  settle (stages d a l f o) d = (None, x) → x = d.
Proof.
  intros Hai. unfold stages, settle; cbn [stage_eligible stage_verdict stage_source].
  assert (Hm : ∀ m, ai_verdict (ai o) = Miss m → m = ∅).
  { unfold ai_verdict. destruct (ai o) as [res|]; [|by intros m [= <-]].
    destruct (Hai res eq_refl) as [p ->].
    destruct (payload_truthy (PDict p)); [done|by intros m [= <-]]. }
  destruct (a && _);
    [destruct (ark_verdict _ _ _) as [|m1] eqn:Va; [done|];
     apply ark_verdict_residue in Va as ->|];
    (destruct (l && _);
     [destruct (linkedin_verdict _) as [|m2] eqn:Vl; [done|];
      apply linkedin_verdict_residue in Vl as ->|]);
    (destruct f; [destruct (ai_verdict (ai o)) as [|m3]; [done|];
                  pose proof (Hm m3 eq_refl) as ->|]);
    rewrite ?(left_id_L ∅ (∪)); by intros [= <-].
Qed.

Lemma response_fields lead_id enriched :
  response lead_id enriched !! "lead_id" = Some (VStr lead_id) ∧
  response lead_id enriched !! "enriched"
  = Some (VBool (truthy (get enriched "enrichment_source" VNone))) ∧
  response lead_id enriched !! "source" = Some (get enriched "enrichment_source" VNone) ∧
  response lead_id enriched !! "cost" = Some (get enriched "enrichment_cost" (VInt 0)).
Proof. unfold response. by vm_compute. Qed.

(** X30: the endpoint that enriches one lead answers by the outcome.
    With sources that raise [Exception]s only and an AI answer whose
    ["enriched_data"] is an object, it stores the record with a status and
    answers with the lead's id and: when no source won, [enriched] false,
    a null [source] and the cost [0], which is the default of the lookup,
    for the record has no ["enrichment_cost"], with status FAILED; when a
    source won, [enriched] true, the name of the source and the record's
    cost, with status ENRICHED. A lead that is not found gives the error
    and nothing is stored. *)
Theorem single_lead_response lead_id row o :
  calm o = true →
  (∀ res, ai o = Ok res → ∃ p, enriched_data res = PDict p) →
  let served := enrich_single_lead lead_id (Some row) o None in
  (∃ enriched status,
     stored served = Some (enriched, status) ∧
     answer served = Ok (response lead_id enriched) ∧
     response lead_id enriched !! "lead_id" = Some (VStr lead_id) ∧
     ((status = FAILED ∧
       enriched !! "enrichment_cost" = None ∧
       response lead_id enriched !! "enriched" = Some (VBool false) ∧
       response lead_id enriched !! "source" = Some VNone ∧
       response lead_id enriched !! "cost" = Some (VInt 0) ∧
       failed (stats (pipeline served)) = 1 ∧
       total_enriched (stats (pipeline served)) = 0)
      ∨
      (status = ENRICHED ∧
       ∃ s c,
         enriched !! "enrichment_cost" = Some (VFloat c) ∧
         response lead_id enriched !! "enriched" = Some (VBool true) ∧
         response lead_id enriched !! "source" = Some (VStr (source_name s)) ∧
         response lead_id enriched !! "cost" = Some (VFloat c) ∧
         total_enriched (stats (pipeline served)) = 1 ∧
         failed (stats (pipeline served)) = 0))) ∧
  (∀ db, answer (enrich_single_lead lead_id None o db)
         = Raise (Exn OtherException "Lead not found") ∧
         stored (enrich_single_lead lead_id None o db) = None).
Proof.
  intros Hcalm Hai served. split; [|done].
  subst served. unfold enrich_single_lead.
  set (d := lead_data row).
  assert (Hlead : (<[1%positive := d]> ∅ : gmap loc dict) !! 1%positive = Some d)
    by apply lookup_insert_eq.
  rewrite (enrich_lead_refines 1 d true true true o _ initial_stats [] Hlead
             (calm_along o _ Hcalm)).
  cbn [heap]. rewrite lookup_insert_eq. cbn [answer stored pipeline stats].
  eexists _, _. split; [reflexivity|]. split; [reflexivity|].
  destruct (response_fields lead_id (outcome d true true true o)) as (R1 & R2 & R3 & R4).
  rewrite R1, R2, R3, R4. split; [done|].
  unfold status_of, get, outcome, count.
  destruct (settle (stages d true true true o) d) as [[s|] x] eqn:Hs; cbn [fst snd].
  - right. destruct (extras o s x) as [x' c] eqn:Hx.
    rewrite lookup_insert_eq.
    rewrite lookup_insert_ne by discriminate. rewrite lookup_insert_eq.
    assert (Ht : truthy (VStr (source_name s)) = true) by (by destruct s).
    rewrite Ht. split; [done|]. exists s, c.
    split_and!; try done; by destruct s.
  - left. apply (nothing_won_nothing_merged _ _ _ _ _ _ Hai) in Hs as ->.
    rewrite lookup_insert_eq.
    rewrite lookup_insert_ne by discriminate.
    destruct (lead_data_has_no_cost row) as [Hnone _]. fold d in Hnone. rewrite Hnone.
    cbn. done.
Qed.

Import Sample Fixtures.

Lemma single_lead_response_witness :
  calm all_down = true ∧
  ∃ enriched status,
    stored (enrich_single_lead "42" (Some jane_row) all_down None) = Some (enriched, status) ∧
    answer (enrich_single_lead "42" (Some jane_row) all_down None)
    = Ok (response "42" enriched).
Proof.
  split; [reflexivity|].
  assert (Hai : ∀ res, ai all_down = Ok res → ∃ p, enriched_data res = PDict p)
    by (intros res H; discriminate H).
  destruct (proj1 (single_lead_response "42" jane_row all_down eq_refl Hai))
    as (enriched & status & Hstored & Hanswer & _).
  exists enriched, status. split; [exact Hstored|exact Hanswer].
Defined.

End RoutesFacts.
